(** * cfb-schedule-generator: the scheduling core of [app.js]

    A shallow embedding of the out-of-conference scheduler
    ([computeTeamState], [canScheduleBetween], [pickHomeAway],
    [placeGameAtWeek], [tryGenerateSchedule], [assignByes]) and the
    properties its specification states about it.

    Modelling conventions

    - A Number is a binary64 value, [Num.t], with the operations of
      IEEE 754 as [SpecFloat] defines them: [oocNeeded], [oocRemaining]
      and the sums and differences built from them are such values,
      for [parseCSVToTeams] accepts any finite number there.  The
      counters that count week cells ([totalGames], [homeGames],
      [awayGames], [lockedOOC]) and array lengths stay far below
      [2^53], where binary64 is exact, and are integers ([Z]); week
      indices and array positions are [nat].
    - Strings are sequences of code units; [a.key < b.key] and [===] are
      the code-unit comparisons of [String].  The host built-ins
      [String.prototype.trim], [toLowerCase] and [localeCompare] are
      fields of the class [Host]: every theorem holds for all hosts, and
      [asciiHost] is a concrete one used to evaluate examples.
    - A week cell is the closed variant [Slot.t]; a team is [Team.t].
    - The scheduler mutates its [state] objects in place and reaches them
      through several arrays at once ([state], [eligible], [candidates]).
      The objects live in a store, [list TeamState.t]; a reference to one
      is its position in [state].  [deepCloneTeams] gives every state its
      own team object, so [TeamState.ref] holds that team by value.
    - [Array.prototype.sort] is stable; [sortBy] inserts from the right,
      which keeps equal elements in their original order.
    - What the scheduler counts with [oocRemaining] is the number of
      games only where binary64 counts exactly.  The statements that
      relate the numbers of the summary to games and cells are made for
      [wholeDemand] inputs, and examples show what the code does
      outside them. *)

From Stdlib Require Import ZArith Lia Ascii String SpecFloat.
From stdpp Require Import base gmap sets list strings pretty.

Set Default Proof Using "Type*".

(** ** JavaScript numbers *)

Module Num.
(** A Number is a binary64 value. *)
Definition t : Type := spec_float.

Definition prec : Z := 53.
Definition emax : Z := 1024.

#[global] Instance eq_dec : EqDecision t.
Proof. solve_decision. Defined.

(** The Number an integer literal or an integer counter denotes. *)
Definition ofZ (z : Z) : t := binary_normalize prec emax z 0 false.

Definition zero : t := S754_zero false.
Definition one : t := ofZ 1.

Definition add (x y : t) : t := SFadd prec emax x y.
Definition sub (x y : t) : t := SFsub prec emax x y.

(** [x < y], [x <= y] and [x === y] *)
Definition ltb (x y : t) : bool := SFltb x y.
Definition leb (x y : t) : bool := SFleb x y.
Definition eqb (x y : t) : bool := SFeqb x y.

(** ToBoolean: [0], [-0] and [NaN] are falsy. *)
Definition truthy (x : t) : bool :=
  match x with
  | S754_zero _ | S754_nan => false
  | _ => true
  end.

(** [x || y] *)
Definition orElse (x y : t) : t := if truthy x then x else y.

(** [Math.max(x, y)] *)
Definition max (x y : t) : t :=
  match SFcompare x y with
  | None => S754_nan
  | Some Lt => y
  | Some Gt => x
  | Some Eq => match x with S754_zero true => y | _ => x end
  end.

(** The integer part of a Number, towards zero; 0 where there is none. *)
Definition toZ (x : t) : Z :=
  match x with
  | S754_finite s m e =>
      cond_Zopp s (if (0 <=? e)%Z then Z.pos m * 2 ^ e else Z.pos m / 2 ^ (- e))%Z
  | _ => 0%Z
  end.

(** The first integer that binary64 no longer tells from its
    successor, [2^53]. *)
Definition limit : Z := 9007199254740992.

(** A Number that is a whole number from 0 to [2^53 - 1]: what a
    counter that goes up and down in steps of one holds exactly. *)
Definition isCount (x : t) : bool :=
  bool_decide (x = ofZ (toZ x)) && (0 <=? toZ x)%Z && (toZ x <? limit)%Z.
End Num.

(** The arithmetic of Numbers stays folded when a goal is simplified. *)
Arguments Num.ofZ : simpl never.
Arguments Num.add : simpl never.
Arguments Num.sub : simpl never.
Arguments Num.ltb : simpl never.
Arguments Num.leb : simpl never.
Arguments Num.eqb : simpl never.
Arguments Num.max : simpl never.
Arguments Num.orElse : simpl never.
Arguments Num.toZ : simpl never.
Arguments Num.isCount : simpl never.

(** ** Host built-ins *)

Class Host := {
  trim : string → string;
  toLowerCase : string → string;
  localeCompare : string → string → Z
}.

(** ** Data model *)

Module Slot.
(** [w.type] with its payload. *)
Inductive t :=
| confHome
| confAway
| lockedOOC (opponent : string) (away : bool)
| bye
| empty
| oocGame (opponent : string) (away : bool).

#[global] Instance eq_dec : EqDecision t.
Proof. solve_decision. Defined.

(** A cell that holds a game of any kind. *)
Definition isGame (w : t) : bool :=
  match w with
  | confHome | confAway | lockedOOC _ _ | oocGame _ _ => true
  | bye | empty => false
  end.

Definition isOocGame (w : t) : bool :=
  match w with oocGame _ _ => true | _ => false end.

Definition isBye (w : t) : bool :=
  match w with bye => true | _ => false end.

Definition isEmpty (w : t) : bool :=
  match w with empty => true | _ => false end.

(** The cells [computeTeamState] lists in [availableWeeks]. *)
Definition isOpen (w : t) : bool :=
  match w with empty | bye => true | _ => false end.
End Slot.

Module Team.
Record t := mk {
  name : string;
  conference : string;
  oocNeeded : Num.t;
  weeks : list Slot.t
}.

#[global] Instance eq_dec : EqDecision t.
Proof. solve_decision. Defined.

Definition setWeek (i : nat) (w : Slot.t) (x : t) : t :=
  mk (name x) (conference x) (oocNeeded x) (<[i := w]> (weeks x)).
End Team.

Module TeamState.
Record t := mk {
  ref : Team.t;
  name : string;
  key : string;
  conference : string;
  totalGames : Z;
  homeGames : Z;
  awayGames : Z;
  playedOpp : gset string;
  availableWeeks : list nat;
  oocRemaining : Num.t
}.

#[global] Instance inhabited : Inhabited t :=
  populate (mk (Team.mk "" "" Num.zero []) "" "" "" 0 0 0 ∅ [] Num.zero).

(** Field updates, one per assignment form of the source. *)
Definition setRefWeek (i : nat) (w : Slot.t) (s : t) : t :=
  mk (Team.setWeek i w (ref s)) (name s) (key s) (conference s)
     (totalGames s) (homeGames s) (awayGames s) (playedOpp s)
     (availableWeeks s) (oocRemaining s).

Definition incTotalGames (s : t) : t :=
  mk (ref s) (name s) (key s) (conference s)
     (totalGames s + 1) (homeGames s) (awayGames s) (playedOpp s)
     (availableWeeks s) (oocRemaining s).

Definition incHomeGames (s : t) : t :=
  mk (ref s) (name s) (key s) (conference s)
     (totalGames s) (homeGames s + 1) (awayGames s) (playedOpp s)
     (availableWeeks s) (oocRemaining s).

Definition incAwayGames (s : t) : t :=
  mk (ref s) (name s) (key s) (conference s)
     (totalGames s) (homeGames s) (awayGames s + 1) (playedOpp s)
     (availableWeeks s) (oocRemaining s).

(** [s.oocRemaining--] *)
Definition decOocRemaining (s : t) : t :=
  mk (ref s) (name s) (key s) (conference s)
     (totalGames s) (homeGames s) (awayGames s) (playedOpp s)
     (availableWeeks s) (Num.sub (oocRemaining s) Num.one).

Definition addPlayedOpp (k : string) (s : t) : t :=
  mk (ref s) (name s) (key s) (conference s)
     (totalGames s) (homeGames s) (awayGames s) ({[k]} ∪ playedOpp s)
     (availableWeeks s) (oocRemaining s).

Definition dropWeek (week : nat) (s : t) : t :=
  mk (ref s) (name s) (key s) (conference s)
     (totalGames s) (homeGames s) (awayGames s) (playedOpp s)
     (filter (λ w, w ≠ week) (availableWeeks s)) (oocRemaining s).
End TeamState.

(** A reference to a state object: its position in [state]. *)
Abbreviation Ref := nat (only parsing).

(** [{ home, away }] as returned by [pickHomeAway]. *)
Record Sides := mkSides { home : Ref; away : Ref }.

(** One call of [placeGameAtWeek]; the matcher's history is a list of
    these.  The history is not in the source: it records which calls a
    run made, so that statements about "every placement" can be made. *)
Record Placement := mkPlacement { teamA : Ref; teamB : Ref; atWeek : nat }.

Module Result.
(** The object [tryGenerateSchedule] returns; a property missing from
    the object literal is [None]. *)
Record t := mk {
  ok : bool;
  reason : option string;
  teams : option (list Team.t);
  unscheduled : option Num.t;
  scheduledOOC : option Num.t;
  neededOOC : option Num.t
}.
End Result.

(** ** Stable sort with a numeric comparator *)

(** [x] comes from before the elements of [l] in the array: it moves
    behind an element only when the comparator gives a number above
    zero, and a comparator result of [NaN] counts as zero. *)
Fixpoint insertBy {A} (cmp : A → A → Num.t) (x : A) (l : list A) : list A :=
  match l with
  | [] => [x]
  | y :: l' =>
      if Num.ltb Num.zero (cmp x y) then y :: insertBy cmp x l' else x :: y :: l'
  end.

Definition sortBy {A} (cmp : A → A → Num.t) (l : list A) : list A :=
  foldr (insertBy cmp) [] l.

Definition sumZ (l : list Z) : Z := foldl Z.add 0%Z l.

(** ** The scheduler *)

Section Scheduler.
Context `{host : Host}.

Definition normalizeKey (s : string) : string := toLowerCase (trim s).

Definition cloneSlot (w : Slot.t) : Slot.t :=
  match w with
  | Slot.confHome => Slot.confHome
  | Slot.confAway => Slot.confAway
  | Slot.lockedOOC o a => Slot.lockedOOC o a
  | Slot.bye => Slot.bye
  | Slot.empty => Slot.empty
  | Slot.oocGame o a => Slot.oocGame o a
  end.

Definition deepCloneTeams (src : list Team.t) : list Team.t :=
  map (λ t, Team.mk (Team.name t) (Team.conference t) (Team.oocNeeded t)
                    (map cloneSlot (Team.weeks t))) src.

(** The local variables of the per-team loop of [computeTeamState]. *)
Record Tally := mkTally {
  tTotalGames : Z;
  tHomeGames : Z;
  tAwayGames : Z;
  tLockedOOC : Z;
  tPlayedOpp : gset string;
  tAvailableWeeks : list nat
}.

Definition addOpponent (o : string) (p : gset string) : gset string :=
  if bool_decide (o = "") then p else {[normalizeKey o]} ∪ p.

(** The body of [for (let i = 0; i < t.weeks.length; i++)]. *)
Definition tallySlot (c : Tally) (iw : nat * Slot.t) : Tally :=
  let i := iw.1 in
  match iw.2 with
  | Slot.confHome =>
      mkTally (tTotalGames c + 1) (tHomeGames c + 1) (tAwayGames c)
              (tLockedOOC c) (tPlayedOpp c) (tAvailableWeeks c)
  | Slot.confAway =>
      mkTally (tTotalGames c + 1) (tHomeGames c) (tAwayGames c + 1)
              (tLockedOOC c) (tPlayedOpp c) (tAvailableWeeks c)
  | Slot.lockedOOC o a =>
      mkTally (tTotalGames c + 1)
              (if a then tHomeGames c else tHomeGames c + 1)
              (if a then tAwayGames c + 1 else tAwayGames c)
              (tLockedOOC c + 1) (addOpponent o (tPlayedOpp c))
              (tAvailableWeeks c)
  | Slot.oocGame o a =>
      mkTally (tTotalGames c + 1)
              (if a then tHomeGames c else tHomeGames c + 1)
              (if a then tAwayGames c + 1 else tAwayGames c)
              (tLockedOOC c) (addOpponent o (tPlayedOpp c))
              (tAvailableWeeks c)
  | Slot.empty | Slot.bye =>
      mkTally (tTotalGames c) (tHomeGames c) (tAwayGames c)
              (tLockedOOC c) (tPlayedOpp c) (tAvailableWeeks c ++ [i])
  end.

Definition indexed {A} (l : list A) : list (nat * A) :=
  zip (seq 0 (length l)) l.

Definition tallyWeeks (ws : list Slot.t) : Tally :=
  foldl tallySlot (mkTally 0 0 0 0 ∅ []) (indexed ws).

Definition teamState (t : Team.t) : TeamState.t :=
  let c := tallyWeeks (Team.weeks t) in
  TeamState.mk t (Team.name t) (normalizeKey (Team.name t))
    (Team.conference t) (tTotalGames c) (tHomeGames c) (tAwayGames c)
    (tPlayedOpp c) (tAvailableWeeks c)
    (Num.max Num.zero
       (Num.sub (Num.orElse (Team.oocNeeded t) Num.zero)
                (Num.ofZ (tLockedOOC c)))).

(** [computeTeamState(ts)] returns [{ byName, state }]. *)
Definition computeByName (ts : list Team.t) : gmap string Team.t :=
  foldl (λ m t, <[normalizeKey (Team.name t) := t]> m) ∅ ts.

Definition computeState (ts : list Team.t) : list TeamState.t :=
  map teamState ts.

Definition computeTeamState (ts : list Team.t)
  : gmap string Team.t * list TeamState.t :=
  (computeByName ts, computeState ts).

(** [canScheduleBetween(a, b)]; its callers pass elements of
    [eligible], so the guard against a missing argument never fires. *)
Definition canScheduleBetween (st : list TeamState.t) (a b : Ref) : bool :=
  let sa := st !!! a in
  let sb := st !!! b in
  if bool_decide (TeamState.key sa = TeamState.key sb) then false
  else if bool_decide (TeamState.conference sa = TeamState.conference sb) then false
  else if Num.leb (TeamState.oocRemaining sa) Num.zero
          || Num.leb (TeamState.oocRemaining sb) Num.zero then false
  else if (12 <=? TeamState.totalGames sa)%Z || (12 <=? TeamState.totalGames sb)%Z then false
  else if bool_decide (TeamState.key sb ∈ TeamState.playedOpp sa)
          || bool_decide (TeamState.key sa ∈ TeamState.playedOpp sb) then false
  else true.

Definition pickHomeAway (st : list TeamState.t) (a b : Ref) : Sides :=
  let sa := st !!! a in
  let sb := st !!! b in
  if negb (TeamState.homeGames sa =? TeamState.homeGames sb)%Z then
    if (TeamState.homeGames sa <? TeamState.homeGames sb)%Z
    then mkSides a b else mkSides b a
  else if negb (TeamState.awayGames sa =? TeamState.awayGames sb)%Z then
    if (TeamState.awayGames sb <? TeamState.awayGames sa)%Z
    then mkSides a b else mkSides b a
  else
    if String.ltb (TeamState.key sa) (TeamState.key sb)
    then mkSides a b else mkSides b a.

(** [placeGameAtWeek(a, b, week)], one store update per statement.
    [<[week := _]>] leaves an array unchanged when [week] is past its
    end, where JavaScript would extend it; [Reach_in_range] below
    shows that the matcher never writes there. *)
Definition placeGameAtWeek (st : list TeamState.t) (a b : Ref) (week : nat)
  : list TeamState.t :=
  let hw := pickHomeAway st a b in
  let awayName := TeamState.name (st !!! away hw) in
  let homeName := TeamState.name (st !!! home hw) in
  let bKey := TeamState.key (st !!! b) in
  let aKey := TeamState.key (st !!! a) in
  let st := alter (TeamState.setRefWeek week (Slot.oocGame awayName false)) (home hw) st in
  let st := alter (TeamState.setRefWeek week (Slot.oocGame homeName true)) (away hw) st in
  let st := alter TeamState.incTotalGames a st in
  let st := alter TeamState.incTotalGames b st in
  let st := alter TeamState.incHomeGames (home hw) st in
  let st := alter TeamState.incAwayGames (away hw) st in
  let st := alter TeamState.decOocRemaining a st in
  let st := alter TeamState.decOocRemaining b st in
  let st := alter (TeamState.addPlayedOpp bKey) a st in
  let st := alter (TeamState.addPlayedOpp aKey) b st in
  let st := alter (TeamState.dropWeek week) a st in
  alter (TeamState.dropWeek week) b st.

(** [a.availableWeeks.includes(w)] *)
Definition includes (w : nat) (l : list nat) : bool := bool_decide (w ∈ l).

Definition weekOrder (avoidWeek0 : bool) : list nat :=
  let w := seq 0 14 in
  if avoidWeek0 then drop 1 w ++ [0] else w.

Definition isEligible (st : list TeamState.t) (w : nat) (t : Ref) : bool :=
  let s := st !!! t in
  Num.ltb Num.zero (TeamState.oocRemaining s)
  && includes w (TeamState.availableWeeks s)
  && (TeamState.totalGames s <? 12)%Z.

Definition numAvailable (s : TeamState.t) : Z :=
  Z.of_nat (length (TeamState.availableWeeks s)).

(** The comparator of [eligible.sort]. *)
Definition byScarcity (st : list TeamState.t) (a b : Ref) : Num.t :=
  let sa := st !!! a in
  let sb := st !!! b in
  Num.orElse (Num.ofZ (numAvailable sa - numAvailable sb))
             (Num.sub (TeamState.oocRemaining sb) (TeamState.oocRemaining sa)).

(** The comparator of the sort of [candidates]. *)
Definition byScarcityThenKey (st : list TeamState.t) (a b : Ref) : Num.t :=
  let sa := st !!! a in
  let sb := st !!! b in
  Num.orElse
    (Num.orElse (Num.ofZ (numAvailable sa - numAvailable sb))
                (Num.sub (TeamState.oocRemaining sb) (TeamState.oocRemaining sa)))
    (Num.ofZ (localeCompare (TeamState.key sa) (TeamState.key sb))).

(** The variables the loop over one week's [eligible] teams changes:
    the store, the [used] set, and the history. *)
Record Pairing := mkPairing {
  pState : list TeamState.t;
  pUsed : gset string;
  pPlaced : list Placement
}.

(** The predicate of [eligible.filter(o => ...)] for the team [t]. *)
Definition isCandidate (st : list TeamState.t) (used : gset string)
    (w : nat) (t o : Ref) : bool :=
  negb (bool_decide (o = t))
  && negb (bool_decide (TeamState.key (st !!! o) ∈ used))
  && includes w (TeamState.availableWeeks (st !!! o))
  && canScheduleBetween st t o.

Definition candidatesFor (st : list TeamState.t) (used : gset string)
    (eligible : list Ref) (w : nat) (t : Ref) : list Ref :=
  sortBy (byScarcityThenKey st)
         (filter (λ o, isCandidate st used w t o = true) eligible).

(** The body of [for (const t of eligible)]. *)
Definition pairTeam (w : nat) (eligible : list Ref) (p : Pairing) (t : Ref)
  : Pairing :=
  let st := pState p in
  if bool_decide (TeamState.key (st !!! t) ∈ pUsed p) then p
  else
    match head (candidatesFor st (pUsed p) eligible w t) with
    | Some opp =>
        mkPairing (placeGameAtWeek st t opp w)
                  ({[TeamState.key (st !!! opp)]}
                     ∪ ({[TeamState.key (st !!! t)]} ∪ pUsed p))
                  (pPlaced p ++ [mkPlacement t opp w])
    | None => p
    end.

Definition eligibleAt (st : list TeamState.t) (w : nat) : list Ref :=
  sortBy (byScarcity st) (filter (λ t, isEligible st w t = true)
                                 (seq 0 (length st))).

(** The body of [for (const w of weekOrder)]. *)
Definition scheduleWeek (sl : list TeamState.t * list Placement) (w : nat)
  : list TeamState.t * list Placement :=
  let eligible := eligibleAt sl.1 w in
  let p := foldl (pairTeam w eligible) (mkPairing sl.1 ∅ sl.2) eligible in
  (pState p, pPlaced p).

(** The matcher: the loop over [weekOrder], from the state
    [computeTeamState] builds. *)
Definition runMatcher (st : list TeamState.t) (avoidWeek0 : bool)
  : list TeamState.t * list Placement :=
  foldl scheduleWeek (st, []) (weekOrder avoidWeek0).

(** [state.reduce((s, t) => s + t.oocRemaining, 0)] *)
Definition remainingSum (st : list TeamState.t) : Num.t :=
  foldl (λ s t, Num.add s (TeamState.oocRemaining t)) Num.zero st.

Definition noPairings : string :=
  "No valid OOC pairings available under constraints".

Definition tryGenerateSchedule (baseTeams : list Team.t) (avoidWeek0 : bool)
  : Result.t :=
  let working := deepCloneTeams baseTeams in
  let state := (computeTeamState working).2 in
  let beforeRemaining := remainingSum state in
  let state := (runMatcher state avoidWeek0).1 in
  let working := map TeamState.ref state in
  let afterRemaining := remainingSum state in
  let scheduled := Num.sub beforeRemaining afterRemaining in
  if Num.ltb Num.zero beforeRemaining && Num.eqb scheduled Num.zero then
    Result.mk false (Some noPairings) None None None None
  else
    Result.mk true None (Some working) (Some afterRemaining)
              (Some scheduled) (Some beforeRemaining).

(** The history of the run [tryGenerateSchedule] makes. *)
Definition placementsOf (baseTeams : list Team.t) (avoidWeek0 : bool)
  : list Placement :=
  (runMatcher (computeTeamState (deepCloneTeams baseTeams)).2 avoidWeek0).2.

(** The store at the end of that run. *)
Definition finalState (baseTeams : list Team.t) (avoidWeek0 : bool)
  : list TeamState.t :=
  (runMatcher (computeTeamState (deepCloneTeams baseTeams)).2 avoidWeek0).1.

(** *** Bye distribution *)

(** The per-team object [{ t, byes, emptiesNon0, empties0 }]. *)
Record ByeView := mkByeView {
  vTeam : Team.t;
  vByes : list nat;
  vEmptiesNon0 : list nat;
  vEmpties0 : list nat
}.

Definition viewSlot (v : ByeView) (iw : nat * Slot.t) : ByeView :=
  let i := iw.1 in
  match iw.2 with
  | Slot.bye => mkByeView (vTeam v) (vByes v ++ [i]) (vEmptiesNon0 v) (vEmpties0 v)
  | Slot.empty =>
      if bool_decide (i = 0)
      then mkByeView (vTeam v) (vByes v) (vEmptiesNon0 v) (vEmpties0 v ++ [i])
      else mkByeView (vTeam v) (vByes v) (vEmptiesNon0 v ++ [i]) (vEmpties0 v)
  | _ => v
  end.

Definition viewOf (t : Team.t) : ByeView :=
  foldl viewSlot (mkByeView t [] [] []) (indexed (Team.weeks t)).

Definition maxByesPerTeam : nat := 3.

(** [v.emptiesNon0.shift()] and [v.empties0.shift()] on a non-empty
    array: the first element, and the view without it. *)
Definition shiftNon0 (v : ByeView) : Z * ByeView :=
  match vEmptiesNon0 v with
  | i :: rest => (Z.of_nat i, mkByeView (vTeam v) (vByes v) rest (vEmpties0 v))
  | [] => ((-1)%Z, v)
  end.

Definition shift0 (v : ByeView) : Z * ByeView :=
  match vEmpties0 v with
  | i :: rest => (Z.of_nat i, mkByeView (vTeam v) (vByes v) (vEmptiesNon0 v) rest)
  | [] => ((-1)%Z, v)
  end.

Definition nonEmpty {A} (l : list A) : bool :=
  match l with [] => false | _ => true end.

(** The body of [for (const v of views)] in round [r]. *)
Definition giveBye (avoidWeek0 : bool) (r : nat) (v : ByeView) : ByeView :=
  if ((r <=? length (vByes v)) || (maxByesPerTeam <=? length (vByes v)))%nat
  then v
  else
    let pick :=
      if avoidWeek0 && nonEmpty (vEmptiesNon0 v) then shiftNon0 v
      else if nonEmpty (vEmptiesNon0 v) then shiftNon0 v
      else if nonEmpty (vEmpties0 v) then shift0 v
      else ((-1)%Z, v) in
    let idx := pick.1 in
    let v := pick.2 in
    if (0 <=? idx)%Z
    then mkByeView (Team.setWeek (Z.to_nat idx) Slot.bye (vTeam v))
                   (vByes v ++ [Z.to_nat idx]) (vEmptiesNon0 v) (vEmpties0 v)
    else v.

(** [assignByes(list, avoidWeek0)] changes [list] in place; the model
    returns the list it leaves.  The teams of [list] are distinct
    objects (they come from [deepCloneTeams]), so a round is a [map]
    over the views, in their order. *)
Definition byeRound (avoidWeek0 : bool) (views : list ByeView) (r : nat)
  : list ByeView :=
  map (giveBye avoidWeek0 r) views.

Definition assignByes (l : list Team.t) (avoidWeek0 : bool) : list Team.t :=
  let views := map viewOf l in
  let views := foldl (byeRound avoidWeek0) views (seq 1 maxByesPerTeam) in
  map vTeam views.

(** The computation inside [onGenerate]: the result of
    [tryGenerateSchedule] (none when there are no teams) and
    [teams.value] afterwards. *)
Definition onGenerate (teamsValue : list Team.t) (avoidWeek0 : bool)
  : option Result.t * list Team.t :=
  match teamsValue with
  | [] => (None, teamsValue)
  | _ =>
      let result := tryGenerateSchedule teamsValue avoidWeek0 in
      match Result.ok result, Result.teams result with
      | true, Some ts => (Some result, assignByes ts avoidWeek0)
      | _, _ => (Some result, teamsValue)
      end
  end.
End Scheduler.

(** ** A concrete host: ASCII strings compared by code unit *)

Definition isSpace (c : ascii) : bool :=
  let n := nat_of_ascii c in
  ((n =? 32) || ((9 <=? n) && (n <=? 13)))%nat.

Fixpoint trimStart (s : string) : string :=
  match s with
  | String c s' => if isSpace c then trimStart s' else s
  | EmptyString => EmptyString
  end.

Definition revString (s : string) : string :=
  string_of_list_ascii (rev (list_ascii_of_string s)).

Definition asciiTrim (s : string) : string :=
  revString (trimStart (revString (trimStart s))).

Definition lowerChar (c : ascii) : ascii :=
  let n := nat_of_ascii c in
  if ((65 <=? n) && (n <=? 90))%nat then ascii_of_nat (n + 32) else c.

Fixpoint asciiLower (s : string) : string :=
  match s with
  | String c s' => String (lowerChar c) (asciiLower s')
  | EmptyString => EmptyString
  end.

Definition codeUnitCompare (a b : string) : Z :=
  match String.compare a b with
  | Lt => (-1)%Z
  | Eq => 0%Z
  | Gt => 1%Z
  end.

Definition asciiHost : Host :=
  {| trim := asciiTrim; toLowerCase := asciiLower; localeCompare := codeUnitCompare |}.


(** * Properties *)

(** ** Whole numbers in binary64 *)

Section WholeNumbers.

(** [p * 2^k] for [k >= 0]. *)
Definition shl (p : positive) (k : Z) : positive :=
  match k with
  | Z.pos n => Pos.iter xO p n
  | _ => p
  end.

Lemma shl_Z (p : positive) (k : Z) :
  (0 <= k)%Z → Z.pos (shl p k) = (Z.pos p * 2 ^ k)%Z.
Proof.
  intros Hk. destruct k as [|n|n]; simpl; [lia| |lia].
  change (Pos.iter xO p n) with (shift_pos n p).
  rewrite shift_pos_correct, Zpower_pos_nat, Zpower_nat_Z.
  rewrite positive_nat_Z. change (Z.pow_pos 2 n) with (2 ^ Z.pos n)%Z. lia.
Qed.

Lemma digits2_size (p : positive) : digits2_pos p = Pos.size p.
Proof. induction p as [p IH|p IH|]; simpl; by rewrite ?IH. Qed.

Lemma size_xO_iter (p n : positive) :
  Pos.size (Pos.iter xO p n) = (Pos.size p + n)%positive.
Proof.
  induction n as [|n IH] using Pos.peano_ind; simpl.
  - lia.
  - rewrite Pos.iter_succ. simpl. rewrite IH. lia.
Qed.

Lemma size_shl (p : positive) (k : Z) :
  (0 <= k)%Z → Z.pos (Pos.size (shl p k)) = (Z.pos (Pos.size p) + k)%Z.
Proof.
  intros Hk. destruct k as [|n|n]; simpl; [lia| |lia].
  rewrite size_xO_iter. lia.
Qed.

Lemma shl_shl (p : positive) (j k : Z) :
  (0 <= j)%Z → (0 <= k)%Z → shl (shl p j) k = shl p (j + k).
Proof.
  intros Hj Hk. apply (inj Z.pos).
  rewrite !shl_Z by lia. rewrite Z.pow_add_r by lia. lia.
Qed.

Lemma iter_pos_iter {A} (f : A → A) (n : positive) (x : A) :
  SpecFloat.iter_pos f n x = Pos.iter f x n.
Proof.
  revert x. induction n as [n IH|n IH|]; intros x; simpl.
  - rewrite !IH. by rewrite <- !Pos.iter_swap.
  - by rewrite !IH.
  - done.
Qed.

(** Shifting out bits that are zero loses nothing. *)
Lemma shr_zeros (q n : positive) :
  SpecFloat.iter_pos shr_1 n (Build_shr_record (Z.pos (Pos.iter xO q n)) false false)
  = Build_shr_record (Z.pos q) false false.
Proof.
  rewrite iter_pos_iter.
  induction n as [|n IH] using Pos.peano_ind.
  - done.
  - rewrite !Pos.iter_succ, <- Pos.iter_swap. exact IH.
Qed.

Lemma size_bound (q : positive) :
  (Z.pos q < Num.limit)%Z ↔ (Z.pos (Pos.size q) <= 53)%Z.
Proof.
  pose proof (Pos.size_gt q) as Hgt. pose proof (Pos.size_le q) as Hle.
  assert (Z.pos q < 2 ^ Z.pos (Pos.size q))%Z as Hgt'.
  { rewrite <- Pos2Z.inj_pow. lia. }
  assert (2 ^ Z.pos (Pos.size q) <= 2 * Z.pos q)%Z as Hle'.
  { rewrite <- Pos2Z.inj_pow. lia. }
  change Num.limit with (2 ^ 53)%Z. split.
  - intros Hq.
    destruct (Z.le_gt_cases (Z.pos (Pos.size q)) 53) as [|Hbig]; [done|].
    assert (2 ^ 54 <= 2 ^ Z.pos (Pos.size q))%Z
      by (apply Z.pow_le_mono_r; lia).
    change (2 ^ 54)%Z with (2 * 2 ^ 53)%Z in *. lia.
  - intros Hd.
    assert (2 ^ Z.pos (Pos.size q) <= 2 ^ 53)%Z by (apply Z.pow_le_mono_r; lia).
    lia.
Qed.

(** The binary64 value of the whole number [q], with sign [s]: the
    digits of [q] moved up to fill the 53 bits of the significand. *)
Definition whole (s : bool) (q : positive) : Num.t :=
  S754_finite s (shl q (53 - Z.pos (Pos.size q))) (Z.pos (Pos.size q) - 53).

(** Rounding [q * 2^k * 2^-k], for [q] below [2^53], gives [q]. *)
Lemma round_shifted (s : bool) (q : positive) (k : Z) :
  (Z.pos q < Num.limit)%Z → (0 <= k)%Z →
  binary_round Num.prec Num.emax s (shl q k) (- k) = whole s q.
Proof.
  intros Hq Hk. apply size_bound in Hq.
  set (d := Z.pos (Pos.size q)) in *.
  assert (1 <= d)%Z by (subst d; lia).
  unfold binary_round.
  rewrite digits2_size, size_shl by done. fold d.
  assert (fexp Num.prec Num.emax (d + k + - k) = d - 53)%Z as ->.
  { unfold fexp, emin, Num.prec, Num.emax. lia. }
  unfold shl_align.
  destruct (d - 53 - - k)%Z as [|j|j] eqn:Hj.
  - (* exactly 53 digits *)
    assert (k = 53 - d)%Z as Hk' by lia.
    unfold binary_round_aux, shr_fexp. simpl Zdigits2.
    rewrite digits2_size, size_shl by done. fold d.
    assert (fexp Num.prec Num.emax (d + k + - k) - - k = 0)%Z as ->.
    { unfold fexp, emin, Num.prec, Num.emax. lia. }
    simpl. rewrite digits2_size, size_shl by done. fold d.
    assert (fexp Num.prec Num.emax (d + k + - k) - - k = 0)%Z as ->.
    { unfold fexp, emin, Num.prec, Num.emax. lia. }
    simpl.
    assert ((- k <=? Num.emax - Num.prec)%Z = true) as ->
      by (apply Z.leb_le; unfold Num.emax, Num.prec; lia).
    unfold whole. fold d. by rewrite Hk', Z.opp_sub_distr, Z.add_comm.
  - (* more than 53 digits: the low bits are zero *)
    assert (k = (53 - d) + Z.pos j)%Z as Hk' by lia.
    unfold binary_round_aux, shr_fexp. simpl Zdigits2.
    rewrite digits2_size, size_shl by done. fold d.
    assert (fexp Num.prec Num.emax (d + k + - k) - - k = Z.pos j)%Z as ->.
    { unfold fexp, emin, Num.prec, Num.emax. lia. }
    unfold shr_record_of_loc, shr.
    assert (shl q k = Pos.iter xO (shl q (53 - d)) j) as ->.
    { change (Pos.iter xO (shl q (53 - d)) j) with (shl (shl q (53 - d)) (Z.pos j)).
      rewrite shl_shl by lia. by rewrite Hk'. }
    rewrite shr_zeros. simpl.
    rewrite digits2_size, size_shl by lia. fold d.
    assert (fexp Num.prec Num.emax (d + (53 - d) + (- k + Z.pos j))
            - (- k + Z.pos j) = 0)%Z as ->.
    { unfold fexp, emin, Num.prec, Num.emax. lia. }
    simpl.
    assert ((- k + Z.pos j <=? Num.emax - Num.prec)%Z = true) as ->
      by (apply Z.leb_le; unfold Num.emax, Num.prec; lia).
    unfold whole. fold d. f_equal. lia.
  - (* fewer than 53 digits: filled up with zeros *)
    assert (Z.pos j = 53 - d - k)%Z as Hj' by lia.
    assert (Pos.iter xO (shl q k) j = shl q (53 - d)) as ->.
    { change (Pos.iter xO (shl q k) j) with (shl (shl q k) (Z.pos j)).
      rewrite shl_shl by lia. f_equal. lia. }
    unfold binary_round_aux, shr_fexp. simpl Zdigits2.
    rewrite digits2_size, size_shl by lia. fold d.
    assert (fexp Num.prec Num.emax (d + (53 - d) + (d - 53)) - (d - 53) = 0)%Z as ->.
    { unfold fexp, emin, Num.prec, Num.emax. lia. }
    simpl. rewrite digits2_size, size_shl by lia. fold d.
    assert (fexp Num.prec Num.emax (d + (53 - d) + (d - 53)) - (d - 53) = 0)%Z as ->.
    { unfold fexp, emin, Num.prec, Num.emax. lia. }
    simpl.
    assert ((d - 53 <=? Num.emax - Num.prec)%Z = true) as ->
      by (apply Z.leb_le; unfold Num.emax, Num.prec; lia).
    done.
Qed.

(** The Number of a whole number in the exact range. *)
Definition wholeOf (z : Z) : Num.t :=
  match z with
  | Z0 => Num.zero
  | Z.pos q => whole false q
  | Z.neg q => whole true q
  end.

Lemma normalize_shifted (z k : Z) :
  (- Num.limit < z < Num.limit)%Z → (0 <= k)%Z →
  binary_normalize Num.prec Num.emax (z * 2 ^ k) (- k) false = wholeOf z.
Proof.
  intros Hz Hk. destruct z as [|q|q]; simpl.
  - done.
  - assert (Z.pos q * 2 ^ k = Z.pos (shl q k))%Z as -> by (by rewrite shl_Z).
    simpl. apply round_shifted; lia.
  - assert (Z.neg q * 2 ^ k = Z.neg (shl q k))%Z as ->.
    { rewrite <- !Pos2Z.opp_pos, shl_Z by done. lia. }
    simpl. apply round_shifted; lia.
Qed.

Lemma ofZ_whole (z : Z) :
  (- Num.limit < z < Num.limit)%Z → Num.ofZ z = wholeOf z.
Proof.
  intros Hz. unfold Num.ofZ.
  rewrite <- (normalize_shifted z 0) by lia.
  f_equal. lia.
Qed.

(** The significand of a value moved down to the smaller of two
    exponents, as [SFadd] and [SFsub] do before they add. *)
Lemma aligned (q : positive) (e : Z) :
  let d := Z.pos (Pos.size q) in
  (d <= 53)%Z → (e <= d - 53)%Z →
  Z.pos (fst (shl_align (shl q (53 - d)) (d - 53) e)) = (Z.pos q * 2 ^ (- e))%Z.
Proof.
  intros d Hd He. unfold shl_align.
  destruct (e - (d - 53))%Z as [|j|j] eqn:Hj; simpl.
  - rewrite shl_Z by lia. do 2 f_equal. lia.
  - lia.
  - change (Pos.iter xO (shl q (53 - d)) j) with (shl (shl q (53 - d)) (Z.pos j)).
    rewrite shl_shl, shl_Z by lia. do 2 f_equal. lia.
Qed.

Definition signed (s : bool) (q : positive) : Z := cond_Zopp s (Z.pos q).

Lemma wholeOf_signed (s : bool) (q : positive) : whole s q = wholeOf (signed s q).
Proof. by destruct s. Qed.

Lemma add_whole (sa sb : bool) (qa qb : positive) :
  (Z.pos qa < Num.limit)%Z → (Z.pos qb < Num.limit)%Z →
  (- Num.limit < signed sa qa + signed sb qb < Num.limit)%Z →
  Num.add (whole sa qa) (whole sb qb) = wholeOf (signed sa qa + signed sb qb).
Proof.
  intros Ha Hb Hsum. pose proof (proj1 (size_bound qa) Ha) as Hda.
  pose proof (proj1 (size_bound qb) Hb) as Hdb.
  unfold Num.add, whole, SFadd. cbv zeta.
  set (ez := Z.min _ _).
  assert (ez <= Z.pos (Pos.size qa) - 53)%Z by (subst ez; lia).
  assert (ez <= Z.pos (Pos.size qb) - 53)%Z by (subst ez; lia).
  assert (ez <= 0)%Z by lia.
  rewrite <- (normalize_shifted _ (- ez)) by lia.
  rewrite Z.opp_involutive. f_equal.
  unfold signed. destruct sa, sb; unfold cond_Zopp;
    rewrite !aligned by lia; lia.
Qed.

Lemma sub_whole (sa sb : bool) (qa qb : positive) :
  (Z.pos qa < Num.limit)%Z → (Z.pos qb < Num.limit)%Z →
  (- Num.limit < signed sa qa - signed sb qb < Num.limit)%Z →
  Num.sub (whole sa qa) (whole sb qb) = wholeOf (signed sa qa - signed sb qb).
Proof.
  intros Ha Hb Hsum. pose proof (proj1 (size_bound qa) Ha) as Hda.
  pose proof (proj1 (size_bound qb) Hb) as Hdb.
  unfold Num.sub, whole, SFsub. cbv zeta.
  set (ez := Z.min _ _).
  assert (ez <= Z.pos (Pos.size qa) - 53)%Z by (subst ez; lia).
  assert (ez <= Z.pos (Pos.size qb) - 53)%Z by (subst ez; lia).
  assert (ez <= 0)%Z by lia.
  rewrite <- (normalize_shifted _ (- ez)) by lia.
  rewrite Z.opp_involutive. f_equal.
  unfold signed. destruct sa, sb; unfold cond_Zopp;
    rewrite !aligned by lia; lia.
Qed.

(** Sums and differences of whole numbers are exact as long as the
    operands and the result stay inside the range. *)
Lemma add_ofZ (a b : Z) :
  (- Num.limit < a < Num.limit)%Z → (- Num.limit < b < Num.limit)%Z →
  (- Num.limit < a + b < Num.limit)%Z →
  Num.add (Num.ofZ a) (Num.ofZ b) = Num.ofZ (a + b).
Proof.
  intros Ha Hb Hab. rewrite !ofZ_whole by done.
  destruct a as [|qa|qa], b as [|qb|qb]; try done.
  - apply (add_whole false false); simpl; lia.
  - apply (add_whole false true); simpl; lia.
  - apply (add_whole true false); simpl; lia.
  - apply (add_whole true true); simpl; lia.
Qed.

Lemma sub_ofZ (a b : Z) :
  (- Num.limit < a < Num.limit)%Z → (- Num.limit < b < Num.limit)%Z →
  (- Num.limit < a - b < Num.limit)%Z →
  Num.sub (Num.ofZ a) (Num.ofZ b) = Num.ofZ (a - b).
Proof.
  intros Ha Hb Hab. rewrite !ofZ_whole by done.
  destruct a as [|qa|qa], b as [|qb|qb]; try done.
  - apply (sub_whole false false); simpl; lia.
  - apply (sub_whole false true); simpl; lia.
  - apply (sub_whole true false); simpl; lia.
  - apply (sub_whole true true); simpl; lia.
Qed.

(** Comparing a whole number with zero. *)
Lemma ltb_zero_ofZ (a : Z) :
  (- Num.limit < a < Num.limit)%Z → Num.ltb Num.zero (Num.ofZ a) = (0 <? a)%Z.
Proof. intros Ha. rewrite ofZ_whole by done. by destruct a. Qed.

Lemma leb_ofZ_zero (a : Z) :
  (- Num.limit < a < Num.limit)%Z → Num.leb (Num.ofZ a) Num.zero = (a <=? 0)%Z.
Proof. intros Ha. rewrite ofZ_whole by done. by destruct a. Qed.

Lemma eqb_ofZ_zero (a : Z) :
  (- Num.limit < a < Num.limit)%Z → Num.eqb (Num.ofZ a) Num.zero = (a =? 0)%Z.
Proof. intros Ha. rewrite ofZ_whole by done. by destruct a. Qed.

Lemma truthy_ofZ (a : Z) :
  (- Num.limit < a < Num.limit)%Z → Num.truthy (Num.ofZ a) = negb (a =? 0)%Z.
Proof. intros Ha. rewrite ofZ_whole by done. by destruct a. Qed.

Lemma eqb_ofZ_refl (a : Z) :
  (- Num.limit < a < Num.limit)%Z → Num.eqb (Num.ofZ a) (Num.ofZ a) = true.
Proof.
  intros Ha. rewrite ofZ_whole by done. unfold Num.eqb, SFeqb.
  destruct a as [|q|q]; simpl; [done|..];
    by rewrite Z.compare_refl, Pos.compare_cont_refl.
Qed.

Lemma orElse_ofZ (a : Z) :
  (- Num.limit < a < Num.limit)%Z → Num.orElse (Num.ofZ a) Num.zero = Num.ofZ a.
Proof. intros Ha. rewrite ofZ_whole by done. by destruct a. Qed.

Lemma max_zero_ofZ (a : Z) :
  (- Num.limit < a < Num.limit)%Z →
  Num.max Num.zero (Num.ofZ a) = Num.ofZ (Z.max 0 a).
Proof.
  intros Ha. destruct a as [|q|q]; [done| |by rewrite ofZ_whole by done].
  change (Z.max 0 (Z.pos q)) with (Z.pos q). by rewrite ofZ_whole by done.
Qed.

Lemma toZ_ofZ (a : Z) :
  (- Num.limit < a < Num.limit)%Z → Num.toZ (Num.ofZ a) = a.
Proof.
  intros Ha. rewrite ofZ_whole by done.
  assert (∀ s q, (Z.pos q < Num.limit)%Z → Num.toZ (whole s q) = signed s q) as Hw.
  { intros s q Hq. apply size_bound in Hq. unfold whole, Num.toZ, signed.
    f_equal. set (d := Z.pos (Pos.size q)) in *.
    rewrite shl_Z by lia.
    destruct (Z.leb_spec 0 (d - 53)) as [Hd|Hd].
    - replace (d - 53)%Z with 0%Z by lia. replace (53 - d)%Z with 0%Z by lia.
      simpl. lia.
    - replace (- (d - 53))%Z with (53 - d)%Z by lia.
      apply Z.div_mul. apply Z.pow_nonzero; lia. }
  destruct a as [|q|q]; [done|..]; cbn [wholeOf]; rewrite Hw; simpl; lia.
Qed.

Lemma isCount_spec (x : Num.t) :
  Num.isCount x = true ↔ ∃ n, (0 <= n < Num.limit)%Z ∧ x = Num.ofZ n.
Proof.
  unfold Num.isCount. rewrite !andb_true_iff, bool_decide_eq_true.
  rewrite Z.leb_le, Z.ltb_lt. split.
  - intros [[Hx H0] Hlim]. exists (Num.toZ x). split; [lia|done].
  - intros (n & Hn & ->). rewrite toZ_ofZ by lia. split; [split|]; [done|lia..].
Qed.
End WholeNumbers.


(** ** Lists, sums and the stable sort *)

Lemma foldl_invariant {A B} (P : A → Prop) (f : A → B → A) (l : list B) (a : A) :
  P a → (∀ acc x, x ∈ l → P acc → P (f acc x)) → P (foldl f a l).
Proof.
  revert a. induction l as [|x l IH]; intros a Ha Hstep; simpl; [done|].
  apply IH.
  - apply Hstep; [left | done].
  - intros acc y Hy. apply Hstep. by right.
Qed.

Lemma elem_of_insertBy {A} (cmp : A → A → Num.t) (x y : A) (l : list A) :
  y ∈ insertBy cmp x l ↔ y = x ∨ y ∈ l.
Proof.
  induction l as [|z l IH]; simpl.
  - rewrite list_elem_of_singleton, elem_of_nil. tauto.
  - destruct (Num.ltb Num.zero (cmp x z)).
    + rewrite !elem_of_cons, IH. tauto.
    + rewrite !elem_of_cons. tauto.
Qed.

Lemma elem_of_sortBy {A} (cmp : A → A → Num.t) (y : A) (l : list A) :
  y ∈ sortBy cmp l ↔ y ∈ l.
Proof.
  unfold sortBy. induction l as [|x l IH]; simpl; [done|].
  rewrite elem_of_insertBy, elem_of_cons, IH. tauto.
Qed.

Lemma sumZ_foldl (l : list Z) (z : Z) : foldl Z.add z l = (z + sumZ l)%Z.
Proof.
  unfold sumZ. revert z. induction l as [|x l IH]; intros z; simpl; [lia|].
  rewrite (IH (z + x)%Z), (IH (0 + x)%Z). lia.
Qed.

Lemma sumZ_cons (x : Z) (l : list Z) : sumZ (x :: l) = (x + sumZ l)%Z.
Proof. unfold sumZ at 1. simpl. rewrite sumZ_foldl. lia. Qed.

Lemma sumZ_nil : sumZ [] = 0%Z.
Proof. reflexivity. Qed.

(** ** One placement *)

Section Placing.
Context `{host : Host}.

(** What [placeGameAtWeek] leaves in the state object of a participant:
    the cell [slot] in week [week], one more game on the side
    [isHome], the opponent's key in [playedOpp], [oocRemaining] less
    one, and [week] no longer available. *)
Definition played (week : nat) (slot : Slot.t) (isHome : bool)
    (oppKey : string) (s : TeamState.t) : TeamState.t :=
  TeamState.mk (Team.setWeek week slot (TeamState.ref s))
    (TeamState.name s) (TeamState.key s) (TeamState.conference s)
    (TeamState.totalGames s + 1)
    (if isHome then TeamState.homeGames s + 1 else TeamState.homeGames s)
    (if isHome then TeamState.awayGames s else TeamState.awayGames s + 1)
    ({[oppKey]} ∪ TeamState.playedOpp s)
    (filter (λ w, w ≠ week) (TeamState.availableWeeks s))
    (Num.sub (TeamState.oocRemaining s) Num.one).

Lemma pickHomeAway_cases (st : list TeamState.t) (a b : Ref) :
  pickHomeAway st a b = mkSides a b ∨ pickHomeAway st a b = mkSides b a.
Proof.
  unfold pickHomeAway.
  repeat match goal with |- context [if ?c then _ else _] => destruct c end;
    auto.
Qed.

(** Whether [a] is the home side of the pair [(a, b)]. *)
Definition homeIsFirst (st : list TeamState.t) (a b : Ref) : bool :=
  bool_decide (home (pickHomeAway st a b) = a).

Lemma placeGameAtWeek_length (st : list TeamState.t) a b w :
  length (placeGameAtWeek st a b w) = length st.
Proof. unfold placeGameAtWeek. cbv zeta. by rewrite !length_alter. Qed.

Lemma placeGameAtWeek_other (st : list TeamState.t) a b w i :
  i ≠ a → i ≠ b → placeGameAtWeek st a b w !! i = st !! i.
Proof.
  intros Ha Hb. unfold placeGameAtWeek. cbv zeta.
  destruct (pickHomeAway_cases st a b) as [-> | ->]; simpl;
    by rewrite !list_lookup_alter_ne by done.
Qed.

(** Reading a position of a store after a chain of updates. *)
Ltac store_lookup :=
  repeat first [ rewrite list_lookup_alter_eq
               | rewrite list_lookup_alter_ne by congruence ].

Lemma placeGameAtWeek_first (st : list TeamState.t) a b w sa sb :
  a ≠ b → st !! a = Some sa → st !! b = Some sb →
  placeGameAtWeek st a b w !! a =
    Some (played w (Slot.oocGame (TeamState.name sb) (negb (homeIsFirst st a b)))
                 (homeIsFirst st a b) (TeamState.key sb) sa).
Proof.
  intros Hab Ha Hb. unfold placeGameAtWeek, homeIsFirst. cbv zeta.
  rewrite (list_lookup_total_correct _ _ _ Hb).
  destruct (pickHomeAway_cases st a b) as [-> | ->]; simpl;
    rewrite ?(list_lookup_total_correct _ _ _ Ha),
            ?(list_lookup_total_correct _ _ _ Hb).
  - rewrite bool_decide_eq_true_2 by done.
    store_lookup. rewrite Ha. by destruct sa.
  - rewrite bool_decide_eq_false_2 by done.
    store_lookup. rewrite Ha. by destruct sa.
Qed.

Lemma placeGameAtWeek_second (st : list TeamState.t) a b w sa sb :
  a ≠ b → st !! a = Some sa → st !! b = Some sb →
  placeGameAtWeek st a b w !! b =
    Some (played w (Slot.oocGame (TeamState.name sa) (homeIsFirst st a b))
                 (negb (homeIsFirst st a b)) (TeamState.key sa) sb).
Proof.
  intros Hab Ha Hb. unfold placeGameAtWeek, homeIsFirst. cbv zeta.
  rewrite (list_lookup_total_correct _ _ _ Ha).
  destruct (pickHomeAway_cases st a b) as [-> | ->]; simpl;
    rewrite ?(list_lookup_total_correct _ _ _ Ha),
            ?(list_lookup_total_correct _ _ _ Hb).
  - rewrite bool_decide_eq_true_2 by done.
    store_lookup. rewrite Hb. by destruct sb.
  - rewrite bool_decide_eq_false_2 by done.
    store_lookup. rewrite Hb. by destruct sb.
Qed.
End Placing.

(** ** The states a run passes through *)

Section Reaching.
Context `{host : Host}.

(** The conditions under which the matcher calls
    [placeGameAtWeek(a, b, w)]: two distinct state objects, the week
    open for both, and [canScheduleBetween] true. *)
Definition ValidPlacement (st : list TeamState.t) (a b : Ref) (w : nat) : Prop :=
  a ≠ b ∧ is_Some (st !! a) ∧ is_Some (st !! b)
  ∧ w ∈ TeamState.availableWeeks (st !!! a)
  ∧ w ∈ TeamState.availableWeeks (st !!! b)
  ∧ canScheduleBetween st a b = true.

(** [Reach init st log]: the store [st] is what [init] becomes after
    the placements [log], each made under [ValidPlacement]. *)
Inductive Reach (init : list TeamState.t)
  : list TeamState.t → list Placement → Prop :=
| Reach_init : Reach init init []
| Reach_place st log a b w :
    Reach init st log →
    ValidPlacement st a b w →
    Reach init (placeGameAtWeek st a b w) (log ++ [mkPlacement a b w]).

Lemma placeGameAtWeek_key (st : list TeamState.t) a b w i :
  ValidPlacement st a b w →
  TeamState.key (placeGameAtWeek st a b w !!! i) = TeamState.key (st !!! i).
Proof.
  intros (Hab & [sa Ha] & [sb Hb] & _).
  destruct (decide (i = a)) as [->|Hia].
  { rewrite (list_lookup_total_correct _ _ _ Ha).
    by rewrite (list_lookup_total_correct _ _ _
                  (placeGameAtWeek_first st a b w sa sb Hab Ha Hb)). }
  destruct (decide (i = b)) as [->|Hib].
  { rewrite (list_lookup_total_correct _ _ _ Hb).
    by rewrite (list_lookup_total_correct _ _ _
                  (placeGameAtWeek_second st a b w sa sb Hab Ha Hb)). }
  rewrite !list_lookup_total_alt.
  by rewrite placeGameAtWeek_other.
Qed.

Lemma placeGameAtWeek_total_other (st : list TeamState.t) a b w i :
  i ≠ a → i ≠ b → placeGameAtWeek st a b w !!! i = st !!! i.
Proof.
  intros. rewrite !list_lookup_total_alt. by rewrite placeGameAtWeek_other.
Qed.

(** The invariant of the loop over one week's eligible teams: an
    eligible team whose key is not yet in [used] still has the week
    open. *)
Definition PairingInv (init : list TeamState.t) (w : nat)
    (eligible : list Ref) (p : Pairing) : Prop :=
  Reach init (pState p) (pPlaced p)
  ∧ ∀ i, i ∈ eligible →
      i < length (pState p)
      ∧ (TeamState.key (pState p !!! i) ∉ pUsed p →
         w ∈ TeamState.availableWeeks (pState p !!! i)).

Lemma isCandidate_true st used w t o :
  isCandidate st used w t o = true →
  o ≠ t ∧ (TeamState.key (st !!! o) ∉ used)
  ∧ w ∈ TeamState.availableWeeks (st !!! o)
  ∧ canScheduleBetween st t o = true.
Proof.
  unfold isCandidate, includes. rewrite !andb_true_iff, !negb_true_iff.
  rewrite !bool_decide_eq_false, bool_decide_eq_true. tauto.
Qed.

Lemma pairTeam_inv init w eligible p t :
  t ∈ eligible →
  PairingInv init w eligible p →
  PairingInv init w eligible (pairTeam w eligible p t).
Proof.
  intros Ht [Hreach Hel]. unfold pairTeam.
  case_bool_decide as Hused; [by split|].
  destruct (head _) as [opp|] eqn:Hhead; [|by split].
  apply head_Some_elem_of in Hhead.
  unfold candidatesFor in Hhead.
  rewrite elem_of_sortBy, list_elem_of_filter in Hhead.
  destruct Hhead as [Hcand Hopp].
  apply isCandidate_true in Hcand as (Hne & Hnused & Hw & Hcan).
  destruct (Hel _ Ht) as [Hlt Hav]. destruct (Hel _ Hopp) as [Hlo _].
  assert (ValidPlacement (pState p) t opp w) as Hvalid.
  { repeat split; auto using lookup_lt_is_Some_2. }
  split; simpl.
  - by constructor.
  - intros i Hi. destruct (Hel _ Hi) as [Hli Hai].
    rewrite placeGameAtWeek_length. split; [done|].
    rewrite placeGameAtWeek_key by done. intros Hk.
    rewrite !elem_of_union, !elem_of_singleton in Hk.
    assert (i ≠ t) by (intros ->; tauto).
    assert (i ≠ opp) by (intros ->; tauto).
    rewrite placeGameAtWeek_total_other by done.
    apply Hai. tauto.
Qed.

Lemma isEligible_true st w t :
  isEligible st w t = true →
  Num.ltb Num.zero (TeamState.oocRemaining (st !!! t)) = true
  ∧ w ∈ TeamState.availableWeeks (st !!! t)
  ∧ (TeamState.totalGames (st !!! t) < 12)%Z.
Proof.
  unfold isEligible, includes.
  rewrite !andb_true_iff, bool_decide_eq_true, !Z.ltb_lt. tauto.
Qed.

Lemma elem_of_eligibleAt st w t :
  t ∈ eligibleAt st w → t < length st ∧ isEligible st w t = true.
Proof.
  unfold eligibleAt. rewrite elem_of_sortBy, list_elem_of_filter.
  rewrite elem_of_seq. intros [? ?]. split; [lia|done].
Qed.

Lemma scheduleWeek_reach init sl w :
  Reach init sl.1 sl.2 →
  Reach init (scheduleWeek sl w).1 (scheduleWeek sl w).2.
Proof.
  intros Hreach. unfold scheduleWeek. cbv zeta. simpl.
  apply (foldl_invariant (PairingInv init w (eligibleAt sl.1 w))).
  - split; [done|]. simpl. intros i Hi.
    apply elem_of_eligibleAt in Hi as [Hlt Hel].
    apply isEligible_true in Hel as (_ & Hw & _). by split.
  - intros acc x Hx Hacc. by apply pairTeam_inv.
Qed.

Lemma runMatcher_reach st avoidWeek0 :
  Reach st (runMatcher st avoidWeek0).1 (runMatcher st avoidWeek0).2.
Proof.
  unfold runMatcher.
  apply (foldl_invariant (λ sl, Reach st sl.1 sl.2)).
  - constructor.
  - intros acc w _ Hacc. by apply scheduleWeek_reach.
Qed.
End Reaching.

(** ** The state [computeTeamState] builds *)

Section Building.
Context `{host : Host}.

Lemma cloneSlot_id (w : Slot.t) : cloneSlot w = w.
Proof. by destruct w. Qed.

Lemma deepCloneTeams_id (ts : list Team.t) : deepCloneTeams ts = ts.
Proof.
  unfold deepCloneTeams. induction ts as [|t ts IH]; simpl; [done|].
  rewrite IH. f_equal. destruct t as [n c k ws]; simpl. f_equal.
  clear. induction ws as [|w ws IH]; simpl; [done|].
  by rewrite cloneSlot_id, IH.
Qed.

(** Number of cells of a week array that hold a game. *)
Definition countGames (ws : list Slot.t) : nat :=
  length (filter (λ w, Slot.isGame w = true) ws).

Lemma tally_from (ws : list Slot.t) (k : nat) (c : Tally) :
  let c' := foldl tallySlot c (zip (seq k (length ws)) ws) in
  (∀ i, i ∈ tAvailableWeeks c' ↔
        i ∈ tAvailableWeeks c
        ∨ ∃ j w, i = k + j ∧ ws !! j = Some w ∧ Slot.isOpen w = true)
  ∧ tTotalGames c' = (tTotalGames c + Z.of_nat (countGames ws))%Z
  ∧ (tLockedOOC c <= tLockedOOC c')%Z.
Proof.
  revert k c. induction ws as [|w ws IH]; intros k c; simpl.
  { split; [|split; [unfold countGames; simpl; lia | lia]].
    intros i. split; [tauto|]. intros [?|(j & w & _ & Hj & _)]; [done|].
    by rewrite lookup_nil in Hj. }
  destruct (IH (S k) (tallySlot c (k, w))) as (Hav & Htot & Hlock).
  split; [|split].
  - intros i. rewrite Hav. clear Hav Htot Hlock IH. split.
    + intros [Hi | (j & w' & -> & Hj & Hopen)].
      * destruct w; simpl in Hi; try (by left).
        all: apply elem_of_app in Hi as [Hi|Hi]; [by left|].
        all: apply list_elem_of_singleton in Hi as ->.
        all: right; exists 0; eexists; split; [lia|done].
      * right. exists (S j), w'. split; [lia|done].
    + intros [Hi | (j & w' & -> & Hj & Hopen)].
      * left. destruct w; simpl; try done.
        all: apply elem_of_app; by left.
      * destruct j as [|j]; simpl in Hj.
        -- injection Hj as <-. left.
           destruct w; try discriminate; simpl.
           all: apply elem_of_app; right.
           all: apply list_elem_of_singleton; lia.
        -- right. exists j, w'. split; [lia|done].
  - rewrite Htot. unfold countGames. rewrite filter_cons.
    destruct w; simpl; lia.
  - etrans; [|exact Hlock]. destruct w; simpl; lia.
Qed.

Lemma teamState_available (t : Team.t) (i : nat) :
  i ∈ TeamState.availableWeeks (teamState t) ↔
  ∃ w, Team.weeks t !! i = Some w ∧ Slot.isOpen w = true.
Proof.
  unfold teamState, tallyWeeks, indexed. simpl.
  destruct (tally_from (Team.weeks t) 0 (mkTally 0 0 0 0 ∅ [])) as (Hav & _).
  rewrite Hav. simpl. rewrite elem_of_nil. split.
  - intros [[]|(j & w & -> & ? & ?)]. by exists w.
  - intros (w & ? & ?). right. by exists i, w.
Qed.

Lemma teamState_totalGames (t : Team.t) :
  TeamState.totalGames (teamState t) = Z.of_nat (countGames (Team.weeks t)).
Proof.
  unfold teamState, tallyWeeks, indexed. simpl.
  destruct (tally_from (Team.weeks t) 0 (mkTally 0 0 0 0 ∅ [])) as (_ & -> & _).
  simpl. lia.
Qed.

End Building.

(** ** Counting cells *)

(** Number of positions at which the week array [out] holds an
    [oocGame] and the array [inp] does not: the [oocGame] cells that are
    new in [out]. *)
Fixpoint countNew (inp out : list Slot.t) : nat :=
  match inp, out with
  | i :: inp', o :: out' =>
      (if negb (Slot.isOocGame i) && Slot.isOocGame o then 1 else 0)
      + countNew inp' out'
  | _, _ => 0
  end.

(** The new [oocGame] cells of a whole list of teams. *)
Fixpoint newOocSlots (inp out : list Team.t) : nat :=
  match inp, out with
  | t :: inp', t' :: out' =>
      countNew (Team.weeks t) (Team.weeks t') + newOocSlots inp' out'
  | _, _ => 0
  end.

Lemma countNew_same (ws : list Slot.t) : countNew ws ws = 0.
Proof. induction ws as [|w ws IH]; simpl; [done|]. rewrite IH. by destruct w. Qed.

Lemma countNew_insert (inp out : list Slot.t) (i : nat) (c o : Slot.t) :
  inp !! i = Some c → out !! i = Some c →
  Slot.isOocGame c = false → Slot.isOocGame o = true →
  countNew inp (<[i := o]> out) = S (countNew inp out).
Proof.
  revert out i. induction inp as [|x inp IH]; intros [|y out] [|i]; simpl;
    try discriminate.
  - intros [= ->] [= ->] Hc Ho. by rewrite Hc, Ho.
  - intros Hi Ho Hc Hoo. rewrite (IH out i) by done. lia.
Qed.

Lemma countGames_insert (ws : list Slot.t) (i : nat) (c o : Slot.t) :
  ws !! i = Some c → Slot.isGame c = false → Slot.isGame o = true →
  countGames (<[i := o]> ws) = S (countGames ws).
Proof.
  unfold countGames. revert i. induction ws as [|x ws IH]; intros [|i]; simpl;
    try discriminate.
  - intros [= ->] Hc Ho. rewrite !filter_cons, Hc, Ho. by simpl.
  - intros Hi Hc Ho. rewrite !filter_cons.
    destruct (decide _); simpl; by rewrite (IH i).
Qed.

Lemma sumZ_insert {A} (f : A → Z) (l : list A) (i : nat) (x y : A) :
  l !! i = Some x →
  sumZ (map f (<[i := y]> l)) = (sumZ (map f l) + (f y - f x))%Z.
Proof.
  revert i. induction l as [|z l IH]; intros [|i]; simpl; try discriminate.
  - intros [= ->]. rewrite !sumZ_cons. lia.
  - intros Hi. rewrite !sumZ_cons, (IH i) by done. lia.
Qed.

(** A store changed at two positions only. *)
Lemma store_two_changes {A} (st st' : list A) (a b : nat) (xa xb : A) :
  length st' = length st →
  st' !! a = Some xa → st' !! b = Some xb →
  (∀ i, i ≠ a → i ≠ b → st' !! i = st !! i) →
  st' = <[a := xa]> (<[b := xb]> st).
Proof.
  intros Hlen Ha Hb Hother. apply list_eq. intros i.
  assert (a < length st) by (rewrite <- Hlen; by eapply lookup_lt_Some).
  assert (b < length st) by (rewrite <- Hlen; by eapply lookup_lt_Some).
  destruct (decide (i = a)) as [->|].
  { by rewrite list_lookup_insert_eq by (by rewrite length_insert). }
  rewrite list_lookup_insert_ne by done.
  destruct (decide (i = b)) as [->|].
  { by rewrite list_lookup_insert_eq. }
  rewrite list_lookup_insert_ne by done. by apply Hother.
Qed.

(** ** What every reachable state satisfies *)

Section Invariants.
Context `{host : Host}.

Lemma canScheduleBetween_true (st : list TeamState.t) (a b : Ref) :
  canScheduleBetween st a b = true →
  TeamState.key (st !!! a) ≠ TeamState.key (st !!! b)
  ∧ TeamState.conference (st !!! a) ≠ TeamState.conference (st !!! b)
  ∧ Num.leb (TeamState.oocRemaining (st !!! a)) Num.zero = false
  ∧ Num.leb (TeamState.oocRemaining (st !!! b)) Num.zero = false
  ∧ (TeamState.totalGames (st !!! a) < 12)%Z
  ∧ (TeamState.totalGames (st !!! b) < 12)%Z
  ∧ (TeamState.key (st !!! b) ∉ TeamState.playedOpp (st !!! a))
  ∧ (TeamState.key (st !!! a) ∉ TeamState.playedOpp (st !!! b)).
Proof.
  unfold canScheduleBetween. cbv zeta.
  repeat match goal with
         | |- (if ?c then false else _) = true → _ =>
             destruct c eqn:?; [discriminate|]
         end.
  intros _.
  repeat match goal with
         | H : (_ || _) = false |- _ => apply orb_false_iff in H as [? ?]
         | H : bool_decide _ = false |- _ => apply bool_decide_eq_false in H
         | H : (_ <=? _)%Z = false |- _ => apply Z.leb_gt in H
         end.
  repeat split; auto.
Qed.

(** What relates the state object [s] of a team to the team [t] as
    [tryGenerateSchedule] received it. *)
Record TeamInv (t : Team.t) (s : TeamState.t) : Prop := {
  inv_name : TeamState.name s = Team.name t;
  inv_key : TeamState.key s = normalizeKey (Team.name t);
  inv_ref_name : Team.name (TeamState.ref s) = Team.name t;
  inv_ref_conference : Team.conference (TeamState.ref s) = Team.conference t;
  inv_ref_needed : Team.oocNeeded (TeamState.ref s) = Team.oocNeeded t;
  inv_length : length (Team.weeks (TeamState.ref s)) = length (Team.weeks t);
  (** an available week is an open cell of the input, still as it was *)
  inv_available : ∀ i, i ∈ TeamState.availableWeeks s →
    ∃ c, Team.weeks t !! i = Some c ∧ Slot.isOpen c = true
         ∧ Team.weeks (TeamState.ref s) !! i = Some c;
  (** a cell is as it was, or it was open and holds an [oocGame] now *)
  inv_cell : ∀ i c, Team.weeks t !! i = Some c →
    Team.weeks (TeamState.ref s) !! i = Some c
    ∨ (Slot.isOpen c = true ∧ (i ∉ TeamState.availableWeeks s)
       ∧ ∃ o aw, Team.weeks (TeamState.ref s) !! i = Some (Slot.oocGame o aw));
  inv_total : TeamState.totalGames s
              = Z.of_nat (countGames (Team.weeks (TeamState.ref s)));
  inv_total_lo : (TeamState.totalGames (teamState t) <= TeamState.totalGames s)%Z;
  inv_total_hi : (TeamState.totalGames s
                  <= Z.max 12 (TeamState.totalGames (teamState t)))%Z
}.

Lemma TeamInv_init (t : Team.t) : TeamInv t (teamState t).
Proof.
  split; try done; simpl.
  - intros i Hi. apply teamState_available in Hi as (c & ? & ?). by exists c.
  - intros i c Hc. by left.
  - apply teamState_totalGames.
  - lia.
Qed.

Lemma isOpen_not_game (c : Slot.t) :
  Slot.isOpen c = true → Slot.isGame c = false ∧ Slot.isOocGame c = false.
Proof. by destruct c. Qed.

#[local] Opaque teamState.

Lemma TeamInv_played (t : Team.t) (s : TeamState.t) (w : nat)
    (o : string) (aw isHome : bool) (k : string) :
  TeamInv t s →
  w ∈ TeamState.availableWeeks s →
  (TeamState.totalGames s < 12)%Z →
  TeamInv t (played w (Slot.oocGame o aw) isHome k s).
Proof.
  intros [] Hw Htot.
  destruct (inv_available0 w Hw) as (c & Hc & Hopen & Hcur).
  destruct (isOpen_not_game c Hopen) as [Hng Hno].
  assert (w < length (Team.weeks (TeamState.ref s))) as Hlt
    by by eapply lookup_lt_Some.
  split; simpl; try done.
  - by rewrite length_insert.
  - intros i Hi. apply list_elem_of_filter in Hi as [Hne Hi].
    destruct (inv_available0 i Hi) as (c' & ? & ? & ?).
    exists c'. by rewrite list_lookup_insert_ne.
  - intros i c' Hc'. destruct (decide (i = w)) as [->|Hne].
    + right. assert (c' = c) as -> by congruence.
      split; [done|]. split.
      * rewrite list_elem_of_filter. tauto.
      * exists o, aw. by rewrite list_lookup_insert_eq.
    + rewrite list_lookup_insert_ne by done.
      destruct (inv_cell0 i c' Hc') as [?|(? & Hna & ?)]; [by left|].
      right. split; [done|]. split; [|done].
      rewrite list_elem_of_filter. tauto.
  - rewrite (countGames_insert _ _ c) by done. lia.
  - lia.
  - lia.
Qed.

#[local] Transparent teamState.

(** Every [oocGame] cell that was not in the input has its mirror
    image in the same week of the team it names. *)
Definition Symmetric (ts : list Team.t) (st : list TeamState.t) : Prop :=
  ∀ i t s w c o aw,
    ts !! i = Some t → st !! i = Some s →
    Team.weeks t !! w = Some c → Slot.isOocGame c = false →
    Team.weeks (TeamState.ref s) !! w = Some (Slot.oocGame o aw) →
    ∃ j tj sj cj,
      j ≠ i ∧ ts !! j = Some tj ∧ st !! j = Some sj
      ∧ Team.name tj = o
      ∧ Team.weeks (TeamState.ref sj) !! w
        = Some (Slot.oocGame (Team.name t) (negb aw))
      ∧ Team.weeks tj !! w = Some cj ∧ Slot.isOocGame cj = false.

Record RunInv (ts : list Team.t) (st : list TeamState.t)
    (log : list Placement) : Prop := {
  run_teams : Forall2 TeamInv ts st;
  run_symmetric : Symmetric ts st
}.

Lemma RunInv_init (ts : list Team.t) : RunInv ts (computeState ts) [].
Proof.
  split.
  - unfold computeState. apply Forall2_fmap_r, Forall_Forall2_diag.
    apply Forall_forall. intros t _. apply TeamInv_init.
  - intros i t s w c o aw Ht Hs Hc Hno Hcur.
    unfold computeState in Hs. rewrite list_lookup_fmap, Ht in Hs.
    injection Hs as <-. simpl in Hcur.
    rewrite Hc in Hcur. injection Hcur as ->. discriminate.
Qed.

Lemma played_weeks w c h k s :
  Team.weeks (TeamState.ref (played w c h k s))
  = <[w := c]> (Team.weeks (TeamState.ref s)).
Proof. done. Qed.

Lemma RunInv_place ts st log a b w :
  RunInv ts st log →
  ValidPlacement st a b w →
  RunInv ts (placeGameAtWeek st a b w) (log ++ [mkPlacement a b w]).
Proof.
  intros [Hteams Hsym] (Hab & [sa Ha] & [sb Hb] & Hwa & Hwb & Hcan).
  apply canScheduleBetween_true in Hcan
    as (_ & _ & _ & _ & Hta & Htb & _ & _).
  rewrite (list_lookup_total_correct _ _ _ Ha) in Hwa, Hta.
  rewrite (list_lookup_total_correct _ _ _ Hb) in Hwb, Htb.
  pose proof (placeGameAtWeek_first st a b w sa sb Hab Ha Hb) as Ha'.
  pose proof (placeGameAtWeek_second st a b w sa sb Hab Ha Hb) as Hb'.
  pose proof (placeGameAtWeek_other st a b w) as Hother.
  pose proof (placeGameAtWeek_length st a b w) as Hlen.
  set (h := homeIsFirst st a b) in *.
  set (st' := placeGameAtWeek st a b w) in *.
  apply Forall2_same_length_lookup in Hteams as [Hlts Hteams].
  destruct (lookup_lt_is_Some_2 ts a) as [ta Hta'];
    [rewrite Hlts; by eapply lookup_lt_Some|].
  destruct (lookup_lt_is_Some_2 ts b) as [tb Htb'];
    [rewrite Hlts; by eapply lookup_lt_Some|].
  pose proof (Hteams a ta sa Hta' Ha) as Hia.
  pose proof (Hteams b tb sb Htb' Hb) as Hib.
  destruct (inv_available _ _ Hia w Hwa) as (ca & Hca & Hoa & Hcura).
  destruct (inv_available _ _ Hib w Hwb) as (cb & Hcb & Hob & Hcurb).
  assert (w < length (Team.weeks (TeamState.ref sa))) as Hlwa
    by by eapply lookup_lt_Some.
  assert (w < length (Team.weeks (TeamState.ref sb))) as Hlwb
    by by eapply lookup_lt_Some.
  split.
  - apply Forall2_same_length_lookup. split; [congruence|].
    intros i t s Ht Hs.
    destruct (decide (i = a)) as [->|Hia'].
    { rewrite Ha' in Hs. injection Hs as <-.
      assert (t = ta) as -> by congruence. by apply TeamInv_played. }
    destruct (decide (i = b)) as [->|Hib'].
    { rewrite Hb' in Hs. injection Hs as <-.
      assert (t = tb) as -> by congruence. by apply TeamInv_played. }
    rewrite Hother in Hs by done. by apply (Hteams i).
  - intros i t s w' c o aw Ht Hs Hc Hno Hcur.
    (* the mirror cell found in [st] is still there in [st'] *)
    assert (∀ j tj sj x, j ≠ i → ts !! j = Some tj → st !! j = Some sj →
              w' ≠ w ∨ (j ≠ a ∧ j ≠ b) →
              Team.weeks (TeamState.ref sj) !! w' = Some x →
              ∃ sj', st' !! j = Some sj'
                     ∧ Team.weeks (TeamState.ref sj') !! w' = Some x) as Hkeep.
    { intros j tj sj x Hji Htj Hsj Hcase Hx.
      destruct (decide (j = a)) as [->|Hja].
      { eexists. split; [exact Ha'|]. rewrite played_weeks.
        assert (sj = sa) as -> by congruence.
        destruct Hcase as [?|[? ?]]; [|done].
        by rewrite list_lookup_insert_ne. }
      destruct (decide (j = b)) as [->|Hjb].
      { eexists. split; [exact Hb'|]. rewrite played_weeks.
        assert (sj = sb) as -> by congruence.
        destruct Hcase as [?|[? ?]]; [|done].
        by rewrite list_lookup_insert_ne. }
      exists sj. by rewrite Hother. }
    (* a cell of [st] that holds a new game is not in an open week *)
    assert (∀ j tj sj x y, ts !! j = Some tj → st !! j = Some sj →
              (j = a ∨ j = b) →
              Team.weeks tj !! w = Some x → Slot.isOocGame x = false →
              Team.weeks (TeamState.ref sj) !! w = Some y →
              Slot.isOocGame y = false) as Hfree.
    { intros j tj sj x y Htj Hsj [-> | ->] Hx Hnx Hy.
      - assert (sj = sa) as -> by congruence. congruence.
      - assert (sj = sb) as -> by congruence. congruence. }
    destruct (decide (i = a)) as [->|Hia'].
    { rewrite Ha' in Hs. injection Hs as <-.
      assert (t = ta) as -> by congruence.
      rewrite played_weeks in Hcur.
      destruct (decide (w' = w)) as [->|Hw'].
      - rewrite list_lookup_insert_eq in Hcur by done.
        injection Hcur as <- <-.
        eexists b, tb, _, cb. split; [done|]. split; [done|].
        split; [exact Hb'|]. split; [by rewrite (inv_name _ _ Hib)|].
        rewrite played_weeks, list_lookup_insert_eq by done.
        rewrite (inv_name _ _ Hia), negb_involutive.
        split; [done|]. split; [done|].
        by destruct (isOpen_not_game cb Hob).
      - rewrite list_lookup_insert_ne in Hcur by done.
        destruct (Hsym a ta sa w' c o aw Hta' Ha Hc Hno Hcur)
          as (j & tj & sj & cj & Hji & Htj & Hsj & Hn & Hm & Hcj & Hnj).
        destruct (Hkeep j tj sj _ Hji Htj Hsj (or_introl Hw') Hm)
          as (sj' & Hsj' & Hm').
        by exists j, tj, sj', cj. }
    destruct (decide (i = b)) as [->|Hib'].
    { rewrite Hb' in Hs. injection Hs as <-.
      assert (t = tb) as -> by congruence.
      rewrite played_weeks in Hcur.
      destruct (decide (w' = w)) as [->|Hw'].
      - rewrite list_lookup_insert_eq in Hcur by done.
        injection Hcur as <- <-.
        eexists a, ta, _, ca. split; [done|]. split; [done|].
        split; [exact Ha'|]. split; [by rewrite (inv_name _ _ Hia)|].
        rewrite played_weeks, list_lookup_insert_eq by done.
        rewrite (inv_name _ _ Hib).
        split; [done|]. split; [done|].
        by destruct (isOpen_not_game ca Hoa).
      - rewrite list_lookup_insert_ne in Hcur by done.
        destruct (Hsym b tb sb w' c o aw Htb' Hb Hc Hno Hcur)
          as (j & tj & sj & cj & Hji & Htj & Hsj & Hn & Hm & Hcj & Hnj).
        destruct (Hkeep j tj sj _ Hji Htj Hsj (or_introl Hw') Hm)
          as (sj' & Hsj' & Hm').
        by exists j, tj, sj', cj. }
    rewrite Hother in Hs by done.
    destruct (Hsym i t s w' c o aw Ht Hs Hc Hno Hcur)
      as (j & tj & sj & cj & Hji & Htj & Hsj & Hn & Hm & Hcj & Hnj).
    assert (w' ≠ w ∨ (j ≠ a ∧ j ≠ b)) as Hcase.
    { destruct (decide (w' = w)) as [->|]; [right|by left].
      split; intros ->.
      - by specialize (Hfree a tj sj cj _ Htj Hsj (or_introl eq_refl) Hcj Hnj Hm).
      - by specialize (Hfree b tj sj cj _ Htj Hsj (or_intror eq_refl) Hcj Hnj Hm). }
    destruct (Hkeep j tj sj _ Hji Htj Hsj Hcase Hm) as (sj' & Hsj' & Hm').
    by exists j, tj, sj', cj.
Qed.

Lemma Reach_inv (ts : list Team.t) st log :
  Reach (computeState ts) st log → RunInv ts st log.
Proof.
  induction 1 as [|st log a b w _ IH Hvalid].
  - apply RunInv_init.
  - by apply RunInv_place.
Qed.
End Invariants.

(** ** Replaying a history *)

Section Replaying.
Context `{host : Host}.

(** The store after the placements of [log], made in order. *)
Definition replay (init : list TeamState.t) (log : list Placement)
  : list TeamState.t :=
  foldl (λ st p, placeGameAtWeek st (teamA p) (teamB p) (atWeek p)) init log.

Lemma replay_snoc init log p :
  replay init (log ++ [p])
  = placeGameAtWeek (replay init log) (teamA p) (teamB p) (atWeek p).
Proof. unfold replay. by rewrite foldl_app. Qed.

Lemma Reach_replay init st log : Reach init st log → st = replay init log.
Proof.
  induction 1 as [|st log a b w _ IH _]; [done|].
  by rewrite replay_snoc, <- IH.
Qed.

(** Every placement of a history was made under [ValidPlacement], in
    the store the placements before it had produced. *)
Lemma Reach_split init st log pre e post :
  Reach init st log → log = pre ++ e :: post →
  Reach init (replay init pre) pre
  ∧ ValidPlacement (replay init pre) (teamA e) (teamB e) (atWeek e).
Proof.
  intros Hreach. revert post.
  induction Hreach as [|st log a b w Hreach IH Hvalid]; intros post Hlog.
  { by destruct pre. }
  destruct post as [|y post _] using rev_ind.
  - apply app_inj_tail in Hlog as [-> <-]. simpl.
    by rewrite <- (Reach_replay _ _ _ Hreach).
  - rewrite app_comm_cons, app_assoc in Hlog.
    apply app_inj_tail in Hlog as [-> _]. by apply (IH post).
Qed.
End Replaying.

(** ** Demands that are whole numbers *)

(** Number of [lockedOOC] cells of a week array. *)
Definition countLocked (ws : list Slot.t) : nat :=
  length (filter (λ c, match c with Slot.lockedOOC _ _ => true | _ => false end = true) ws).

(** What a team asks for and what a state still needs, as integers. *)
Definition demandZ (t : Team.t) : Z := Num.toZ (Team.oocNeeded t).

Definition remainingZ (s : TeamState.t) : Z := Num.toZ (TeamState.oocRemaining s).

(** The greatest length of a JavaScript array, [2^32 - 1]. *)
Definition maxArrayLength : Z := 4294967295.

(** The inputs on which the scheduler's arithmetic is that of the
    integers: every team asks for a whole number of games, from 0 up;
    the numbers add up to less than [2^53]; and no week array is longer
    than a JavaScript array can be. *)
Definition wholeDemand (ts : list Team.t) : Prop :=
  Forall (λ t, Num.isCount (Team.oocNeeded t) = true
               ∧ (Z.of_nat (length (Team.weeks t)) <= maxArrayLength)%Z) ts
  ∧ (sumZ (map demandZ ts) < Num.limit)%Z.

Lemma isCount_range (x : Num.t) :
  Num.isCount x = true → (0 <= Num.toZ x < Num.limit)%Z ∧ x = Num.ofZ (Num.toZ x).
Proof.
  unfold Num.isCount. rewrite !andb_true_iff, bool_decide_eq_true.
  rewrite Z.leb_le, Z.ltb_lt. tauto.
Qed.

Lemma isCount_ofZ (n : Z) :
  (0 <= n < Num.limit)%Z → Num.isCount (Num.ofZ n) = true.
Proof. intros Hn. apply isCount_spec. by exists n. Qed.

(** [x--] on a count that is not zero. *)
Lemma isCount_pred (x : Num.t) :
  Num.isCount x = true → Num.leb x Num.zero = false →
  Num.isCount (Num.sub x Num.one) = true
  ∧ Num.toZ (Num.sub x Num.one) = (Num.toZ x - 1)%Z.
Proof.
  intros Hx Hpos. apply isCount_spec in Hx as (n & Hn & ->).
  unfold Num.limit in Hn.
  rewrite leb_ofZ_zero in Hpos by (unfold Num.limit; lia).
  apply Z.leb_gt in Hpos. unfold Num.one.
  rewrite sub_ofZ by (unfold Num.limit; lia).
  rewrite !toZ_ofZ by (unfold Num.limit; lia).
  split; [|done]. apply isCount_ofZ. unfold Num.limit. lia.
Qed.

Lemma sumZ_nonneg (l : list Z) : Forall (λ z, (0 <= z)%Z) l → (0 <= sumZ l)%Z.
Proof.
  induction 1 as [|z l Hz _ IH]; [by rewrite sumZ_nil|].
  rewrite sumZ_cons. lia.
Qed.

Section Counting.
Context `{host : Host}.

Lemma tally_locked (ws : list Slot.t) (k : nat) (c : Tally) :
  tLockedOOC (foldl tallySlot c (zip (seq k (length ws)) ws))
  = (tLockedOOC c + Z.of_nat (countLocked ws))%Z.
Proof.
  revert k c. induction ws as [|x ws IH]; intros k c; simpl.
  { unfold countLocked. simpl. lia. }
  rewrite IH. unfold countLocked. rewrite filter_cons.
  destruct x; simpl; lia.
Qed.

Lemma countLocked_le (ws : list Slot.t) : countLocked ws ≤ length ws.
Proof. apply length_filter. Qed.

(** What a team still needs when the pass starts: its [oocNeeded] less
    its [lockedOOC] cells, and never less than nothing. *)
Lemma teamState_oocRemaining (t : Team.t) :
  Num.isCount (Team.oocNeeded t) = true →
  (Z.of_nat (length (Team.weeks t)) <= maxArrayLength)%Z →
  TeamState.oocRemaining (teamState t)
  = Num.ofZ (Z.max 0 (demandZ t - Z.of_nat (countLocked (Team.weeks t)))).
Proof.
  intros Hc Hlen. apply isCount_range in Hc as [Hn Hneeded].
  pose proof (countLocked_le (Team.weeks t)) as Hlocked.
  unfold teamState, tallyWeeks, indexed. simpl.
  rewrite (tally_locked (Team.weeks t) 0 (mkTally 0 0 0 0 ∅ [])). simpl.
  unfold demandZ. rewrite Hneeded at 1. unfold Num.limit, maxArrayLength in *.
  rewrite orElse_ofZ by (unfold Num.limit; lia).
  rewrite sub_ofZ by (unfold Num.limit; lia).
  by rewrite max_zero_ofZ by (unfold Num.limit; lia).
Qed.

Lemma teamState_remainingZ (t : Team.t) :
  Num.isCount (Team.oocNeeded t) = true →
  (Z.of_nat (length (Team.weeks t)) <= maxArrayLength)%Z →
  Num.isCount (TeamState.oocRemaining (teamState t)) = true
  ∧ remainingZ (teamState t)
    = Z.max 0 (demandZ t - Z.of_nat (countLocked (Team.weeks t))).
Proof.
  intros Hc Hlen. unfold remainingZ. rewrite teamState_oocRemaining by done.
  apply isCount_range in Hc as [Hn _]. fold (demandZ t) in Hn.
  unfold Num.limit in *.
  rewrite toZ_ofZ by (unfold Num.limit; lia).
  split; [|done]. apply isCount_ofZ. unfold Num.limit. lia.
Qed.

(** What relates the whole number a state still needs to the cells of
    its team. *)
Record Counted (t : Team.t) (s : TeamState.t) : Prop := {
  cnt_count : Num.isCount (TeamState.oocRemaining s) = true;
  cnt_new : Z.of_nat (countNew (Team.weeks t) (Team.weeks (TeamState.ref s)))
            = (remainingZ (teamState t) - remainingZ s)%Z
}.

Lemma Counted_init (t : Team.t) :
  Num.isCount (Team.oocNeeded t) = true →
  (Z.of_nat (length (Team.weeks t)) <= maxArrayLength)%Z →
  Counted t (teamState t).
Proof.
  intros Hc Hlen. split.
  - by apply teamState_remainingZ.
  - change (TeamState.ref (teamState t)) with t. rewrite countNew_same. lia.
Qed.

#[local] Opaque teamState.

Lemma Counted_played (t : Team.t) (s : TeamState.t) (w : nat)
    (o : string) (aw isHome : bool) (k : string) :
  TeamInv t s → Counted t s →
  w ∈ TeamState.availableWeeks s →
  Num.leb (TeamState.oocRemaining s) Num.zero = false →
  Counted t (played w (Slot.oocGame o aw) isHome k s)
  ∧ remainingZ (played w (Slot.oocGame o aw) isHome k s) = (remainingZ s - 1)%Z.
Proof.
  intros Hinv [Hcount Hnew] Hw Hpos.
  destruct (inv_available _ _ Hinv w Hw) as (c & Hc & Hopen & Hcur).
  destruct (isOpen_not_game c Hopen) as [_ Hno].
  destruct (isCount_pred _ Hcount Hpos) as [Hcount' Hpred].
  split; [split|]; unfold remainingZ in *; simpl; try done.
  rewrite (countNew_insert _ _ _ c), Hpred by done. lia.
Qed.

#[local] Transparent teamState.

(** The arithmetic of a run on whole-number demands. *)
Record RunCounted (ts : list Team.t) (st : list TeamState.t)
    (log : list Placement) : Prop := {
  run_counted : Forall2 Counted ts st;
  run_remaining :
    (sumZ (map remainingZ (computeState ts)) - sumZ (map remainingZ st)
     = 2 * Z.of_nat (length log))%Z
}.

Lemma RunCounted_init (ts : list Team.t) :
  wholeDemand ts → RunCounted ts (computeState ts) [].
Proof.
  intros [Hall _]. split.
  - unfold computeState. apply Forall2_fmap_r, Forall_Forall2_diag.
    eapply Forall_impl; [exact Hall|]. intros t [? ?]. by apply Counted_init.
  - simpl. lia.
Qed.

Lemma RunCounted_place ts st log a b w :
  RunInv ts st log → RunCounted ts st log →
  ValidPlacement st a b w →
  RunCounted ts (placeGameAtWeek st a b w) (log ++ [mkPlacement a b w]).
Proof.
  intros [Hteams _] [Hcounted Hsum] (Hab & [sa Ha] & [sb Hb] & Hwa & Hwb & Hcan).
  apply canScheduleBetween_true in Hcan
    as (_ & _ & Hra & Hrb & _ & _ & _ & _).
  rewrite (list_lookup_total_correct _ _ _ Ha) in Hwa, Hra.
  rewrite (list_lookup_total_correct _ _ _ Hb) in Hwb, Hrb.
  pose proof (placeGameAtWeek_first st a b w sa sb Hab Ha Hb) as Ha'.
  pose proof (placeGameAtWeek_second st a b w sa sb Hab Ha Hb) as Hb'.
  pose proof (placeGameAtWeek_other st a b w) as Hother.
  pose proof (placeGameAtWeek_length st a b w) as Hlen.
  set (h := homeIsFirst st a b) in *.
  set (st' := placeGameAtWeek st a b w) in *.
  apply Forall2_same_length_lookup in Hteams as [Hlts Hteams].
  apply Forall2_same_length_lookup in Hcounted as [_ Hcounted].
  destruct (lookup_lt_is_Some_2 ts a) as [ta Hta'];
    [rewrite Hlts; by eapply lookup_lt_Some|].
  destruct (lookup_lt_is_Some_2 ts b) as [tb Htb'];
    [rewrite Hlts; by eapply lookup_lt_Some|].
  destruct (Counted_played ta sa w (TeamState.name sb) (negb h) h
              (TeamState.key sb) (Hteams a ta sa Hta' Ha)
              (Hcounted a ta sa Hta' Ha) Hwa Hra) as [Hca Hza].
  destruct (Counted_played tb sb w (TeamState.name sa) h (negb h)
              (TeamState.key sa) (Hteams b tb sb Htb' Hb)
              (Hcounted b tb sb Htb' Hb) Hwb Hrb) as [Hcb Hzb].
  split.
  - apply Forall2_same_length_lookup. split; [congruence|].
    intros i t s Ht Hs.
    destruct (decide (i = a)) as [->|Hia'].
    { rewrite Ha' in Hs. injection Hs as <-. by assert (t = ta) as -> by congruence. }
    destruct (decide (i = b)) as [->|Hib'].
    { rewrite Hb' in Hs. injection Hs as <-. by assert (t = tb) as -> by congruence. }
    rewrite Hother in Hs by done. by apply (Hcounted i).
  - rewrite length_app. simpl.
    rewrite (store_two_changes st st' a b _ _ Hlen Ha' Hb')
      by (intros; by apply Hother).
    rewrite (sumZ_insert _ _ a sa)
      by (by rewrite list_lookup_insert_ne).
    rewrite (sumZ_insert _ _ b sb) by done.
    lia.
Qed.

Lemma Reach_counted (ts : list Team.t) st log :
  wholeDemand ts → Reach (computeState ts) st log → RunCounted ts st log.
Proof.
  intros Hwhole. induction 1 as [|st log a b w Hreach IH Hvalid].
  - by apply RunCounted_init.
  - apply RunCounted_place; [by apply Reach_inv|done|done].
Qed.

(** The sum that [reduce] computes is the sum of the integers. *)
Lemma foldl_add_counts (l : list TeamState.t) (acc : Z) :
  Forall (λ s, Num.isCount (TeamState.oocRemaining s) = true) l →
  (0 <= acc)%Z → (acc + sumZ (map remainingZ l) < Num.limit)%Z →
  foldl (λ s t, Num.add s (TeamState.oocRemaining t)) (Num.ofZ acc) l
  = Num.ofZ (acc + sumZ (map remainingZ l)).
Proof.
  intros Hall. revert acc.
  induction Hall as [|s l Hs Hl IH]; intros acc Hacc Hsum;
    cbn [map foldl] in Hsum |- *.
  { rewrite sumZ_nil. f_equal. lia. }
  rewrite sumZ_cons in Hsum |- *.
  assert (0 <= sumZ (map remainingZ l))%Z as Hrest.
  { apply sumZ_nonneg, Forall_fmap. eapply Forall_impl; [exact Hl|].
    intros s' Hs'. by apply isCount_range in Hs' as [[? _] _]. }
  apply isCount_range in Hs as [Hn Hx]. fold (remainingZ s) in Hn, Hx.
  rewrite Hx at 1. unfold Num.limit in *.
  rewrite add_ofZ by (unfold Num.limit; lia).
  rewrite IH by lia. f_equal. lia.
Qed.

Lemma remainingSum_exact (st : list TeamState.t) :
  Forall (λ s, Num.isCount (TeamState.oocRemaining s) = true) st →
  (sumZ (map remainingZ st) < Num.limit)%Z →
  remainingSum st = Num.ofZ (sumZ (map remainingZ st)).
Proof.
  intros Hall Hsum. unfold remainingSum.
  change Num.zero with (Num.ofZ 0).
  by rewrite foldl_add_counts by (done || lia).
Qed.

(** What the states need at the start is no more than what the teams
    ask for. *)
Lemma needed_le_demand (ts : list Team.t) :
  Forall (λ t, Num.isCount (Team.oocNeeded t) = true
               ∧ (Z.of_nat (length (Team.weeks t)) <= maxArrayLength)%Z) ts →
  (0 <= sumZ (map remainingZ (computeState ts)) <= sumZ (map demandZ ts))%Z.
Proof.
  unfold computeState.
  induction 1 as [|t ts [Hc Hlen] _ IH]; cbn [map]; [by rewrite sumZ_nil|].
  rewrite !sumZ_cons.
  destruct (teamState_remainingZ t Hc Hlen) as [_ ->].
  apply isCount_range in Hc as [? _]. fold (demandZ t) in *. lia.
Qed.

Lemma counted_counts (ts : list Team.t) (st : list TeamState.t) :
  Forall2 Counted ts st →
  Forall (λ s, Num.isCount (TeamState.oocRemaining s) = true) st.
Proof.
  intros Hall. eapply Forall2_Forall_r; [exact Hall|].
  apply Forall_forall. intros t _ s Hc. apply Hc.
Qed.
End Counting.

(** ** Bye distribution *)

(** The positions, counted from [k], of the cells that satisfy [P]. *)
Fixpoint positionsFrom (P : Slot.t → bool) (k : nat) (ws : list Slot.t)
  : list nat :=
  match ws with
  | [] => []
  | c :: ws' => (if P c then [k] else []) ++ positionsFrom P (S k) ws'
  end.

Definition countByes (ws : list Slot.t) : nat :=
  length (filter (λ c, Slot.isBye c = true) ws).

Lemma elem_of_positionsFrom P k ws i :
  i ∈ positionsFrom P k ws ↔ ∃ j c, i = k + j ∧ ws !! j = Some c ∧ P c = true.
Proof.
  revert k. induction ws as [|c ws IH]; intros k; simpl.
  { rewrite elem_of_nil. split; [done|]. by intros (j & c & _ & Hj & _). }
  rewrite elem_of_app, IH. split.
  - intros [Hi | (j & c' & -> & Hj & HP)].
    + destruct (P c) eqn:HP; [|by apply elem_of_nil in Hi].
      apply list_elem_of_singleton in Hi as ->.
      exists 0, c. split; [lia|done].
    + exists (S j), c'. split; [lia|done].
  - intros ([|j] & c' & -> & Hj & HP); simpl in Hj.
    + injection Hj as ->. left. rewrite HP.
      apply list_elem_of_singleton. lia.
    + right. exists j, c'. split; [lia|done].
Qed.

Lemma NoDup_positionsFrom P k ws : NoDup (positionsFrom P k ws).
Proof.
  revert k. induction ws as [|c ws IH]; intros k; simpl; [constructor|].
  destruct (P c); simpl; [|apply IH].
  constructor; [|apply IH].
  rewrite elem_of_positionsFrom. intros (j & _ & ? & _). lia.
Qed.

Lemma length_positionsFrom P k ws :
  length (positionsFrom P k ws) = length (filter (λ c, P c = true) ws).
Proof.
  revert k. induction ws as [|c ws IH]; intros k; simpl; [done|].
  rewrite filter_cons, length_app, IH.
  destruct (P c); by simpl.
Qed.

Lemma filter_length_insert (P : Slot.t → bool) (ws : list Slot.t)
    (i : nat) (c o : Slot.t) :
  ws !! i = Some c → P c = false → P o = true →
  length (filter (λ x, P x = true) (<[i := o]> ws))
  = S (length (filter (λ x, P x = true) ws)).
Proof.
  revert i. induction ws as [|x ws IH]; intros [|i]; simpl; try discriminate.
  - intros [= ->] Hc Ho. rewrite !filter_cons, Hc, Ho. by simpl.
  - intros Hi Hc Ho. rewrite !filter_cons.
    destruct (decide _); simpl; by rewrite (IH i).
Qed.

Section Byes.
Context `{host : Host}.

(** The loop of [assignByes] that builds a view, started at week [k]
    with the view [v]. *)
Lemma view_from (ws : list Slot.t) (k : nat) (v : ByeView) :
  foldl viewSlot v (zip (seq k (length ws)) ws)
  = mkByeView (vTeam v)
      (vByes v ++ positionsFrom Slot.isBye k ws)
      (vEmptiesNon0 v ++ filter (λ i, i ≠ 0) (positionsFrom Slot.isEmpty k ws))
      (vEmpties0 v ++ filter (λ i, i = 0) (positionsFrom Slot.isEmpty k ws)).
Proof.
  revert k v. induction ws as [|c ws IH]; intros k v; simpl.
  { rewrite !filter_nil, !app_nil_r. by destruct v. }
  rewrite IH. unfold viewSlot. simpl.
  destruct c; simpl; try done.
  - by rewrite <- app_assoc.
  - rewrite !filter_cons. case_bool_decide; simpl.
    + subst k. simpl. by rewrite <- app_assoc.
    + rewrite decide_True, decide_False by done. by rewrite <- app_assoc.
Qed.

Lemma viewOf_eq (t : Team.t) :
  viewOf t
  = mkByeView t (positionsFrom Slot.isBye 0 (Team.weeks t))
      (filter (λ i, i ≠ 0) (positionsFrom Slot.isEmpty 0 (Team.weeks t)))
      (filter (λ i, i = 0) (positionsFrom Slot.isEmpty 0 (Team.weeks t))).
Proof. unfold viewOf, indexed. by rewrite view_from. Qed.

(** What a view knows about its team: how many byes it has, and
    where its empty cells are. *)
Record ViewInv (v : ByeView) : Prop := {
  view_byes : length (vByes v) = countByes (Team.weeks (vTeam v));
  view_nodup : NoDup (vEmptiesNon0 v ++ vEmpties0 v);
  view_empties : ∀ i, i ∈ vEmptiesNon0 v ++ vEmpties0 v ↔
                      Team.weeks (vTeam v) !! i = Some Slot.empty
}.

Lemma isEmpty_true (c : Slot.t) : Slot.isEmpty c = true ↔ c = Slot.empty.
Proof. by destruct c. Qed.

Lemma ViewInv_viewOf (t : Team.t) : ViewInv (viewOf t).
Proof.
  rewrite viewOf_eq. split; simpl.
  - unfold countByes. apply length_positionsFrom.
  - apply NoDup_app. split; [|split].
    + apply NoDup_filter, NoDup_positionsFrom.
    + intros i. rewrite !list_elem_of_filter. tauto.
    + apply NoDup_filter, NoDup_positionsFrom.
  - intros i. rewrite elem_of_app, !list_elem_of_filter, elem_of_positionsFrom.
    split.
    + intros [[_ (j & c & -> & Hj & Hc)] | [_ (j & c & -> & Hj & Hc)]];
        apply isEmpty_true in Hc as ->; by rewrite Nat.add_0_l.
    + intros Hi.
      assert (∃ j c, i = 0 + j ∧ Team.weeks t !! j = Some c
                     ∧ Slot.isEmpty c = true) by (by exists i, Slot.empty).
      destruct (decide (i = 0)); tauto.
Qed.

(** One team's cells before and after some byes were given: nothing
    but the week array changes, and a cell that changes was [empty]
    and is [bye]. *)
Record OnlyByesAdded (t t' : Team.t) : Prop := {
  byes_name : Team.name t' = Team.name t;
  byes_conference : Team.conference t' = Team.conference t;
  byes_needed : Team.oocNeeded t' = Team.oocNeeded t;
  byes_length : length (Team.weeks t') = length (Team.weeks t);
  byes_cell : ∀ i c, Team.weeks t !! i = Some c →
    Team.weeks t' !! i = Some c
    ∨ (c = Slot.empty ∧ Team.weeks t' !! i = Some Slot.bye);
  byes_count_lo : countByes (Team.weeks t) ≤ countByes (Team.weeks t');
  byes_count_hi : countByes (Team.weeks t')
                  ≤ Nat.max maxByesPerTeam (countByes (Team.weeks t))
}.

Lemma OnlyByesAdded_refl (t : Team.t) : OnlyByesAdded t t.
Proof. split; try done; [by left | lia]. Qed.

Lemma OnlyByesAdded_trans (t1 t2 t3 : Team.t) :
  OnlyByesAdded t1 t2 → OnlyByesAdded t2 t3 → OnlyByesAdded t1 t3.
Proof.
  intros [] []. split; try congruence; try lia.
  intros i c Hc. destruct (byes_cell0 i c Hc) as [H2 | [-> H2]].
  - apply byes_cell1 in H2. tauto.
  - right. split; [done|]. by destruct (byes_cell1 i _ H2) as [?|[? _]].
Qed.

(** Giving the bye at [idx], an empty cell of a team with fewer than
    three byes. *)
Lemma giveBye_at (t : Team.t) (idx : nat) :
  Team.weeks t !! idx = Some Slot.empty →
  countByes (Team.weeks t) < maxByesPerTeam →
  OnlyByesAdded t (Team.setWeek idx Slot.bye t)
  ∧ countByes (Team.weeks (Team.setWeek idx Slot.bye t))
    = S (countByes (Team.weeks t))
  ∧ ∀ i, Team.weeks (Team.setWeek idx Slot.bye t) !! i = Some Slot.empty
         ↔ i ≠ idx ∧ Team.weeks t !! i = Some Slot.empty.
Proof.
  intros Hidx Hlt. simpl.
  assert (idx < length (Team.weeks t)) by by eapply lookup_lt_Some.
  assert (countByes (<[idx := Slot.bye]> (Team.weeks t))
          = S (countByes (Team.weeks t))) as Hcount.
  { unfold countByes. by apply (filter_length_insert _ _ _ Slot.empty). }
  split; [|split; [done|]].
  - split; simpl; try done.
    + by rewrite length_insert.
    + intros i c Hc. destruct (decide (i = idx)) as [->|].
      * right. rewrite list_lookup_insert_eq by done. split; congruence.
      * left. by rewrite list_lookup_insert_ne.
    + lia.
    + unfold maxByesPerTeam in *. lia.
  - intros i. destruct (decide (i = idx)) as [->|].
    + rewrite list_lookup_insert_eq by done. split; [done|tauto].
    + rewrite list_lookup_insert_ne by done. tauto.
Qed.

(** The two ways a round leaves a view as it is. *)
Lemma giveBye_enough avoidWeek0 r v :
  r ≤ length (vByes v) ∨ maxByesPerTeam ≤ length (vByes v) →
  giveBye avoidWeek0 r v = v.
Proof.
  intros Hr. unfold giveBye.
  destruct (_ || _) eqn:E; [done|].
  apply orb_false_iff in E as [E1 E2].
  apply Nat.leb_gt in E1, E2. lia.
Qed.

Lemma giveBye_nothing avoidWeek0 r v :
  vEmptiesNon0 v = [] → vEmpties0 v = [] → giveBye avoidWeek0 r v = v.
Proof.
  intros H1 H2. unfold giveBye. rewrite H1, H2. simpl.
  rewrite andb_false_r. simpl. by destruct (_ || _).
Qed.

(** What a round does otherwise: the first empty cell becomes a bye,
    a week other than week 0 if there is one. *)
Lemma giveBye_some avoidWeek0 r v idx rest :
  length (vByes v) < r → length (vByes v) < maxByesPerTeam →
  (vEmptiesNon0 v = idx :: rest
   ∨ (vEmptiesNon0 v = [] ∧ vEmpties0 v = idx :: rest)) →
  giveBye avoidWeek0 r v
  = mkByeView (Team.setWeek idx Slot.bye (vTeam v)) (vByes v ++ [idx])
      (if vEmptiesNon0 v is [] then [] else rest)
      (if vEmptiesNon0 v is [] then rest else vEmpties0 v).
Proof.
  intros Hr Hmax Hcase. unfold giveBye.
  destruct (_ || _) eqn:E.
  { apply orb_true_iff in E as [E|E]; apply Nat.leb_le in E; lia. }
  destruct Hcase as [Hn | [Hn H0]]; rewrite Hn.
  - unfold shiftNon0. rewrite Hn. destruct avoidWeek0; simpl.
    all: rewrite (proj2 (Z.leb_le 0 (Z.of_nat idx))) by lia.
    all: by rewrite Nat2Z.id.
  - unfold shift0. rewrite H0. simpl. rewrite andb_false_r. simpl.
    rewrite (proj2 (Z.leb_le 0 (Z.of_nat idx))) by lia.
    by rewrite Nat2Z.id, Hn.
Qed.

Lemma giveBye_inv avoidWeek0 r v :
  ViewInv v →
  ViewInv (giveBye avoidWeek0 r v)
  ∧ OnlyByesAdded (vTeam v) (vTeam (giveBye avoidWeek0 r v)).
Proof.
  intros Hv.
  destruct (decide (r ≤ length (vByes v) ∨ maxByesPerTeam ≤ length (vByes v)))
    as [Hr|Hr].
  { rewrite giveBye_enough by done. split; [done|apply OnlyByesAdded_refl]. }
  assert (length (vByes v) < r ∧ length (vByes v) < maxByesPerTeam)
    as [Hlr Hlm] by lia.
  destruct (vEmptiesNon0 v) as [|idx rest] eqn:Hn.
  - destruct (vEmpties0 v) as [|idx rest] eqn:H0.
    { rewrite giveBye_nothing by done.
      split; [done|apply OnlyByesAdded_refl]. }
    rewrite (giveBye_some _ _ _ idx rest) by (rewrite ?Hn; auto).
    rewrite Hn. destruct Hv as [Hb Hnd Hem]. rewrite Hn, H0 in Hnd, Hem.
    simpl in Hnd, Hem.
    assert (Team.weeks (vTeam v) !! idx = Some Slot.empty) as Hidx
      by (apply Hem; left).
    destruct (giveBye_at (vTeam v) idx Hidx) as (Hadd & Hcount & Hcells);
      [lia|].
    split; [|done]. split; cbn [vTeam vByes vEmptiesNon0 vEmpties0].
    + rewrite length_app, Hcount. simpl. lia.
    + simpl. by apply NoDup_cons in Hnd as [_ ?].
    + intros i. rewrite Hcells, <- Hem. simpl.
      apply NoDup_cons in Hnd as [Hni _]. rewrite elem_of_cons.
      split; [intros ?; split; [by intros ->|tauto] | tauto].
  - rewrite (giveBye_some _ _ _ idx rest) by (rewrite ?Hn; auto).
    rewrite Hn. destruct Hv as [Hb Hnd Hem]. rewrite Hn in Hnd, Hem.
    simpl in Hnd, Hem.
    assert (Team.weeks (vTeam v) !! idx = Some Slot.empty) as Hidx
      by (apply Hem; left).
    destruct (giveBye_at (vTeam v) idx Hidx) as (Hadd & Hcount & Hcells);
      [lia|].
    split; [|done]. split; cbn [vTeam vByes vEmptiesNon0 vEmpties0].
    + rewrite length_app, Hcount. simpl. lia.
    + by apply NoDup_cons in Hnd as [_ ?].
    + intros i. rewrite Hcells, <- Hem.
      apply NoDup_cons in Hnd as [Hni _]. rewrite elem_of_cons.
      split; [intros ?; split; [by intros ->|tauto] | tauto].
Qed.

(** The rounds of [assignByes] as one team sees them. *)
Definition byeRounds (avoidWeek0 : bool) (v : ByeView) (rs : list nat)
  : ByeView :=
  foldl (λ v r, giveBye avoidWeek0 r v) v rs.

Definition byeTeam (avoidWeek0 : bool) (t : Team.t) : Team.t :=
  vTeam (byeRounds avoidWeek0 (viewOf t) (seq 1 maxByesPerTeam)).

Lemma foldl_byeRound avoidWeek0 (views : list ByeView) (rs : list nat) :
  foldl (byeRound avoidWeek0) views rs
  = map (λ v, byeRounds avoidWeek0 v rs) views.
Proof.
  revert views. induction rs as [|r rs IH]; intros views; simpl.
  { by rewrite map_id. }
  rewrite IH. unfold byeRound. by rewrite map_map.
Qed.

Lemma assignByes_map (l : list Team.t) (avoidWeek0 : bool) :
  assignByes l avoidWeek0 = map (byeTeam avoidWeek0) l.
Proof.
  unfold assignByes. cbv zeta. rewrite foldl_byeRound.
  rewrite map_map. rewrite map_map. unfold byeTeam. reflexivity.
Qed.

Lemma byeRounds_inv avoidWeek0 v rs :
  ViewInv v →
  ViewInv (byeRounds avoidWeek0 v rs)
  ∧ OnlyByesAdded (vTeam v) (vTeam (byeRounds avoidWeek0 v rs)).
Proof.
  revert v. induction rs as [|r rs IH]; intros v Hv; simpl.
  { split; [done|apply OnlyByesAdded_refl]. }
  destruct (giveBye_inv avoidWeek0 r v Hv) as [Hv' Hadd].
  destruct (IH _ Hv') as [Hv'' Hadd'].
  split; [done|]. by eapply OnlyByesAdded_trans.
Qed.

(** After round [r] a team has [r] byes or no empty cell left. *)
Definition Settled (r : nat) (v : ByeView) : Prop :=
  r ≤ length (vByes v) ∨ (vEmptiesNon0 v = [] ∧ vEmpties0 v = []).

Lemma giveBye_settled avoidWeek0 r v :
  S r ≤ maxByesPerTeam → Settled r v →
  Settled (S r) (giveBye avoidWeek0 (S r) v).
Proof.
  intros Hr Hs.
  destruct (decide (S r ≤ length (vByes v)
                    ∨ maxByesPerTeam ≤ length (vByes v))) as [Hd|Hd].
  { rewrite giveBye_enough by done. left. lia. }
  destruct (vEmptiesNon0 v) as [|idx rest] eqn:Hn.
  - destruct (vEmpties0 v) as [|idx rest] eqn:H0.
    { rewrite giveBye_nothing by done. right. by rewrite Hn, H0. }
    rewrite (giveBye_some _ _ _ idx rest) by (rewrite ?Hn; auto; lia).
    left. simpl. rewrite length_app. simpl.
    destruct Hs as [?|[_ ?]]; [lia|congruence].
  - rewrite (giveBye_some _ _ _ idx rest) by (rewrite ?Hn; auto; lia).
    left. simpl. rewrite length_app. simpl.
    destruct Hs as [?|[? _]]; [lia|congruence].
Qed.

Lemma byeRounds_settled avoidWeek0 v :
  Settled maxByesPerTeam (byeRounds avoidWeek0 v (seq 1 maxByesPerTeam)).
Proof.
  unfold byeRounds, maxByesPerTeam. simpl.
  repeat apply giveBye_settled; unfold maxByesPerTeam; try lia.
  left. lia.
Qed.

Lemma byeRounds_fixed avoidWeek0 v rs :
  (∀ r, giveBye avoidWeek0 r v = v) → byeRounds avoidWeek0 v rs = v.
Proof.
  intros Hfix. unfold byeRounds.
  induction rs as [|r rs IH]; simpl; [done|]. by rewrite Hfix.
Qed.

Lemma byeTeam_inv avoidWeek0 (t : Team.t) :
  OnlyByesAdded t (byeTeam avoidWeek0 t).
Proof.
  unfold byeTeam.
  destruct (byeRounds_inv avoidWeek0 (viewOf t) (seq 1 maxByesPerTeam)
              (ViewInv_viewOf t)) as [_ Hadd].
  by rewrite viewOf_eq in Hadd |- *.
Qed.

Lemma vTeam_viewOf (t : Team.t) : vTeam (viewOf t) = t.
Proof. by rewrite viewOf_eq. Qed.

Lemma byeTeam_idempotent avoidWeek0 (t : Team.t) :
  byeTeam avoidWeek0 (byeTeam avoidWeek0 t) = byeTeam avoidWeek0 t.
Proof.
  set (vf := byeRounds avoidWeek0 (viewOf t) (seq 1 maxByesPerTeam)).
  assert (byeTeam avoidWeek0 t = vTeam vf) as -> by done.
  destruct (byeRounds_inv avoidWeek0 (viewOf t) (seq 1 maxByesPerTeam)
              (ViewInv_viewOf t)) as [Hvf _]. fold vf in Hvf.
  pose proof (byeRounds_settled avoidWeek0 (viewOf t)) as Hset. fold vf in Hset.
  pose proof (ViewInv_viewOf (vTeam vf)) as Hv2.
  unfold byeTeam.
  rewrite byeRounds_fixed; [apply vTeam_viewOf|].
  intros r. destruct Hset as [Hlen | [Hn H0]].
  - apply giveBye_enough. right.
    by rewrite (view_byes _ Hv2), vTeam_viewOf, <- (view_byes _ Hvf).
  - assert (vEmptiesNon0 (viewOf (vTeam vf)) ++ vEmpties0 (viewOf (vTeam vf))
            = []) as Hnil.
    { apply elem_of_nil_inv. intros i Hi.
      apply (view_empties _ Hv2) in Hi. rewrite vTeam_viewOf in Hi.
      apply (view_empties _ Hvf) in Hi. rewrite Hn, H0 in Hi.
      by apply elem_of_nil in Hi. }
    apply app_eq_nil in Hnil as [? ?]. by apply giveBye_nothing.
Qed.
End Byes.

(** ** Runs of [tryGenerateSchedule] *)

Section Runs.
Context `{host : Host}.

Lemma computeTeamState_state (ts : list Team.t) :
  (computeTeamState (deepCloneTeams ts)).2 = computeState ts.
Proof. by rewrite deepCloneTeams_id. Qed.

Lemma run_reach (ts : list Team.t) (avoidWeek0 : bool) :
  Reach (computeState ts) (finalState ts avoidWeek0)
        (placementsOf ts avoidWeek0).
Proof.
  unfold finalState, placementsOf. rewrite computeTeamState_state.
  apply runMatcher_reach.
Qed.

Lemma run_inv (ts : list Team.t) (avoidWeek0 : bool) :
  RunInv ts (finalState ts avoidWeek0) (placementsOf ts avoidWeek0).
Proof. apply Reach_inv, run_reach. Qed.

(** The demand before the pass and what is left of it afterwards, as
    [reduce] adds them up. *)
Definition neededBefore (ts : list Team.t) : Num.t :=
  remainingSum (computeState ts).

Definition remainingAfter (ts : list Team.t) (avoidWeek0 : bool) : Num.t :=
  remainingSum (finalState ts avoidWeek0).

(** [scheduled], the difference of the two. *)
Definition scheduledBy (ts : list Team.t) (avoidWeek0 : bool) : Num.t :=
  Num.sub (neededBefore ts) (remainingAfter ts avoidWeek0).

Definition failure : Result.t :=
  Result.mk false (Some noPairings) None None None None.

Definition success (ts : list Team.t) (avoidWeek0 : bool) : Result.t :=
  Result.mk true None
    (Some (map TeamState.ref (finalState ts avoidWeek0)))
    (Some (remainingAfter ts avoidWeek0))
    (Some (scheduledBy ts avoidWeek0))
    (Some (neededBefore ts)).

Lemma tryGenerateSchedule_cases (ts : list Team.t) (avoidWeek0 : bool) :
  tryGenerateSchedule ts avoidWeek0
  = if Num.ltb Num.zero (neededBefore ts)
       && Num.eqb (scheduledBy ts avoidWeek0) Num.zero
    then failure else success ts avoidWeek0.
Proof.
  unfold tryGenerateSchedule, failure, success, scheduledBy, neededBefore,
    remainingAfter, finalState. cbv zeta.
  by rewrite !computeTeamState_state.
Qed.

(** One placement, seen from the stores before and after it: the
    counters of games. *)
Lemma placement_totals (st : list TeamState.t) (a b w : nat) :
  ValidPlacement st a b w →
  let st' := placeGameAtWeek st a b w in
  a ≠ b
  ∧ (TeamState.totalGames (st !!! a) < 12)%Z
  ∧ (TeamState.totalGames (st !!! b) < 12)%Z
  ∧ TeamState.totalGames (st' !!! a) = (TeamState.totalGames (st !!! a) + 1)%Z
  ∧ TeamState.totalGames (st' !!! b) = (TeamState.totalGames (st !!! b) + 1)%Z
  ∧ (∀ i, i ≠ a → i ≠ b → st' !!! i = st !!! i).
Proof.
  intros Hvalid st'.
  destruct Hvalid as (Hab & [sa Ha] & [sb Hb] & _ & _ & Hcan).
  apply canScheduleBetween_true in Hcan
    as (_ & _ & _ & _ & Hta & Htb & _ & _).
  pose proof (placeGameAtWeek_first st a b w sa sb Hab Ha Hb) as Ha'.
  pose proof (placeGameAtWeek_second st a b w sa sb Hab Ha Hb) as Hb'.
  subst st'.
  rewrite (list_lookup_total_correct _ _ _ Ha'),
          (list_lookup_total_correct _ _ _ Hb').
  rewrite (list_lookup_total_correct _ _ _ Ha) in *.
  rewrite (list_lookup_total_correct _ _ _ Hb) in *.
  simpl. repeat split; try done.
  intros i ? ?. by apply placeGameAtWeek_total_other.
Qed.

(** *** Runs on whole-number demands *)

Lemma final_counted (ts : list Team.t) (avoidWeek0 : bool) :
  wholeDemand ts →
  RunCounted ts (finalState ts avoidWeek0) (placementsOf ts avoidWeek0).
Proof. intros Hwhole. apply Reach_counted; [done|apply run_reach]. Qed.

(** The integers that [neededBefore] and [remainingAfter] stand for. *)
Definition neededZ (ts : list Team.t) : Z :=
  sumZ (map remainingZ (computeState ts)).

Definition leftZ (ts : list Team.t) (avoidWeek0 : bool) : Z :=
  sumZ (map remainingZ (finalState ts avoidWeek0)).

Lemma reached_exact (ts : list Team.t) (st : list TeamState.t)
    (log : list Placement) :
  wholeDemand ts → Reach (computeState ts) st log →
  (0 <= sumZ (map remainingZ st))%Z
  ∧ (sumZ (map remainingZ st) = neededZ ts - 2 * Z.of_nat (length log))%Z
  ∧ (neededZ ts < Num.limit)%Z
  ∧ remainingSum st = Num.ofZ (sumZ (map remainingZ st)).
Proof.
  intros Hwhole Hreach.
  destruct (Reach_counted ts st log Hwhole Hreach) as [Hcounted Hsum].
  destruct Hwhole as [Hall Htotal].
  pose proof (needed_le_demand ts Hall) as Hneeded.
  pose proof (counted_counts _ _ Hcounted) as Hcounts.
  assert (0 <= sumZ (map remainingZ st))%Z as Hnn.
  { apply sumZ_nonneg, Forall_fmap. eapply Forall_impl; [exact Hcounts|].
    intros s Hs. by apply isCount_range in Hs as [[? _] _]. }
  unfold neededZ. split; [done|]. split; [lia|]. split; [lia|].
  apply remainingSum_exact; [done|lia].
Qed.

(** On whole-number demands the three numbers of the summary are the
    integers they stand for, and what was scheduled is two for every
    game placed. *)
Lemma summary_exact (ts : list Team.t) (avoidWeek0 : bool) :
  wholeDemand ts →
  neededBefore ts = Num.ofZ (neededZ ts)
  ∧ remainingAfter ts avoidWeek0 = Num.ofZ (leftZ ts avoidWeek0)
  ∧ scheduledBy ts avoidWeek0
    = Num.ofZ (2 * Z.of_nat (length (placementsOf ts avoidWeek0)))
  ∧ (0 <= leftZ ts avoidWeek0 <= neededZ ts)%Z
  ∧ (neededZ ts < Num.limit)%Z
  ∧ (neededZ ts - leftZ ts avoidWeek0
     = 2 * Z.of_nat (length (placementsOf ts avoidWeek0)))%Z.
Proof.
  intros Hwhole.
  destruct (reached_exact ts _ _ Hwhole (Reach_init _))
    as (H0 & _ & Hlim & Hbefore).
  destruct (reached_exact ts _ _ Hwhole (run_reach ts avoidWeek0))
    as (Hnn & Hleft & _ & Hafter).
  fold (neededZ ts) in H0, Hbefore. fold (leftZ ts avoidWeek0) in Hnn, Hleft, Hafter.
  unfold scheduledBy, neededBefore, remainingAfter.
  rewrite Hbefore, Hafter. unfold Num.limit in *.
  rewrite sub_ofZ by (unfold Num.limit; lia).
  split; [done|]. split; [done|]. split; [f_equal; lia|]. lia.
Qed.

Lemma newOocSlots_remaining (ts : list Team.t) (st : list TeamState.t) :
  Forall2 Counted ts st →
  Z.of_nat (newOocSlots ts (map TeamState.ref st))
  = (sumZ (map remainingZ (computeState ts)) - sumZ (map remainingZ st))%Z.
Proof.
  unfold computeState.
  induction 1 as [|t s ts st Hc _ IH]; cbn [newOocSlots map]; [done|].
  rewrite !sumZ_cons, Nat2Z.inj_add, IH, (cnt_new _ _ Hc). lia.
Qed.

(** One placement of such a run: both teams still need a whole number
    of games above zero, each needs one fewer afterwards, and the sum
    that [reduce] computes drops by two. *)
Lemma placement_counts (ts : list Team.t) (st : list TeamState.t)
    (log : list Placement) (a b w : nat) :
  wholeDemand ts →
  Reach (computeState ts) st log → ValidPlacement st a b w →
  let st' := placeGameAtWeek st a b w in
  ∃ ra rb total : Z,
    (0 < ra)%Z ∧ (0 < rb)%Z ∧ (2 <= total < Num.limit)%Z
    ∧ TeamState.oocRemaining (st !!! a) = Num.ofZ ra
    ∧ TeamState.oocRemaining (st !!! b) = Num.ofZ rb
    ∧ TeamState.oocRemaining (st' !!! a) = Num.ofZ (ra - 1)
    ∧ TeamState.oocRemaining (st' !!! b) = Num.ofZ (rb - 1)
    ∧ remainingSum st = Num.ofZ total
    ∧ remainingSum st' = Num.ofZ (total - 2).
Proof.
  intros Hwhole Hreach Hvalid st'.
  pose proof (Reach_place _ _ _ _ _ _ Hreach Hvalid) as Hreach'.
  destruct (reached_exact ts _ _ Hwhole Hreach) as (_ & Hsum & Hlim & Hexact).
  destruct (reached_exact ts _ _ Hwhole Hreach') as (Hnn' & Hsum' & _ & Hexact').
  rewrite length_app in Hsum'. simpl in Hsum'.
  destruct (Reach_counted ts st log Hwhole Hreach) as [Hcounted _].
  pose proof (Reach_inv _ _ _ Hreach) as [Hteams _].
  destruct Hvalid as (Hab & [sa Ha] & [sb Hb] & Hwa & Hwb & Hcan).
  apply canScheduleBetween_true in Hcan
    as (_ & _ & Hra & Hrb & _ & _ & _ & _).
  pose proof (placeGameAtWeek_first st a b w sa sb Hab Ha Hb) as Ha'.
  pose proof (placeGameAtWeek_second st a b w sa sb Hab Ha Hb) as Hb'.
  subst st'. fold (placeGameAtWeek st a b w) in *.
  rewrite (list_lookup_total_correct _ _ _ Ha'),
          (list_lookup_total_correct _ _ _ Hb').
  rewrite (list_lookup_total_correct _ _ _ Ha) in *.
  rewrite (list_lookup_total_correct _ _ _ Hb) in *.
  apply Forall2_same_length_lookup in Hteams as [Hlts Hteams].
  apply Forall2_same_length_lookup in Hcounted as [_ Hcounted].
  destruct (lookup_lt_is_Some_2 ts a) as [ta Hta];
    [rewrite Hlts; by eapply lookup_lt_Some|].
  destruct (lookup_lt_is_Some_2 ts b) as [tb Htb];
    [rewrite Hlts; by eapply lookup_lt_Some|].
  pose proof (cnt_count _ _ (Hcounted a ta sa Hta Ha)) as Hca.
  pose proof (cnt_count _ _ (Hcounted b tb sb Htb Hb)) as Hcb.
  apply isCount_spec in Hca as (ra & Hran & Hea).
  apply isCount_spec in Hcb as (rb & Hrbn & Heb).
  rewrite Hea in Hra. rewrite Heb in Hrb.
  unfold Num.limit in *.
  rewrite leb_ofZ_zero in Hra, Hrb by (unfold Num.limit; lia).
  apply Z.leb_gt in Hra, Hrb.
  exists ra, rb, (sumZ (map remainingZ st)). simpl.
  rewrite Hea, Heb. unfold Num.one.
  rewrite !sub_ofZ by (unfold Num.limit; lia).
  rewrite Hexact, Hexact'.
  repeat split; try done; try lia. f_equal. lia.
Qed.
End Runs.

(** * The claims of the specification *)

(** The run of the matcher stays folded when a goal is simplified. *)
Arguments runMatcher : simpl never.
Arguments finalState : simpl never.
Arguments placementsOf : simpl never.
Arguments remainingAfter : simpl never.
Arguments neededBefore : simpl never.
Arguments scheduledBy : simpl never.
Arguments remainingSum : simpl never.
Arguments computeState : simpl never.
Arguments tryGenerateSchedule : simpl never.
Arguments assignByes : simpl never.

(** ** Sample inputs *)

Definition openWeeks : list Slot.t := replicate 14 Slot.empty.

(** Two teams of different conferences, one game needed each. *)
Definition twoTeams : list Team.t :=
  [Team.mk "Beta" "X" (Num.ofZ 1) openWeeks;
   Team.mk " alpha " "Y" (Num.ofZ 1) openWeeks].

(** Three teams of one conference. *)
Definition sameConference : list Team.t :=
  [Team.mk "A" "X" (Num.ofZ 1) openWeeks; Team.mk "B" "X" (Num.ofZ 1) openWeeks;
   Team.mk "C" "X" (Num.ofZ 1) openWeeks].

(** A team whose weeks are all byes, and an opponent for it. *)
Definition byeTeams : list Team.t :=
  [Team.mk "A" "X" (Num.ofZ 1) (replicate 14 Slot.bye);
   Team.mk "B" "Y" (Num.ofZ 1) openWeeks].

(** Three teams of which only two can be paired. *)
Definition oddTeams : list Team.t :=
  [Team.mk "A" "X" (Num.ofZ 1) openWeeks; Team.mk "B" "Y" (Num.ofZ 1) openWeeks;
   Team.mk "C" "Y" (Num.ofZ 1) openWeeks].

(** Two teams that ask for [2^53 + 2] games each, a number binary64
    holds but cannot count down from in steps of one. *)
Definition bigTeams : list Team.t :=
  [Team.mk "A" "X" (Num.ofZ 9007199254740994) openWeeks;
   Team.mk "B" "Y" (Num.ofZ 9007199254740994) openWeeks].

(** Two teams that ask for [10^18] games each: there, taking one away
    changes nothing. *)
Definition hugeTeams : list Team.t :=
  [Team.mk "A" "X" (Num.ofZ 1000000000000000000) openWeeks;
   Team.mk "B" "Y" (Num.ofZ 1000000000000000000) openWeeks].

(** One half, and two teams that ask for half a game each. *)
Definition half : Num.t := S754_finite false 4503599627370496 (-53).

Definition halfTeams : list Team.t :=
  [Team.mk "A" "X" half openWeeks; Team.mk "B" "Y" half openWeeks].

Lemma twoTeams_whole : wholeDemand twoTeams.
Proof. split; [repeat constructor|]; vm_compute; done. Qed.

Lemma sameConference_whole : wholeDemand sameConference.
Proof. split; [repeat constructor|]; vm_compute; done. Qed.

Lemma oddTeams_whole : wholeDemand oddTeams.
Proof. split; [repeat constructor|]; vm_compute; done. Qed.

(** ** Failure and success *)

Section Outcome.
Context `{host : Host}.

(** The condition on which [tryGenerateSchedule] gives up,
    [beforeRemaining > 0 && scheduled === 0], on the numbers the run
    computes. *)
Definition noProgress (ts : list Team.t) (avoidWeek0 : bool) : Prop :=
  Num.ltb Num.zero (neededBefore ts) = true
  ∧ Num.eqb (scheduledBy ts avoidWeek0) Num.zero = true.

(** C3. [tryGenerateSchedule] returns the failure object, [ok] false
    with the fixed reason, exactly when the demand it computed before
    the pass is above zero and the [scheduled] it computed is zero; in
    every other case it returns the success object, whatever remains
    unscheduled.  On whole-number demands the two numbers are exact, and
    the condition says that the teams still needed a game and the pass
    placed none. *)
Theorem C3_failure_iff_no_progress (ts : list Team.t) (avoidWeek0 : bool) :
  let r := tryGenerateSchedule ts avoidWeek0 in
  (r = failure ↔ noProgress ts avoidWeek0)
  ∧ (r = success ts avoidWeek0 ↔ ¬ noProgress ts avoidWeek0)
  ∧ (Result.ok r = false ↔ noProgress ts avoidWeek0)
  ∧ (Result.ok r = false ↔ Result.reason r = Some noPairings)
  ∧ (wholeDemand ts →
     (noProgress ts avoidWeek0
      ↔ (0 < neededZ ts)%Z ∧ placementsOf ts avoidWeek0 = [])).
Proof.
  cbv zeta. rewrite tryGenerateSchedule_cases. unfold noProgress.
  assert (wholeDemand ts →
          (Num.ltb Num.zero (neededBefore ts) = true
           ∧ Num.eqb (scheduledBy ts avoidWeek0) Num.zero = true
           ↔ (0 < neededZ ts)%Z ∧ placementsOf ts avoidWeek0 = [])) as Hwhole.
  { intros Hw.
    destruct (summary_exact ts avoidWeek0 Hw) as (-> & _ & -> & Hle & Hlim & Hsum).
    unfold Num.limit in Hlim.
    rewrite ltb_zero_ofZ, eqb_ofZ_zero by (unfold Num.limit; lia).
    rewrite Z.ltb_lt, Z.eqb_eq.
    destruct (placementsOf ts avoidWeek0); simpl; [tauto|].
    split; [lia|]. by intros [_ ?]. }
  destruct (Num.ltb Num.zero (neededBefore ts)),
    (Num.eqb (scheduledBy ts avoidWeek0) Num.zero); simpl.
  - split; [tauto|]. split; [split; [discriminate|tauto]|].
    split; [tauto|]. split; [tauto|exact Hwhole].
  - split; [split; [discriminate|by intros [_ ?]]|].
    split; [split; [by intros _ [_ ?]|done]|].
    split; [split; [discriminate|by intros [_ ?]]|].
    split; [split; discriminate|exact Hwhole].
  - split; [split; [discriminate|by intros [? _]]|].
    split; [split; [by intros _ [? _]|done]|].
    split; [split; [discriminate|by intros [? _]]|].
    split; [split; discriminate|exact Hwhole].
  - split; [split; [discriminate|by intros [? _]]|].
    split; [split; [by intros _ [? _]|done]|].
    split; [split; [discriminate|by intros [? _]]|].
    split; [split; discriminate|exact Hwhole].
Qed.
End Outcome.

(** Where taking one from [oocRemaining] changes nothing, a run that
    places a game computes [scheduled] as zero and gives up. *)
Example failure_after_a_game :
  @tryGenerateSchedule asciiHost hugeTeams true = failure
  ∧ @placementsOf asciiHost hugeTeams true = [mkPlacement 0 1 1].
Proof. vm_compute. done. Qed.

(** ** The result object *)

(** The summary fields the specification lists for every result. *)
Definition carriesSummary (r : Result.t) : Prop :=
  is_Some (Result.unscheduled r)
  ∧ is_Some (Result.scheduledOOC r)
  ∧ is_Some (Result.neededOOC r).

Section ResultShape.
Context `{host : Host}.

(** C9, as amended.  A success result carries [ok], [teams],
    [unscheduled], [scheduledOOC] and [neededOOC] and no [reason]; a
    failure result carries [ok] and [reason] and nothing else. *)
Theorem C9_result_fields (ts : list Team.t) (avoidWeek0 : bool) :
  let r := tryGenerateSchedule ts avoidWeek0 in
  (Result.ok r = true ∧ Result.reason r = None
   ∧ is_Some (Result.teams r) ∧ carriesSummary r)
  ∨ (Result.ok r = false ∧ Result.reason r = Some noPairings
     ∧ Result.teams r = None ∧ Result.unscheduled r = None
     ∧ Result.scheduledOOC r = None ∧ Result.neededOOC r = None).
Proof.
  cbv zeta. rewrite tryGenerateSchedule_cases.
  destruct (_ && _); [by right|]. left. unfold carriesSummary. simpl.
  repeat split; eauto.
Qed.
End ResultShape.

(** C9 as stated fails: the result for three teams of one conference
    has none of the three integer fields. *)
Lemma C9_failure_has_no_summary :
  ¬ carriesSummary (@tryGenerateSchedule asciiHost sameConference true).
Proof. vm_compute. intros [[x Hx] _]. discriminate. Qed.

(** ** Progress accounting *)

(** C4 as the specification states it: on success the summary adds up,
    and [scheduledOOC] is half the number of new [oocGame] cells. *)
Definition scheduledIsHalfOfNewSlots (ts : list Team.t) (r : Result.t) : Prop :=
  ∀ out n u s,
    Result.teams r = Some out → Result.neededOOC r = Some n →
    Result.unscheduled r = Some u → Result.scheduledOOC r = Some s →
    Num.eqb (Num.sub n u) s = true
    ∧ Num.add s s = Num.ofZ (Z.of_nat (newOocSlots ts out)).

(** C10 as stated: [scheduledOOC] is twice the number of games placed. *)
Definition scheduledIsTwice (games : nat) (r : Result.t) : Prop :=
  ∀ s, Result.scheduledOOC r = Some s → s = Num.ofZ (2 * Z.of_nat games).

Section Accounting.
Context `{host : Host}.

(** C4, as amended.  On whole-number demands, on success
    [neededOOC - unscheduled == scheduledOOC], and [scheduledOOC] is
    exactly the number of new [oocGame] cells: two for every game
    placed. *)
Theorem C4_progress_accounting (ts : list Team.t) (avoidWeek0 : bool) :
  wholeDemand ts →
  Result.ok (tryGenerateSchedule ts avoidWeek0) = true →
  ∃ out n u s,
    Result.teams (tryGenerateSchedule ts avoidWeek0) = Some out
    ∧ Result.neededOOC (tryGenerateSchedule ts avoidWeek0) = Some n
    ∧ Result.unscheduled (tryGenerateSchedule ts avoidWeek0) = Some u
    ∧ Result.scheduledOOC (tryGenerateSchedule ts avoidWeek0) = Some s
    ∧ Num.eqb (Num.sub n u) s = true
    ∧ s = Num.ofZ (Z.of_nat (newOocSlots ts out))
    ∧ newOocSlots ts out = 2 * length (placementsOf ts avoidWeek0).
Proof.
  intros Hwhole. rewrite tryGenerateSchedule_cases.
  destruct (_ && _); [discriminate|]. intros _. simpl.
  destruct (summary_exact ts avoidWeek0 Hwhole)
    as (_ & _ & Hsched & Hle & Hlim & Hsum).
  pose proof (newOocSlots_remaining ts _
                (run_counted _ _ _ (final_counted ts avoidWeek0 Hwhole))) as Hnew.
  fold (neededZ ts) in Hnew. fold (leftZ ts avoidWeek0) in Hnew.
  eexists _, _, _, _. split; [done|]. split; [done|]. split; [done|].
  split; [done|]. fold (scheduledBy ts avoidWeek0). rewrite Hsched.
  unfold Num.limit in Hlim.
  split; [apply eqb_ofZ_refl; unfold Num.limit; lia|].
  split; [f_equal; lia|lia].
Qed.

(** C10, as amended.  On whole-number demands, on success
    [scheduledOOC] is twice the number of games placed, hence an even
    integer that is not negative; every placement joins two distinct
    teams that both still need a game, takes one from what each of them
    needs, and so takes two from the sum. *)
Theorem C10_scheduled_is_twice_games (ts : list Team.t) (avoidWeek0 : bool) :
  wholeDemand ts →
  Result.ok (tryGenerateSchedule ts avoidWeek0) = true →
  ∃ s,
    Result.scheduledOOC (tryGenerateSchedule ts avoidWeek0) = Some s
    ∧ s = Num.ofZ (2 * Z.of_nat (length (placementsOf ts avoidWeek0)))
    ∧ Num.toZ s = (2 * Z.of_nat (length (placementsOf ts avoidWeek0)))%Z
    ∧ (0 <= Num.toZ s)%Z
    ∧ Z.even (Num.toZ s) = true
    ∧ ∀ pre e post,
        placementsOf ts avoidWeek0 = pre ++ e :: post →
        let before := replay (computeState ts) pre in
        let after := replay (computeState ts) (pre ++ [e]) in
        teamA e ≠ teamB e
        ∧ ∃ ra rb total : Z,
            (0 < ra)%Z ∧ (0 < rb)%Z ∧ (2 <= total < Num.limit)%Z
            ∧ TeamState.oocRemaining (before !!! teamA e) = Num.ofZ ra
            ∧ TeamState.oocRemaining (before !!! teamB e) = Num.ofZ rb
            ∧ TeamState.oocRemaining (after !!! teamA e) = Num.ofZ (ra - 1)
            ∧ TeamState.oocRemaining (after !!! teamB e) = Num.ofZ (rb - 1)
            ∧ remainingSum before = Num.ofZ total
            ∧ remainingSum after = Num.ofZ (total - 2).
Proof.
  intros Hwhole. rewrite tryGenerateSchedule_cases.
  destruct (_ && _); [discriminate|]. intros _. simpl.
  destruct (summary_exact ts avoidWeek0 Hwhole)
    as (_ & _ & Hsched & Hle & Hlim & Hsum).
  eexists. split; [done|]. rewrite Hsched. split; [done|].
  unfold Num.limit in Hlim.
  rewrite toZ_ofZ by (unfold Num.limit; lia).
  split; [done|]. split; [lia|]. split; [by rewrite Z.even_mul|].
  intros pre e post Hlog.
  destruct (Reach_split _ _ _ pre e post (run_reach ts avoidWeek0) Hlog)
    as [Hreach Hvalid].
  cbv zeta. rewrite replay_snoc. split; [apply Hvalid|].
  apply (placement_counts ts _ pre); done.
Qed.
End Accounting.

(** C4 as stated fails: for two teams that play one game,
    [scheduledOOC] is 2 and two cells are new. *)
Lemma C4_scheduled_is_not_half :
  ¬ scheduledIsHalfOfNewSlots twoTeams
      (@tryGenerateSchedule asciiHost twoTeams true).
Proof.
  intros Hclaim.
  destruct (Hclaim (map TeamState.ref (@finalState asciiHost twoTeams true))
              (Num.ofZ 2) Num.zero (Num.ofZ 2)) as [_ Hhalf];
    [vm_compute; reflexivity..|].
  vm_compute in Hhalf. discriminate.
Qed.

(** Nor does [scheduledOOC] count the new cells where the demands are
    beyond the whole numbers binary64 counts: for two teams that ask
    for [2^53 + 2] games each and play one game, two cells are new and
    [scheduledOOC] is 4. *)
Example accounting_beyond_whole_numbers :
  Result.scheduledOOC (@tryGenerateSchedule asciiHost bigTeams true)
  = Some (Num.ofZ 4)
  ∧ (∃ out, Result.teams (@tryGenerateSchedule asciiHost bigTeams true) = Some out
            ∧ newOocSlots bigTeams out = 2).
Proof. split; [vm_compute; done|]. eexists. split; vm_compute; done. Qed.

Lemma C4_progress_accounting_witness :
  ∃ out n u s,
    Result.teams (@tryGenerateSchedule asciiHost twoTeams true) = Some out
    ∧ Result.neededOOC (@tryGenerateSchedule asciiHost twoTeams true) = Some n
    ∧ Result.unscheduled (@tryGenerateSchedule asciiHost twoTeams true) = Some u
    ∧ Result.scheduledOOC (@tryGenerateSchedule asciiHost twoTeams true) = Some s
    ∧ Num.eqb (Num.sub n u) s = true
    ∧ s = Num.ofZ (Z.of_nat (newOocSlots twoTeams out))
    ∧ newOocSlots twoTeams out
      = 2 * length (@placementsOf asciiHost twoTeams true).
Proof.
  apply (@C4_progress_accounting asciiHost twoTeams true).
  - split; [repeat constructor|]; vm_compute; done.
  - vm_compute. reflexivity.
Defined.

(** C10 as stated fails: two teams that ask for [2^53 + 2] games each
    play one game, each [oocRemaining--] takes two away, and
    [scheduledOOC] is 4. *)
Lemma C10_scheduled_is_not_twice_games :
  length (@placementsOf asciiHost bigTeams true) = 1
  ∧ ¬ scheduledIsTwice (length (@placementsOf asciiHost bigTeams true))
        (@tryGenerateSchedule asciiHost bigTeams true).
Proof.
  split; [vm_compute; done|]. intros Hclaim.
  assert (Num.ofZ 4 = Num.ofZ (2 * Z.of_nat (length (@placementsOf asciiHost bigTeams true))))
    as Habs by (apply Hclaim; vm_compute; reflexivity).
  vm_compute in Habs. discriminate.
Qed.

Lemma C10_scheduled_is_twice_games_witness :
  ∃ s,
    Result.scheduledOOC (@tryGenerateSchedule asciiHost twoTeams true) = Some s
    ∧ s = Num.ofZ (2 * Z.of_nat (length (@placementsOf asciiHost twoTeams true)))
    ∧ Num.toZ s = (2 * Z.of_nat (length (@placementsOf asciiHost twoTeams true)))%Z
    ∧ (0 <= Num.toZ s)%Z
    ∧ Z.even (Num.toZ s) = true
    ∧ ∀ pre e post,
        @placementsOf asciiHost twoTeams true = pre ++ e :: post →
        let before := replay (@computeState asciiHost twoTeams) pre in
        let after := replay (@computeState asciiHost twoTeams) (pre ++ [e]) in
        teamA e ≠ teamB e
        ∧ ∃ ra rb total : Z,
            (0 < ra)%Z ∧ (0 < rb)%Z ∧ (2 <= total < Num.limit)%Z
            ∧ TeamState.oocRemaining (before !!! teamA e) = Num.ofZ ra
            ∧ TeamState.oocRemaining (before !!! teamB e) = Num.ofZ rb
            ∧ TeamState.oocRemaining (after !!! teamA e) = Num.ofZ (ra - 1)
            ∧ TeamState.oocRemaining (after !!! teamB e) = Num.ofZ (rb - 1)
            ∧ remainingSum before = Num.ofZ total
            ∧ remainingSum after = Num.ofZ (total - 2).
Proof.
  apply (@C10_scheduled_is_twice_games asciiHost twoTeams true).
  - split; [repeat constructor|]; vm_compute; done.
  - vm_compute. reflexivity.
Defined.

(** ** The cap of twelve games *)

(** Every team enters with at most twelve games, as
    [validateParsedTeams] requires of a file it accepts. *)
Definition withinCap (ts : list Team.t) : Prop :=
  Forall (λ t, countGames (Team.weeks t) ≤ 12) ts.

Section Cap.
Context `{host : Host}.

Lemma cap_of_inv (ts : list Team.t) (st : list TeamState.t) :
  withinCap ts → Forall2 TeamInv ts st →
  Forall (λ s, (TeamState.totalGames s <= 12)%Z) st
  ∧ Forall (λ t, countGames (Team.weeks t) ≤ 12) (map TeamState.ref st).
Proof.
  intros Hcap Hinv. revert Hcap.
  induction Hinv as [|t s ts st Hts _ IH]; intros Hcap; cbn [map].
  { split; constructor. }
  apply Forall_cons in Hcap as [Ht Hcap]. destruct (IH Hcap) as [IH1 IH2].
  pose proof (inv_total_hi _ _ Hts) as Hhi.
  pose proof (inv_total _ _ Hts) as Htot.
  rewrite teamState_totalGames in Hhi.
  split; constructor; try done; lia.
Qed.

(** C2.  For teams that enter with at most twelve games: a game is
    placed only between two teams that both have fewer than twelve;
    the placement adds exactly one to the [totalGames] of each and
    lowers nobody's; after it no team has more than twelve; and at the
    end of the run no team has more than twelve, in the state and in
    the week cells of the teams returned. *)
Theorem C2_total_games_capped (ts : list Team.t) (avoidWeek0 : bool) :
  withinCap ts →
  (∀ pre e post,
     placementsOf ts avoidWeek0 = pre ++ e :: post →
     let before := replay (computeState ts) pre in
     let after := replay (computeState ts) (pre ++ [e]) in
     (TeamState.totalGames (before !!! teamA e) < 12)%Z
     ∧ (TeamState.totalGames (before !!! teamB e) < 12)%Z
     ∧ TeamState.totalGames (after !!! teamA e)
       = (TeamState.totalGames (before !!! teamA e) + 1)%Z
     ∧ TeamState.totalGames (after !!! teamB e)
       = (TeamState.totalGames (before !!! teamB e) + 1)%Z
     ∧ (∀ i, (TeamState.totalGames (before !!! i)
              <= TeamState.totalGames (after !!! i))%Z)
     ∧ Forall (λ s, (TeamState.totalGames s <= 12)%Z) after)
  ∧ Forall (λ s, (TeamState.totalGames s <= 12)%Z) (finalState ts avoidWeek0)
  ∧ ∀ out, Result.teams (tryGenerateSchedule ts avoidWeek0) = Some out →
           Forall (λ t, countGames (Team.weeks t) ≤ 12) out.
Proof.
  intros Hcap. split; [|split].
  - intros pre e post Hlog.
    destruct (Reach_split _ _ _ pre e post (run_reach ts avoidWeek0) Hlog)
      as [Hreach Hvalid].
    destruct (placement_totals _ _ _ _ Hvalid)
      as (? & ? & ? & Ha & Hb & Hother).
    cbv zeta. rewrite replay_snoc.
    split; [done|]. split; [done|]. split; [done|]. split; [done|]. split.
    + intros i. destruct (decide (i = teamA e)) as [->|]; [lia|].
      destruct (decide (i = teamB e)) as [->|]; [lia|].
      by rewrite Hother.
    + pose proof (Reach_place _ _ _ _ _ _ Hreach Hvalid) as Hreach'.
      apply Reach_inv, run_teams in Hreach'.
      by apply (cap_of_inv ts).
  - by apply (cap_of_inv ts), (run_teams _ _ _ (run_inv ts avoidWeek0)).
  - rewrite tryGenerateSchedule_cases.
    destruct (_ && _); [discriminate|]. intros out [= <-].
    by apply (cap_of_inv ts), (run_teams _ _ _ (run_inv ts avoidWeek0)).
Qed.
End Cap.

Lemma C2_total_games_capped_witness :
  (∀ pre e post,
     @placementsOf asciiHost twoTeams true = pre ++ e :: post →
     let before := replay (@computeState asciiHost twoTeams) pre in
     let after := replay (@computeState asciiHost twoTeams) (pre ++ [e]) in
     (TeamState.totalGames (before !!! teamA e) < 12)%Z
     ∧ (TeamState.totalGames (before !!! teamB e) < 12)%Z
     ∧ TeamState.totalGames (after !!! teamA e)
       = (TeamState.totalGames (before !!! teamA e) + 1)%Z
     ∧ TeamState.totalGames (after !!! teamB e)
       = (TeamState.totalGames (before !!! teamB e) + 1)%Z
     ∧ (∀ i, (TeamState.totalGames (before !!! i)
              <= TeamState.totalGames (after !!! i))%Z)
     ∧ Forall (λ s, (TeamState.totalGames s <= 12)%Z) after)
  ∧ Forall (λ s, (TeamState.totalGames s <= 12)%Z)
           (@finalState asciiHost twoTeams true)
  ∧ ∀ out, Result.teams (@tryGenerateSchedule asciiHost twoTeams true) = Some out →
           Forall (λ t, countGames (Team.weeks t) ≤ 12) out.
Proof.
  apply (@C2_total_games_capped asciiHost twoTeams true).
  repeat constructor.
Defined.

(** ** Symmetry of the games placed *)

Section Symmetry.
Context `{host : Host}.

(** C5.  In the teams a successful run returns, a cell that holds an
    [oocGame] where the input held none names a team of the list, other
    than its own, whose cell of the same week holds an [oocGame] that
    names this team, with the opposite [away]; that cell is new too. *)
Theorem C5_new_games_are_mirrored (ts out : list Team.t) (avoidWeek0 : bool)
    (i w : nat) (t t' : Team.t) (c : Slot.t) (o : string) (aw : bool) :
  Result.teams (tryGenerateSchedule ts avoidWeek0) = Some out →
  ts !! i = Some t → out !! i = Some t' →
  Team.weeks t !! w = Some c → Slot.isOocGame c = false →
  Team.weeks t' !! w = Some (Slot.oocGame o aw) →
  ∃ j tj tj' cj,
    j ≠ i ∧ ts !! j = Some tj ∧ out !! j = Some tj'
    ∧ Team.name tj' = o
    ∧ Team.weeks tj' !! w = Some (Slot.oocGame (Team.name t') (negb aw))
    ∧ Team.weeks tj !! w = Some cj ∧ Slot.isOocGame cj = false.
Proof.
  rewrite tryGenerateSchedule_cases.
  destruct (_ && _); [discriminate|]. intros [= <-] Ht Ht' Hc Hno Hcur.
  destruct (run_inv ts avoidWeek0) as [Hteams Hsym].
  rewrite list_lookup_fmap in Ht'.
  destruct (finalState ts avoidWeek0 !! i) as [s|] eqn:Hs; [|discriminate].
  injection Ht' as <-.
  destruct (Hsym i t s w c o aw Ht Hs Hc Hno Hcur)
    as (j & tj & sj & cj & Hji & Htj & Hsj & Hn & Hm & Hcj & Hnj).
  apply Forall2_same_length_lookup in Hteams as [_ Hteams].
  pose proof (Hteams i t s Ht Hs) as Hi.
  pose proof (Hteams j tj sj Htj Hsj) as Hj.
  exists j, tj, (TeamState.ref sj), cj.
  rewrite list_lookup_fmap, Hsj. simpl.
  rewrite (inv_ref_name _ _ Hj), (inv_ref_name _ _ Hi). done.
Qed.
End Symmetry.

Lemma C5_new_games_are_mirrored_witness :
  ∃ j tj tj' cj,
    j ≠ 0 ∧ twoTeams !! j = Some tj
    ∧ [Team.mk "Beta" "X" (Num.ofZ 1) (<[1 := Slot.oocGame " alpha " true]> openWeeks);
       Team.mk " alpha " "Y" (Num.ofZ 1) (<[1 := Slot.oocGame "Beta" false]> openWeeks)]
      !! j = Some tj'
    ∧ Team.name tj' = " alpha "
    ∧ Team.weeks tj' !! 1
      = Some (Slot.oocGame
                (Team.name (Team.mk "Beta" "X" (Num.ofZ 1)
                              (<[1 := Slot.oocGame " alpha " true]> openWeeks)))
                (negb true))
    ∧ Team.weeks tj !! 1 = Some cj ∧ Slot.isOocGame cj = false.
Proof.
  apply (@C5_new_games_are_mirrored asciiHost twoTeams _ true 0 1
           (Team.mk "Beta" "X" (Num.ofZ 1) openWeeks) _ Slot.empty " alpha " true).
  - vm_compute. reflexivity.
  - reflexivity.
  - reflexivity.
  - reflexivity.
  - reflexivity.
  - reflexivity.
Defined.

(** ** Which cells a run may change *)

(** C1 as the specification states it: a cell that is not [empty] in
    the input is the same in the output. *)
Definition neverOverwritesNonEmpty (ts out : list Team.t) : Prop :=
  ∀ i t t' w c c',
    ts !! i = Some t → out !! i = Some t' →
    Team.weeks t !! w = Some c → Team.weeks t' !! w = Some c' →
    c ≠ Slot.empty → c' = c.

Section Cells.
Context `{host : Host}.

(** C1, as amended.  After [tryGenerateSchedule] and [assignByes] every
    team keeps its name, conference, need and number of weeks, and every
    cell is as it was in the input, except that a cell that was [empty]
    or [bye] may hold an [oocGame] and a cell that was [empty] may hold
    a [bye].  So [confHome], [confAway], [lockedOOC] and earlier
    [oocGame] cells are never changed. *)
Theorem C1_only_open_cells_change (ts : list Team.t) (avoidWeek0 : bool)
    (i w : nat) (t t' : Team.t) (c : Slot.t) :
  ts !! i = Some t → (onGenerate ts avoidWeek0).2 !! i = Some t' →
  Team.weeks t !! w = Some c →
  length (onGenerate ts avoidWeek0).2 = length ts
  ∧ Team.name t' = Team.name t
  ∧ Team.conference t' = Team.conference t
  ∧ Team.oocNeeded t' = Team.oocNeeded t
  ∧ length (Team.weeks t') = length (Team.weeks t)
  ∧ ∃ c', Team.weeks t' !! w = Some c'
          ∧ (Slot.isOpen c = false → c' = c)
          ∧ (c' = c
             ∨ (Slot.isOpen c = true ∧ Slot.isOocGame c' = true)
             ∨ (c = Slot.empty ∧ c' = Slot.bye)).
Proof.
  intros Ht Ht' Hc.
  assert ((onGenerate ts avoidWeek0).2 = ts
          ∨ (onGenerate ts avoidWeek0).2
            = assignByes (map TeamState.ref (finalState ts avoidWeek0)) avoidWeek0)
    as [Hout|Hout].
  { unfold onGenerate. destruct ts as [|t0 ts0]; [by left|].
    rewrite tryGenerateSchedule_cases. destruct (_ && _); [by left|by right]. }
  - rewrite Hout in Ht' |- *. assert (t' = t) as -> by congruence.
    repeat split; try done. exists c. split; [done|]. split; [done|by left].
  - rewrite Hout in Ht' |- *. rewrite assignByes_map in Ht' |- *.
    rewrite !length_map.
    destruct (run_inv ts avoidWeek0) as [Hteams _].
    apply Forall2_same_length_lookup in Hteams as [Hlen Hteams].
    rewrite !list_lookup_fmap in Ht'.
    destruct (finalState ts avoidWeek0 !! i) as [s|] eqn:Hs; [|discriminate].
    change (Some (byeTeam avoidWeek0 (TeamState.ref s)) = Some t') in Ht'.
    apply (inj Some) in Ht'. subst t'.
    pose proof (Hteams i t s Ht Hs) as Hinv.
    pose proof (byeTeam_inv avoidWeek0 (TeamState.ref s)) as Hbye.
    split; [done|].
    split; [by rewrite (byes_name _ _ Hbye), (inv_ref_name _ _ Hinv)|].
    split; [by rewrite (byes_conference _ _ Hbye), (inv_ref_conference _ _ Hinv)|].
    split; [by rewrite (byes_needed _ _ Hbye), (inv_ref_needed _ _ Hinv)|].
    split; [by rewrite (byes_length _ _ Hbye), (inv_length _ _ Hinv)|].
    destruct (inv_cell _ _ Hinv w c Hc) as [Hsame | (Hopen & _ & o & aw & Hgame)].
    + destruct (byes_cell _ _ Hbye w c Hsame) as [Hfin | [-> Hfin]].
      * exists c. split; [done|]. split; [done|by left].
      * exists Slot.bye. split; [done|]. split; [discriminate|].
        right. by right.
    + destruct (byes_cell _ _ Hbye w _ Hgame) as [Hfin | [? _]]; [|discriminate].
      exists (Slot.oocGame o aw). split; [done|].
      split; [congruence|]. right. by left.
Qed.
End Cells.

(** C1 as stated fails: a game is placed on a week that was a bye. *)
Lemma C1_bye_is_overwritten :
  ¬ neverOverwritesNonEmpty byeTeams (@onGenerate asciiHost byeTeams true).2.
Proof.
  intros Hclaim.
  specialize (Hclaim 0 (Team.mk "A" "X" (Num.ofZ 1) (replicate 14 Slot.bye))
                (Team.mk "A" "X" (Num.ofZ 1)
                   (<[1 := Slot.oocGame "B" false]> (replicate 14 Slot.bye)))
                1 Slot.bye (Slot.oocGame "B" false)).
  assert (Slot.oocGame "B" false = Slot.bye) as Habs; [|discriminate].
  apply Hclaim.
  - reflexivity.
  - vm_compute. reflexivity.
  - reflexivity.
  - reflexivity.
  - discriminate.
Qed.

Lemma C1_only_open_cells_change_witness :
  length (@onGenerate asciiHost byeTeams true).2 = length byeTeams
  ∧ Team.name (Team.mk "A" "X" (Num.ofZ 1)
                 (<[1 := Slot.oocGame "B" false]> (replicate 14 Slot.bye)))
    = Team.name (Team.mk "A" "X" (Num.ofZ 1) (replicate 14 Slot.bye))
  ∧ Team.conference (Team.mk "A" "X" (Num.ofZ 1)
                       (<[1 := Slot.oocGame "B" false]> (replicate 14 Slot.bye)))
    = Team.conference (Team.mk "A" "X" (Num.ofZ 1) (replicate 14 Slot.bye))
  ∧ Team.oocNeeded (Team.mk "A" "X" (Num.ofZ 1)
                      (<[1 := Slot.oocGame "B" false]> (replicate 14 Slot.bye)))
    = Team.oocNeeded (Team.mk "A" "X" (Num.ofZ 1) (replicate 14 Slot.bye))
  ∧ length (Team.weeks (Team.mk "A" "X" (Num.ofZ 1)
                          (<[1 := Slot.oocGame "B" false]> (replicate 14 Slot.bye))))
    = length (Team.weeks (Team.mk "A" "X" (Num.ofZ 1) (replicate 14 Slot.bye)))
  ∧ ∃ c', Team.weeks (Team.mk "A" "X" (Num.ofZ 1)
                        (<[1 := Slot.oocGame "B" false]> (replicate 14 Slot.bye)))
          !! 1 = Some c'
          ∧ (Slot.isOpen Slot.bye = false → c' = Slot.bye)
          ∧ (c' = Slot.bye
             ∨ (Slot.isOpen Slot.bye = true ∧ Slot.isOocGame c' = true)
             ∨ (Slot.bye = Slot.empty ∧ c' = Slot.bye)).
Proof.
  apply (@C1_only_open_cells_change asciiHost byeTeams true 0 1
           (Team.mk "A" "X" (Num.ofZ 1) (replicate 14 Slot.bye))).
  - reflexivity.
  - vm_compute. reflexivity.
  - reflexivity.
Defined.

(** ** Home and away *)

Lemma ltb_antisym (a b : string) :
  a ≠ b → String.ltb b a = negb (String.ltb a b).
Proof.
  intros Hne. unfold String.ltb. rewrite (String.compare_antisym b a).
  destruct (String.compare a b) eqn:E; simpl; try done.
  by apply String.compare_eq_iff in E.
Qed.

(** C6.  [pickHomeAway] makes home the team with fewer [homeGames]; if
    those are equal, the team with more [awayGames]; if those are equal
    too, the team whose key is the smaller one.  For two teams with
    different keys, the only pairs [canScheduleBetween] lets through,
    the sides do not depend on the order of the arguments. *)
Theorem C6_pickHomeAway_rules (st : list TeamState.t) (a b : Ref) :
  TeamState.key (st !!! a) ≠ TeamState.key (st !!! b) →
  let sa := st !!! a in
  let sb := st !!! b in
  ((TeamState.homeGames sa < TeamState.homeGames sb)%Z →
   pickHomeAway st a b = mkSides a b)
  ∧ ((TeamState.homeGames sb < TeamState.homeGames sa)%Z →
     pickHomeAway st a b = mkSides b a)
  ∧ (TeamState.homeGames sa = TeamState.homeGames sb →
     (TeamState.awayGames sb < TeamState.awayGames sa)%Z →
     pickHomeAway st a b = mkSides a b)
  ∧ (TeamState.homeGames sa = TeamState.homeGames sb →
     (TeamState.awayGames sa < TeamState.awayGames sb)%Z →
     pickHomeAway st a b = mkSides b a)
  ∧ (TeamState.homeGames sa = TeamState.homeGames sb →
     TeamState.awayGames sa = TeamState.awayGames sb →
     String.ltb (TeamState.key sa) (TeamState.key sb) = true →
     pickHomeAway st a b = mkSides a b)
  ∧ (TeamState.homeGames sa = TeamState.homeGames sb →
     TeamState.awayGames sa = TeamState.awayGames sb →
     String.ltb (TeamState.key sb) (TeamState.key sa) = true →
     pickHomeAway st a b = mkSides b a)
  ∧ pickHomeAway st b a = pickHomeAway st a b.
Proof.
  intros Hkey sa sb. subst sa sb. unfold pickHomeAway. cbv zeta.
  rewrite (ltb_antisym _ _ Hkey).
  destruct (String.ltb (TeamState.key (st !!! a)) (TeamState.key (st !!! b))).
  all: repeat match goal with
              | |- context [Z.eqb ?x ?y] => destruct (Z.eqb_spec x y)
              | |- context [Z.ltb ?x ?y] => destruct (Z.ltb_spec x y)
              end; simpl.
  all: repeat split; intros; try done; try lia.
Qed.

(** For two distinct state objects with one key and equal counts the
    order of the arguments does decide: the second one is home. *)
Example pickHomeAway_same_key :
  let st := @computeState asciiHost
              [Team.mk "Ab" "X" (Num.ofZ 1) openWeeks; Team.mk "ab" "Y" (Num.ofZ 1) openWeeks] in
  pickHomeAway st 0 1 = mkSides 1 0 ∧ pickHomeAway st 1 0 = mkSides 0 1.
Proof. vm_compute. done. Qed.

Lemma C6_pickHomeAway_rules_witness :
  let st := @computeState asciiHost twoTeams in
  let sa := st !!! 0 in
  let sb := st !!! 1 in
  ((TeamState.homeGames sa < TeamState.homeGames sb)%Z →
   pickHomeAway st 0 1 = mkSides 0 1)
  ∧ ((TeamState.homeGames sb < TeamState.homeGames sa)%Z →
     pickHomeAway st 0 1 = mkSides 1 0)
  ∧ (TeamState.homeGames sa = TeamState.homeGames sb →
     (TeamState.awayGames sb < TeamState.awayGames sa)%Z →
     pickHomeAway st 0 1 = mkSides 0 1)
  ∧ (TeamState.homeGames sa = TeamState.homeGames sb →
     (TeamState.awayGames sa < TeamState.awayGames sb)%Z →
     pickHomeAway st 0 1 = mkSides 1 0)
  ∧ (TeamState.homeGames sa = TeamState.homeGames sb →
     TeamState.awayGames sa = TeamState.awayGames sb →
     String.ltb (TeamState.key sa) (TeamState.key sb) = true →
     pickHomeAway st 0 1 = mkSides 0 1)
  ∧ (TeamState.homeGames sa = TeamState.homeGames sb →
     TeamState.awayGames sa = TeamState.awayGames sb →
     String.ltb (TeamState.key sb) (TeamState.key sa) = true →
     pickHomeAway st 0 1 = mkSides 1 0)
  ∧ pickHomeAway st 1 0 = pickHomeAway st 0 1.
Proof.
  apply (C6_pickHomeAway_rules (@computeState asciiHost twoTeams) 0 1).
  vm_compute. discriminate.
Defined.

(** ** Byes *)

(** C8.  [assignByes] changes nothing of a team but week cells, and a
    cell it changes was [empty] and becomes [bye]; it gives a team no
    bye beyond its third, so no team ends with more byes than the
    greater of three and what it had; and running it again on its own
    output changes nothing. *)
Theorem C8_assignByes_capped_idempotent (l : list Team.t) (avoidWeek0 : bool) :
  Forall2 OnlyByesAdded l (assignByes l avoidWeek0)
  ∧ assignByes (assignByes l avoidWeek0) avoidWeek0 = assignByes l avoidWeek0.
Proof.
  rewrite !assignByes_map. split.
  - apply Forall2_fmap_r, Forall_Forall2_diag, Forall_forall.
    intros t _. apply byeTeam_inv.
  - rewrite map_map. apply map_ext. intros t. apply byeTeam_idempotent.
Qed.

(** * Further properties of the scheduler *)

(** ** What a placement leaves alone *)

Section Frame.
Context `{host : Host}.

(** A placement changes no name, key or conference, only adds to
    [playedOpp], and only removes from [availableWeeks]. *)
Lemma placeGameAtWeek_frame (st : list TeamState.t) a b w i :
  ValidPlacement st a b w →
  let s := st !!! i in
  let s' := placeGameAtWeek st a b w !!! i in
  TeamState.name s' = TeamState.name s
  ∧ TeamState.key s' = TeamState.key s
  ∧ TeamState.conference s' = TeamState.conference s
  ∧ TeamState.playedOpp s ⊆ TeamState.playedOpp s'
  ∧ (∀ x, x ∈ TeamState.availableWeeks s' → x ∈ TeamState.availableWeeks s)
  ∧ (i = a ∨ i = b → w ∉ TeamState.availableWeeks s').
Proof.
  intros (Hab & [sa Ha] & [sb Hb] & _). cbv zeta.
  destruct (decide (i = a)) as [->|Hia].
  { rewrite (list_lookup_total_correct _ _ _ Ha).
    rewrite (list_lookup_total_correct _ _ _
               (placeGameAtWeek_first st a b w sa sb Hab Ha Hb)). simpl.
    repeat split; try done.
    - apply union_subseteq_r.
    - intros x Hx. by apply list_elem_of_filter in Hx as [_ ?].
    - intros _ Hx. by apply list_elem_of_filter in Hx as [? _]. }
  destruct (decide (i = b)) as [->|Hib].
  { rewrite (list_lookup_total_correct _ _ _ Hb).
    rewrite (list_lookup_total_correct _ _ _
               (placeGameAtWeek_second st a b w sa sb Hab Ha Hb)). simpl.
    repeat split; try done.
    - apply union_subseteq_r.
    - intros x Hx. by apply list_elem_of_filter in Hx as [_ ?].
    - intros _ Hx. by apply list_elem_of_filter in Hx as [? _]. }
  rewrite placeGameAtWeek_total_other by done.
  repeat split; try done. tauto.
Qed.

(** After a placement each side has the other's key in [playedOpp]. *)
Lemma placeGameAtWeek_played (st : list TeamState.t) a b w :
  ValidPlacement st a b w →
  let st' := placeGameAtWeek st a b w in
  TeamState.key (st !!! b) ∈ TeamState.playedOpp (st' !!! a)
  ∧ TeamState.key (st !!! a) ∈ TeamState.playedOpp (st' !!! b).
Proof.
  intros (Hab & [sa Ha] & [sb Hb] & _). cbv zeta.
  rewrite (list_lookup_total_correct _ _ _ Ha),
          (list_lookup_total_correct _ _ _ Hb).
  rewrite (list_lookup_total_correct _ _ _
             (placeGameAtWeek_first st a b w sa sb Hab Ha Hb)).
  rewrite (list_lookup_total_correct _ _ _
             (placeGameAtWeek_second st a b w sa sb Hab Ha Hb)). simpl.
  split; apply elem_of_union_l, elem_of_singleton; done.
Qed.

(** Names, keys and conferences are those of the first state. *)
Lemma Reach_frame (init st : list TeamState.t) (log : list Placement) (i : nat) :
  Reach init st log →
  length st = length init
  ∧ TeamState.name (st !!! i) = TeamState.name (init !!! i)
  ∧ TeamState.key (st !!! i) = TeamState.key (init !!! i)
  ∧ TeamState.conference (st !!! i) = TeamState.conference (init !!! i).
Proof.
  induction 1 as [|st log a b w _ IH Hvalid]; [done|].
  destruct (placeGameAtWeek_frame st a b w i Hvalid) as (-> & -> & -> & _).
  by rewrite placeGameAtWeek_length.
Qed.

(** What the history says about the present state: the two sides of
    every past placement have each other's key in [playedOpp], and the
    week of the placement is no longer available to either. *)
Definition Remembered (st : list TeamState.t) (e : Placement) : Prop :=
  TeamState.key (st !!! teamB e) ∈ TeamState.playedOpp (st !!! teamA e)
  ∧ TeamState.key (st !!! teamA e) ∈ TeamState.playedOpp (st !!! teamB e)
  ∧ (atWeek e ∉ TeamState.availableWeeks (st !!! teamA e))
  ∧ (atWeek e ∉ TeamState.availableWeeks (st !!! teamB e)).

Lemma Reach_remembered (init st : list TeamState.t) (log : list Placement) :
  Reach init st log → Forall (Remembered st) log.
Proof.
  induction 1 as [|st log a b w _ IH Hvalid]; [constructor|].
  apply Forall_app. split.
  - eapply Forall_impl; [exact IH|]. intros e (Hb & Ha & Hwa & Hwb).
    destruct (placeGameAtWeek_frame st a b w (teamA e) Hvalid)
      as (_ & HkA & _ & HpA & HaA & _).
    destruct (placeGameAtWeek_frame st a b w (teamB e) Hvalid)
      as (_ & HkB & _ & HpB & HaB & _).
    unfold Remembered. rewrite HkA, HkB.
    split; [by apply HpA|]. split; [by apply HpB|].
    split; intros Hx; [apply Hwa, HaA, Hx | apply Hwb, HaB, Hx].
  - apply Forall_singleton. unfold Remembered. simpl.
    destruct (placeGameAtWeek_played st a b w Hvalid) as [Hb Ha].
    destruct (placeGameAtWeek_frame st a b w a Hvalid) as (_ & HkA & _ & _ & _ & HwA).
    destruct (placeGameAtWeek_frame st a b w b Hvalid) as (_ & HkB & _ & _ & _ & HwB).
    rewrite HkA, HkB. split; [done|]. split; [done|]. split; auto.
Qed.

(** The matcher writes inside the week arrays: the week of a placement
    is an open cell of both teams. *)
Lemma Reach_in_range (ts : list Team.t) (st : list TeamState.t)
    (log : list Placement) (a b w : nat) :
  Reach (computeState ts) st log → ValidPlacement st a b w →
  w < length (Team.weeks (TeamState.ref (st !!! a)))
  ∧ w < length (Team.weeks (TeamState.ref (st !!! b))).
Proof.
  intros Hreach (Hab & [sa Ha] & [sb Hb] & Hwa & Hwb & _).
  apply Reach_inv, run_teams, Forall2_same_length_lookup in Hreach
    as [Hlen Hteams].
  destruct (lookup_lt_is_Some_2 ts a) as [ta Hta];
    [rewrite Hlen; by eapply lookup_lt_Some|].
  destruct (lookup_lt_is_Some_2 ts b) as [tb Htb];
    [rewrite Hlen; by eapply lookup_lt_Some|].
  rewrite (list_lookup_total_correct _ _ _ Ha) in *.
  rewrite (list_lookup_total_correct _ _ _ Hb) in *.
  destruct (inv_available _ _ (Hteams a ta sa Hta Ha) w Hwa) as (? & _ & _ & ?).
  destruct (inv_available _ _ (Hteams b tb sb Htb Hb) w Hwb) as (? & _ & _ & ?).
  split; by eapply lookup_lt_Some.
Qed.
End Frame.

(** ** The constraints every placement respects *)

Section Constraints.
Context `{host : Host}.

Lemma tally_played (ws : list Slot.t) (k : nat) (c : Tally) :
  let c' := foldl tallySlot c (zip (seq k (length ws)) ws) in
  tPlayedOpp c ⊆ tPlayedOpp c'
  ∧ ∀ j o aw, (ws !! j = Some (Slot.lockedOOC o aw)
               ∨ ws !! j = Some (Slot.oocGame o aw)) →
              o ≠ "" → normalizeKey o ∈ tPlayedOpp c'.
Proof.
  revert k c. induction ws as [|x ws IH]; intros k c; simpl.
  { split; [done|]. intros j o aw [Hj|Hj]; by rewrite lookup_nil in Hj. }
  destruct (IH (S k) (tallySlot c (k, x))) as [Hsub Hin].
  assert (tPlayedOpp c ⊆ tPlayedOpp (tallySlot c (k, x))) as Hstep.
  { destruct x; simpl; try done; unfold addOpponent;
      case_bool_decide; try done; apply union_subseteq_r. }
  split; [by etrans|].
  intros [|j] o aw Hj Ho; [|by apply (Hin j o aw)].
  apply Hsub. simpl in Hj.
  destruct Hj as [[= ->]|[= ->]]; simpl; unfold addOpponent;
    rewrite bool_decide_eq_false_2 by done;
    apply elem_of_union_l, elem_of_singleton; done.
Qed.

(** The opponents of a team's [lockedOOC] and [oocGame] cells are in
    the [playedOpp] set [computeTeamState] builds, by normalized name. *)
Lemma teamState_played (t : Team.t) (j : nat) (o : string) (aw : bool) :
  (Team.weeks t !! j = Some (Slot.lockedOOC o aw)
   ∨ Team.weeks t !! j = Some (Slot.oocGame o aw)) →
  o ≠ "" → normalizeKey o ∈ TeamState.playedOpp (teamState t).
Proof.
  intros Hj Ho. unfold teamState, tallyWeeks, indexed. simpl.
  by apply (tally_played (Team.weeks t) 0 (mkTally 0 0 0 0 ∅ [])) with j aw.
Qed.

Lemma Reach_played_grows (init st : list TeamState.t) (log : list Placement)
    (i : nat) :
  Reach init st log →
  TeamState.playedOpp (init !!! i) ⊆ TeamState.playedOpp (st !!! i).
Proof.
  induction 1 as [|st log a b w _ IH Hvalid]; [done|].
  destruct (placeGameAtWeek_frame st a b w i Hvalid) as (_ & _ & _ & Hsub & _).
  by etrans.
Qed.

(** X1.  Every game the matcher places joins two different teams of
    different conferences and different keys, neither of which names
    the other in a [lockedOOC] or [oocGame] cell of the input, and no
    two teams are joined twice in one run. *)
Theorem placements_respect_pairing_rules (ts : list Team.t) (avoidWeek0 : bool)
    (pre post : list Placement) (e : Placement) :
  placementsOf ts avoidWeek0 = pre ++ e :: post →
  ∃ ta tb,
    ts !! teamA e = Some ta ∧ ts !! teamB e = Some tb
    ∧ teamA e ≠ teamB e
    ∧ Team.conference ta ≠ Team.conference tb
    ∧ normalizeKey (Team.name ta) ≠ normalizeKey (Team.name tb)
    ∧ (∀ j o aw, (Team.weeks ta !! j = Some (Slot.lockedOOC o aw)
                  ∨ Team.weeks ta !! j = Some (Slot.oocGame o aw)) →
                 o ≠ "" → normalizeKey o ≠ normalizeKey (Team.name tb))
    ∧ (∀ j o aw, (Team.weeks tb !! j = Some (Slot.lockedOOC o aw)
                  ∨ Team.weeks tb !! j = Some (Slot.oocGame o aw)) →
                 o ≠ "" → normalizeKey o ≠ normalizeKey (Team.name ta))
    ∧ ∀ e', e' ∈ pre →
            ¬ (teamA e' = teamA e ∧ teamB e' = teamB e)
            ∧ ¬ (teamA e' = teamB e ∧ teamB e' = teamA e).
Proof.
  intros Hlog.
  destruct (Reach_split _ _ _ pre e post (run_reach ts avoidWeek0) Hlog)
    as [Hreach Hvalid].
  pose proof Hvalid as (Hab & [sa Ha] & [sb Hb] & _ & _ & Hcan).
  apply canScheduleBetween_true in Hcan
    as (Hkey & Hconf & _ & _ & _ & _ & Hpa & Hpb).
  destruct (Reach_frame _ _ _ (teamA e) Hreach) as (Hlen & _ & HkA & HcA).
  destruct (Reach_frame _ _ _ (teamB e) Hreach) as (_ & _ & HkB & HcB).
  pose proof (Reach_played_grows _ _ _ (teamA e) Hreach) as HgA.
  pose proof (Reach_played_grows _ _ _ (teamB e) Hreach) as HgB.
  pose proof (Reach_remembered _ _ _ Hreach) as Hrem.
  unfold computeState in Hlen. rewrite length_map in Hlen.
  destruct (lookup_lt_is_Some_2 ts (teamA e)) as [ta Hta];
    [rewrite <- Hlen; by eapply lookup_lt_Some|].
  destruct (lookup_lt_is_Some_2 ts (teamB e)) as [tb Htb];
    [rewrite <- Hlen; by eapply lookup_lt_Some|].
  assert (computeState ts !!! teamA e = teamState ta) as HiA.
  { apply list_lookup_total_correct. unfold computeState.
    by rewrite list_lookup_fmap, Hta. }
  assert (computeState ts !!! teamB e = teamState tb) as HiB.
  { apply list_lookup_total_correct. unfold computeState.
    by rewrite list_lookup_fmap, Htb. }
  rewrite HiA in HkA, HcA, HgA. rewrite HiB in HkB, HcB, HgB.
  rewrite HkA, HkB in Hkey. rewrite HkB in Hpa. rewrite HkA in Hpb.
  rewrite HcA, HcB in Hconf.
  change (TeamState.key (teamState ta)) with (normalizeKey (Team.name ta)) in *.
  change (TeamState.key (teamState tb)) with (normalizeKey (Team.name tb)) in *.
  exists ta, tb.
  split; [done|]. split; [done|]. split; [done|]. split; [exact Hconf|].
  split; [exact Hkey|]. split; [|split].
  - intros j o aw Hj Ho Heq. apply Hpa. rewrite <- Heq.
    by apply HgA, (teamState_played ta j o aw).
  - intros j o aw Hj Ho Heq. apply Hpb. rewrite <- Heq.
    by apply HgB, (teamState_played tb j o aw).
  - intros e' He'. rewrite Forall_forall in Hrem.
    destruct (Hrem e' He') as (HinB & HinA & _).
    split; intros [HA HB]; rewrite HA, HB in HinB.
    + rewrite HkB in HinB. exact (Hpa HinB).
    + rewrite HkA in HinB. exact (Hpb HinB).
Qed.

(** X2.  A game is placed in a week that was [empty] or [bye] for both
    teams in the input, and no team is given two games in one week. *)
Theorem placements_use_open_weeks_once (ts : list Team.t) (avoidWeek0 : bool)
    (pre post : list Placement) (e : Placement) :
  placementsOf ts avoidWeek0 = pre ++ e :: post →
  (∃ ta tb ca cb,
     ts !! teamA e = Some ta ∧ ts !! teamB e = Some tb
     ∧ Team.weeks ta !! atWeek e = Some ca ∧ Slot.isOpen ca = true
     ∧ Team.weeks tb !! atWeek e = Some cb ∧ Slot.isOpen cb = true)
  ∧ ∀ e', e' ∈ pre → atWeek e' = atWeek e →
          teamA e' ≠ teamA e ∧ teamA e' ≠ teamB e
          ∧ teamB e' ≠ teamA e ∧ teamB e' ≠ teamB e.
Proof.
  intros Hlog.
  destruct (Reach_split _ _ _ pre e post (run_reach ts avoidWeek0) Hlog)
    as [Hreach Hvalid].
  pose proof Hvalid as (Hab & [sa Ha] & [sb Hb] & Hwa & Hwb & _).
  pose proof (Reach_remembered _ _ _ Hreach) as Hrem.
  apply Reach_inv, run_teams, Forall2_same_length_lookup in Hreach
    as [Hlen Hteams].
  destruct (lookup_lt_is_Some_2 ts (teamA e)) as [ta Hta];
    [rewrite Hlen; by eapply lookup_lt_Some|].
  destruct (lookup_lt_is_Some_2 ts (teamB e)) as [tb Htb];
    [rewrite Hlen; by eapply lookup_lt_Some|].
  split.
  - rewrite (list_lookup_total_correct _ _ _ Ha) in Hwa.
    rewrite (list_lookup_total_correct _ _ _ Hb) in Hwb.
    destruct (inv_available _ _ (Hteams _ ta sa Hta Ha) _ Hwa) as (ca & ? & ? & _).
    destruct (inv_available _ _ (Hteams _ tb sb Htb Hb) _ Hwb) as (cb & ? & ? & _).
    by exists ta, tb, ca, cb.
  - intros e' He' Hw. rewrite Forall_forall in Hrem.
    destruct (Hrem e' He') as (_ & _ & HnA & HnB). rewrite Hw in HnA, HnB.
    repeat split; intros Heq; rewrite Heq in *; done.
Qed.
End Constraints.

Lemma placements_respect_pairing_rules_witness :
  ∃ ta tb,
    twoTeams !! 0 = Some ta ∧ twoTeams !! 1 = Some tb
    ∧ 0 ≠ 1
    ∧ Team.conference ta ≠ Team.conference tb
    ∧ @normalizeKey asciiHost (Team.name ta) ≠ @normalizeKey asciiHost (Team.name tb)
    ∧ (∀ j o aw, (Team.weeks ta !! j = Some (Slot.lockedOOC o aw)
                  ∨ Team.weeks ta !! j = Some (Slot.oocGame o aw)) →
                 o ≠ "" → @normalizeKey asciiHost o ≠ @normalizeKey asciiHost (Team.name tb))
    ∧ (∀ j o aw, (Team.weeks tb !! j = Some (Slot.lockedOOC o aw)
                  ∨ Team.weeks tb !! j = Some (Slot.oocGame o aw)) →
                 o ≠ "" → @normalizeKey asciiHost o ≠ @normalizeKey asciiHost (Team.name ta))
    ∧ ∀ e', e' ∈ [] →
            ¬ (teamA e' = 0 ∧ teamB e' = 1) ∧ ¬ (teamA e' = 1 ∧ teamB e' = 0).
Proof.
  apply (@placements_respect_pairing_rules asciiHost twoTeams true []
           [] (mkPlacement 0 1 1)).
  vm_compute. reflexivity.
Defined.

Lemma placements_use_open_weeks_once_witness :
  (∃ ta tb ca cb,
     twoTeams !! 0 = Some ta ∧ twoTeams !! 1 = Some tb
     ∧ Team.weeks ta !! 1 = Some ca ∧ Slot.isOpen ca = true
     ∧ Team.weeks tb !! 1 = Some cb ∧ Slot.isOpen cb = true)
  ∧ ∀ e', e' ∈ [] → atWeek e' = 1 →
          teamA e' ≠ 0 ∧ teamA e' ≠ 1 ∧ teamB e' ≠ 0 ∧ teamB e' ≠ 1.
Proof.
  apply (@placements_use_open_weeks_once asciiHost twoTeams true []
           [] (mkPlacement 0 1 1)).
  vm_compute. reflexivity.
Defined.

(** ** The order in which weeks are filled *)

(** [Grouped ws l]: the history [l] falls into consecutive groups, one
    for each week of [ws] in that order, a group holding only
    placements of its week (and possibly none). *)
Fixpoint Grouped (ws : list nat) (l : list Placement) : Prop :=
  match ws with
  | [] => l = []
  | w :: ws' =>
      ∃ c rest, l = c ++ rest ∧ Forall (λ e, atWeek e = w) c ∧ Grouped ws' rest
  end.

Lemma Grouped_app (ws1 ws2 : list nat) (l : list Placement) :
  Grouped (ws1 ++ ws2) l →
  ∃ l1 l2, l = l1 ++ l2 ∧ Grouped ws1 l1 ∧ Grouped ws2 l2.
Proof.
  revert l. induction ws1 as [|w ws1 IH]; intros l; simpl.
  { intros ?. by exists [], l. }
  intros (c & rest & -> & Hc & Hrest).
  destruct (IH _ Hrest) as (l1 & l2 & -> & H1 & H2).
  exists (c ++ l1), l2. rewrite app_assoc. split; [done|]. split; [|done].
  by exists c, l1.
Qed.

Lemma Grouped_weeks (ws : list nat) (l : list Placement) :
  Grouped ws l → Forall (λ e, atWeek e ∈ ws) l.
Proof.
  revert l. induction ws as [|w ws IH]; intros l; simpl.
  { intros ->. constructor. }
  intros (c & rest & -> & Hc & Hrest). apply Forall_app. split.
  - eapply Forall_impl; [exact Hc|]. intros e ->. left.
  - eapply Forall_impl; [exact (IH _ Hrest)|]. intros e ?. by right.
Qed.

Section WeekOrder.
Context `{host : Host}.

Lemma pairTeam_placed (w : nat) (eligible : list Ref) (p : Pairing) (t : Ref) :
  ∃ c, pPlaced (pairTeam w eligible p t) = pPlaced p ++ c
       ∧ Forall (λ e, atWeek e = w) c
       ∧ (c = [] → pairTeam w eligible p t = p).
Proof.
  unfold pairTeam. case_bool_decide.
  { exists []. by rewrite app_nil_r. }
  destruct (head _) as [opp|].
  - eexists [_]. simpl. split; [done|]. split; [by repeat constructor|done].
  - exists []. by rewrite app_nil_r.
Qed.

Lemma pairTeams_placed (w : nat) (eligible l : list Ref) (p : Pairing) :
  ∃ c, pPlaced (foldl (pairTeam w eligible) p l) = pPlaced p ++ c
       ∧ Forall (λ e, atWeek e = w) c.
Proof.
  revert p. induction l as [|t l IH]; intros p; simpl.
  { exists []. by rewrite app_nil_r. }
  destruct (pairTeam_placed w eligible p t) as (c1 & H1 & Hw1 & _).
  destruct (IH (pairTeam w eligible p t)) as (c2 & H2 & Hw2).
  exists (c1 ++ c2). rewrite H2, H1, app_assoc. split; [done|].
  by apply Forall_app.
Qed.

Lemma scheduleWeek_placed (sl : list TeamState.t * list Placement) (w : nat) :
  ∃ c, (scheduleWeek sl w).2 = sl.2 ++ c ∧ Forall (λ e, atWeek e = w) c.
Proof. unfold scheduleWeek. cbv zeta. simpl. apply pairTeams_placed. Qed.

Lemma scheduleWeeks_grouped (ws : list nat)
    (sl : list TeamState.t * list Placement) :
  ∃ new, (foldl scheduleWeek sl ws).2 = sl.2 ++ new ∧ Grouped ws new.
Proof.
  revert sl. induction ws as [|w ws IH]; intros sl; simpl.
  { exists []. by rewrite app_nil_r. }
  destruct (scheduleWeek_placed sl w) as (c & Hc & Hw).
  destruct (IH (scheduleWeek sl w)) as (new & Hnew & Hg).
  exists (c ++ new). rewrite Hnew, Hc, app_assoc. split; [done|].
  by exists c, new.
Qed.

(** X3.  The games of a run are placed week by week in the order of
    [weekOrder]; every game is in one of the weeks 0 to 13; and when
    week 0 is to be avoided, every game of the weeks 1 to 13 is placed
    before any game of week 0. *)
Theorem placements_follow_week_order (ts : list Team.t) (avoidWeek0 : bool) :
  Grouped (weekOrder avoidWeek0) (placementsOf ts avoidWeek0)
  ∧ Forall (λ e, atWeek e < 14) (placementsOf ts avoidWeek0)
  ∧ (avoidWeek0 = true →
     ∃ early last,
       placementsOf ts avoidWeek0 = early ++ last
       ∧ Forall (λ e, 1 ≤ atWeek e ≤ 13) early
       ∧ Forall (λ e, atWeek e = 0) last).
Proof.
  assert (Grouped (weekOrder avoidWeek0) (placementsOf ts avoidWeek0)) as Hg.
  { unfold placementsOf, runMatcher.
    destruct (scheduleWeeks_grouped (weekOrder avoidWeek0)
                ((computeTeamState (deepCloneTeams ts)).2, []))
      as (new & -> & Hg). done. }
  split; [done|]. split.
  - eapply Forall_impl; [exact (Grouped_weeks _ _ Hg)|].
    intros e He. destruct avoidWeek0; simpl in He;
      repeat (apply elem_of_cons in He as [->|He]; [lia|]);
      by apply elem_of_nil in He.
  - intros ->.
    change (weekOrder true) with (seq 1 13 ++ [0]) in Hg.
    apply Grouped_app in Hg as (l1 & l2 & Hl & H1 & H2).
    exists l1, l2. split; [done|]. split.
    + eapply Forall_impl; [exact (Grouped_weeks _ _ H1)|].
      intros e He. apply elem_of_seq in He. lia.
    + simpl in H2. destruct H2 as (c & rest & -> & Hc & ->).
      by rewrite app_nil_r.
Qed.
End WeekOrder.

(** ** When the matcher places nothing *)

Section NoProgress.
Context `{host : Host}.

(** Two teams that could be given a game in week [w]. *)
Definition Pairable (st : list TeamState.t) (a b : Ref) (w : nat) : Prop :=
  a ≠ b ∧ a < length st ∧ b < length st
  ∧ w ∈ TeamState.availableWeeks (st !!! a)
  ∧ w ∈ TeamState.availableWeeks (st !!! b)
  ∧ canScheduleBetween st a b = true.

(** A count that is not [<= 0] is [> 0]; of a Number in general that
    does not follow, for [NaN] is neither. *)
Lemma count_positive (x : Num.t) :
  Num.isCount x = true → Num.leb x Num.zero = false →
  Num.ltb Num.zero x = true.
Proof.
  intros Hx Hpos. apply isCount_spec in Hx as (n & Hn & ->).
  unfold Num.limit in Hn.
  rewrite leb_ofZ_zero in Hpos by (unfold Num.limit; lia).
  rewrite ltb_zero_ofZ by (unfold Num.limit; lia).
  apply Z.leb_gt in Hpos. by apply Z.ltb_lt.
Qed.

Lemma Pairable_eligible st a b w :
  Forall (λ s, Num.isCount (TeamState.oocRemaining s) = true) st →
  Pairable st a b w → a ∈ eligibleAt st w ∧ b ∈ eligibleAt st w.
Proof.
  intros Hcounts (_ & Ha & Hb & Hwa & Hwb & Hcan).
  apply canScheduleBetween_true in Hcan as (_ & _ & Hra & Hrb & ? & ? & _).
  rewrite Forall_lookup in Hcounts.
  apply count_positive in Hra;
    [|apply (Hcounts a); by apply list_lookup_lookup_total_lt].
  apply count_positive in Hrb;
    [|apply (Hcounts b); by apply list_lookup_lookup_total_lt].
  unfold eligibleAt. rewrite !elem_of_sortBy, !list_elem_of_filter, !elem_of_seq.
  unfold isEligible, includes.
  rewrite !andb_true_iff, !bool_decide_eq_true, !Z.ltb_lt.
  repeat split; try done; lia.
Qed.

Lemma Pairable_candidate st a b w :
  Pairable st a b w → isCandidate st ∅ w a b = true.
Proof.
  intros (Hab & _ & _ & _ & Hwb & Hcan). unfold isCandidate, includes.
  rewrite Hcan, (bool_decide_eq_false_2 (b = a)) by done.
  rewrite bool_decide_eq_false_2 by apply not_elem_of_empty.
  by rewrite bool_decide_eq_true_2.
Qed.

Lemma sortBy_nil {A} (cmp : A → A → Num.t) (l : list A) : sortBy cmp l = [] → l = [].
Proof.
  intros Hnil. apply elem_of_nil_inv. intros x Hx.
  apply (elem_of_sortBy cmp) in Hx. rewrite Hnil in Hx. by apply elem_of_nil in Hx.
Qed.

(** A week in which nothing is placed had no pairable teams. *)
Lemma pairTeams_nothing (w : nat) (eligible l : list Ref)
    (st : list TeamState.t) :
  pPlaced (foldl (pairTeam w eligible) (mkPairing st ∅ []) l) = [] →
  foldl (pairTeam w eligible) (mkPairing st ∅ []) l = mkPairing st ∅ []
  ∧ ∀ t o, t ∈ l → o ∈ eligible → isCandidate st ∅ w t o = false.
Proof.
  induction l as [|t l IH]; simpl.
  { intros _. split; [done|]. intros t o Ht. by apply elem_of_nil in Ht. }
  intros Hnone.
  destruct (pairTeam_placed w eligible (mkPairing st ∅ []) t) as (c1 & H1 & _ & Hsame).
  destruct (pairTeams_placed w eligible l
              (pairTeam w eligible (mkPairing st ∅ []) t)) as (c2 & H2 & _).
  rewrite H2, H1 in Hnone. simpl in Hnone.
  apply app_eq_nil in Hnone as [-> ->].
  specialize (Hsame eq_refl). rewrite Hsame in *.
  rewrite app_nil_r in H2. destruct (IH H2) as [Hfold Hrest].
  split; [done|]. intros t' o Ht' Ho.
  apply elem_of_cons in Ht' as [->|Ht']; [|by apply Hrest].
  unfold pairTeam in Hsame. simpl in Hsame.
  rewrite bool_decide_eq_false_2 in Hsame by apply not_elem_of_empty.
  destruct (head _) as [opp|] eqn:Hhead; [discriminate|].
  apply head_None, sortBy_nil in Hhead.
  destruct (isCandidate st ∅ w t o) eqn:E; [|done].
  assert (o ∈ filter (λ o, isCandidate st ∅ w t o = true) eligible) as Hin
    by by apply list_elem_of_filter.
  rewrite Hhead in Hin. by apply elem_of_nil in Hin.
Qed.

Lemma scheduleWeeks_nothing (ws : list nat) (st : list TeamState.t) :
  Forall (λ s, Num.isCount (TeamState.oocRemaining s) = true) st →
  (foldl scheduleWeek (st, []) ws).2 = [] →
  ∀ w a b, w ∈ ws → ¬ Pairable st a b w.
Proof.
  intros Hcounts. induction ws as [|w ws IH]; simpl.
  { intros _ w a b Hw. by apply elem_of_nil in Hw. }
  intros Hnone.
  destruct (scheduleWeek_placed (st, []) w) as (c1 & H1 & _).
  destruct (scheduleWeeks_grouped ws (scheduleWeek (st, []) w)) as (c2 & H2 & _).
  rewrite H2, H1 in Hnone. simpl in Hnone.
  apply app_eq_nil in Hnone as [-> ->]. simpl in H1.
  unfold scheduleWeek in H1. cbv zeta in H1. simpl in H1.
  destruct (pairTeams_nothing w _ _ st H1) as [Hfold Hcand].
  assert (scheduleWeek (st, []) w = (st, [])) as Hweek.
  { unfold scheduleWeek. cbv zeta. simpl. by rewrite Hfold. }
  rewrite Hweek in H2. rewrite app_nil_r in H2. simpl in H2.
  intros w' a b Hw' Hpair.
  apply elem_of_cons in Hw' as [->|Hw']; [|by apply (IH H2 w' a b)].
  destruct (Pairable_eligible _ _ _ _ Hcounts Hpair) as [Ha Hb].
  pose proof (Pairable_candidate _ _ _ _ Hpair) as Hc.
  by rewrite (Hcand a b Ha Hb) in Hc.
Qed.

Lemma elem_of_weekOrder (avoidWeek0 : bool) (w : nat) :
  w ∈ weekOrder avoidWeek0 ↔ w < 14.
Proof.
  destruct avoidWeek0.
  - change (weekOrder true) with (seq 1 13 ++ [0]).
    rewrite elem_of_app, elem_of_seq, list_elem_of_singleton. lia.
  - change (weekOrder false) with (seq 0 14). rewrite elem_of_seq. lia.
Qed.

Lemma nothing_placed_nothing_pairable (ts : list Team.t) (avoidWeek0 : bool) :
  wholeDemand ts →
  placementsOf ts avoidWeek0 = [] →
  map TeamState.ref (finalState ts avoidWeek0) = ts
  ∧ ∀ a b w, w < 14 → ¬ Pairable (computeState ts) a b w.
Proof.
  intros Hwhole Hzero. split.
  - pose proof (Reach_replay _ _ _ (run_reach ts avoidWeek0)) as Hst.
    rewrite Hzero in Hst. simpl in Hst. rewrite Hst.
    unfold computeState. rewrite map_map. simpl. apply map_id.
  - intros a b w Hw.
    apply (scheduleWeeks_nothing (weekOrder avoidWeek0) (computeState ts)).
    + apply (counted_counts ts), RunCounted_init, Hwhole.
    + unfold placementsOf, runMatcher in Hzero.
      by rewrite computeTeamState_state in Hzero.
    + by apply elem_of_weekOrder.
Qed.

(** X5.  On whole-number demands the matcher places at least one game
    whenever some game can be placed: if, in the state
    [computeTeamState] builds, two teams share an available week among
    the weeks 0 to 13 and [canScheduleBetween] accepts them, the result
    is a success.  So a failure says that the teams needed a game, that
    none was placed, and that no two teams could be paired in any
    week. *)
Theorem failure_means_nothing_pairable (ts : list Team.t) (avoidWeek0 : bool) :
  wholeDemand ts →
  Result.ok (tryGenerateSchedule ts avoidWeek0) = false →
  (0 < neededZ ts)%Z
  ∧ neededBefore ts = Num.ofZ (neededZ ts)
  ∧ placementsOf ts avoidWeek0 = []
  ∧ map TeamState.ref (finalState ts avoidWeek0) = ts
  ∧ ∀ a b w, w < 14 → ¬ Pairable (computeState ts) a b w.
Proof.
  intros Hwhole. rewrite tryGenerateSchedule_cases.
  destruct (_ && _) eqn:Hcond; [|discriminate]. intros _.
  apply andb_true_iff in Hcond as [Hneed Hzero].
  destruct (summary_exact ts avoidWeek0 Hwhole)
    as (Hbefore & _ & Hsched & Hle & Hlim & Hsum).
  rewrite Hbefore in Hneed. rewrite Hsched in Hzero. unfold Num.limit in Hlim.
  rewrite ltb_zero_ofZ in Hneed by (unfold Num.limit; lia).
  rewrite eqb_ofZ_zero in Hzero by (unfold Num.limit; lia).
  apply Z.ltb_lt in Hneed. apply Z.eqb_eq in Hzero.
  assert (placementsOf ts avoidWeek0 = []) as Hnone
    by (destruct (placementsOf ts avoidWeek0); [done|simpl in Hzero; lia]).
  split; [done|]. split; [done|]. split; [done|].
  by apply nothing_placed_nothing_pairable.
Qed.
End NoProgress.

Lemma failure_means_nothing_pairable_witness :
  (0 < @neededZ asciiHost sameConference)%Z
  ∧ @neededBefore asciiHost sameConference
    = Num.ofZ (@neededZ asciiHost sameConference)
  ∧ @placementsOf asciiHost sameConference true = []
  ∧ map TeamState.ref (@finalState asciiHost sameConference true) = sameConference
  ∧ ∀ a b w, w < 14 → ¬ Pairable (@computeState asciiHost sameConference) a b w.
Proof.
  apply (@failure_means_nothing_pairable asciiHost sameConference true).
  - split; [repeat constructor|]; vm_compute; done.
  - vm_compute. reflexivity.
Defined.

(** ** Bounds on what a run hands out *)

Section Bounds.
Context `{host : Host}.

(** X4.  On whole-number demands a successful run reports whole
    numbers with [0 <= unscheduled <= neededOOC] and
    [0 <= scheduledOOC <= neededOOC], and gives no team more new games
    than its [oocNeeded] less its [lockedOOC] cells. *)
Theorem nobody_gets_more_than_needed (ts out : list Team.t) (avoidWeek0 : bool)
    (n u s : Num.t) :
  wholeDemand ts →
  Result.teams (tryGenerateSchedule ts avoidWeek0) = Some out →
  Result.neededOOC (tryGenerateSchedule ts avoidWeek0) = Some n →
  Result.unscheduled (tryGenerateSchedule ts avoidWeek0) = Some u →
  Result.scheduledOOC (tryGenerateSchedule ts avoidWeek0) = Some s →
  ∃ n' u' s' : Z,
    n = Num.ofZ n' ∧ u = Num.ofZ u' ∧ s = Num.ofZ s'
    ∧ (0 <= u' <= n')%Z ∧ (0 <= s' <= n')%Z ∧ (n' < Num.limit)%Z
    ∧ Forall2 (λ t t', (Z.of_nat (countNew (Team.weeks t) (Team.weeks t'))
                        <= Z.max 0 (demandZ t
                                    - Z.of_nat (countLocked (Team.weeks t))))%Z)
              ts out.
Proof.
  intros Hwhole. rewrite tryGenerateSchedule_cases.
  destruct (_ && _); [discriminate|]. simpl.
  intros [= <-] [= <-] [= <-] [= <-].
  destruct (summary_exact ts avoidWeek0 Hwhole)
    as (Hbefore & Hafter & Hsched & Hle & Hlim & Hsum).
  exists (neededZ ts), (leftZ ts avoidWeek0),
    (2 * Z.of_nat (length (placementsOf ts avoidWeek0)))%Z.
  split; [done|]. split; [done|]. split; [done|].
  split; [lia|]. split; [lia|]. split; [done|].
  pose proof (run_counted _ _ _ (final_counted ts avoidWeek0 Hwhole)) as Hcounted.
  destruct Hwhole as [Hall _]. rewrite Forall_lookup in Hall.
  apply Forall2_fmap_r, Forall2_same_length_lookup.
  apply Forall2_same_length_lookup in Hcounted as [Hlen Hcounted].
  split; [done|]. intros i t st Ht Hst. simpl.
  destruct (Hall i t Ht) as [Hc Hweeks].
  destruct (teamState_remainingZ t Hc Hweeks) as [_ Hstart].
  destruct (Hcounted i t st Ht Hst) as [Hcount Hnew].
  apply isCount_range in Hcount as [[? _] _]. fold (remainingZ st) in *. lia.
Qed.

(** X6.  Whatever the input, a run takes no game away from a team and
    leaves it with at most twelve games, or with as many as it came
    with if those were more than twelve. *)
Theorem total_games_bounded_without_validation (ts out : list Team.t)
    (avoidWeek0 : bool) :
  Result.teams (tryGenerateSchedule ts avoidWeek0) = Some out →
  Forall2 (λ t t', countGames (Team.weeks t) ≤ countGames (Team.weeks t')
                   ∧ countGames (Team.weeks t')
                     ≤ Nat.max 12 (countGames (Team.weeks t)))
          ts out.
Proof.
  rewrite tryGenerateSchedule_cases.
  destruct (_ && _); [discriminate|]. simpl. intros [= <-].
  apply Forall2_fmap_r.
  eapply Forall2_impl; [exact (run_teams _ _ _ (run_inv ts avoidWeek0))|].
  intros t st Hinv. simpl.
  pose proof (inv_total _ _ Hinv). pose proof (inv_total_lo _ _ Hinv).
  pose proof (inv_total_hi _ _ Hinv).
  rewrite teamState_totalGames in *. lia.
Qed.
End Bounds.

(** Where the demands are not whole numbers the summary can leave
    these bounds: two teams that ask for half a game each play one
    game, after which [neededOOC] is 1, [scheduledOOC] is 2 and
    [unscheduled] is -1. *)
Example summary_of_half_games :
  Num.add half half = Num.ofZ 1
  ∧ @tryGenerateSchedule asciiHost halfTeams true
    = Result.mk true None
        (Some [Team.mk "A" "X" half (<[1 := Slot.oocGame "B" false]> openWeeks);
               Team.mk "B" "Y" half (<[1 := Slot.oocGame "A" true]> openWeeks)])
        (Some (Num.ofZ (-1))) (Some (Num.ofZ 2)) (Some (Num.ofZ 1)).
Proof. split; vm_compute; reflexivity. Qed.

(** For demands of 0.3 and 0.4, as binary64 has them, one game is
    placed and [scheduledOOC] is the Number next below 2. *)
Example summary_of_fractions :
  let threeTenths := S754_finite false 5404319552844595 (-54) in
  let fourTenths := S754_finite false 7205759403792794 (-54) in
  let r := @tryGenerateSchedule asciiHost
             [Team.mk "A" "X" threeTenths openWeeks;
              Team.mk "B" "Y" fourTenths openWeeks] true in
  Result.scheduledOOC r = Some (S754_finite false 9007199254740991 (-52))
  ∧ Num.ltb (S754_finite false 9007199254740991 (-52)) (Num.ofZ 2) = true.
Proof. vm_compute. done. Qed.

(** A team that enters with thirteen games keeps them all. *)
Definition overfullTeams : list Team.t :=
  [Team.mk "A" "X" (Num.ofZ 1) (Slot.empty :: replicate 13 Slot.confHome);
   Team.mk "B" "Y" (Num.ofZ 1) openWeeks; Team.mk "C" "Z" (Num.ofZ 1) openWeeks].

Lemma nobody_gets_more_than_needed_witness :
  ∃ n' u' s' : Z,
    Num.ofZ 2 = Num.ofZ n' ∧ Num.zero = Num.ofZ u' ∧ Num.ofZ 2 = Num.ofZ s'
    ∧ (0 <= u' <= n')%Z ∧ (0 <= s' <= n')%Z ∧ (n' < Num.limit)%Z
    ∧ Forall2 (λ t t', (Z.of_nat (countNew (Team.weeks t) (Team.weeks t'))
                        <= Z.max 0 (demandZ t
                                    - Z.of_nat (countLocked (Team.weeks t))))%Z)
              twoTeams
              [Team.mk "Beta" "X" (Num.ofZ 1) (<[1 := Slot.oocGame " alpha " true]> openWeeks);
               Team.mk " alpha " "Y" (Num.ofZ 1) (<[1 := Slot.oocGame "Beta" false]> openWeeks)].
Proof.
  apply (@nobody_gets_more_than_needed asciiHost twoTeams _ true
           (Num.ofZ 2) Num.zero (Num.ofZ 2)).
  - split; [repeat constructor|]; vm_compute; done.
  - vm_compute. reflexivity.
  - vm_compute. reflexivity.
  - vm_compute. reflexivity.
  - vm_compute. reflexivity.
Defined.

Lemma total_games_bounded_without_validation_witness :
  Forall2 (λ t t', countGames (Team.weeks t) ≤ countGames (Team.weeks t')
                   ∧ countGames (Team.weeks t')
                     ≤ Nat.max 12 (countGames (Team.weeks t)))
          overfullTeams
          [Team.mk "A" "X" (Num.ofZ 1) (Slot.empty :: replicate 13 Slot.confHome);
           Team.mk "B" "Y" (Num.ofZ 1) (<[1 := Slot.oocGame "C" false]> openWeeks);
           Team.mk "C" "Z" (Num.ofZ 1) (<[1 := Slot.oocGame "B" true]> openWeeks)].
Proof.
  apply (@total_games_bounded_without_validation asciiHost overfullTeams _ true).
  vm_compute. reflexivity.
Defined.

(** ** Which weeks become byes *)

(** The empty weeks of a team in the order [assignByes] uses them: by
    index, but week 0 after all others. *)
Definition emptyOrder (ws : list Slot.t) : list nat :=
  filter (λ i, i ≠ 0) (positionsFrom Slot.isEmpty 0 ws)
  ++ filter (λ i, i = 0) (positionsFrom Slot.isEmpty 0 ws).

(** How many byes [assignByes] gives a team: what it lacks of three, as
    far as its empty weeks go. *)
Definition byesToGive (ws : list Slot.t) : nat :=
  Nat.min (maxByesPerTeam - countByes ws) (length (emptyOrder ws)).

Definition markByes (t : Team.t) (weeksToMark : list nat) : Team.t :=
  foldl (λ t i, Team.setWeek i Slot.bye t) t weeksToMark.

Section ByeWeeks.
Context `{host : Host}.

(** The view of a team after round [r], in terms of the team it
    started from, its byes [b0] and its empty weeks [q0] then. *)
Definition AfterRound (t : Team.t) (b0 : nat) (q0 : list nat) (r : nat)
    (v : ByeView) : Prop :=
  let n := Nat.min (r - b0) (length q0) in
  vTeam v = markByes t (take n q0)
  ∧ vEmptiesNon0 v ++ vEmpties0 v = drop n q0
  ∧ length (vByes v) = b0 + n.

Lemma giveBye_round avoidWeek0 t b0 q0 r v :
  r < maxByesPerTeam →
  AfterRound t b0 q0 r v → AfterRound t b0 q0 (S r) (giveBye avoidWeek0 (S r) v).
Proof.
  unfold AfterRound, maxByesPerTeam. cbv zeta. intros Hr (Ht & Hq & Hb).
  destruct (decide (S r ≤ length (vByes v) ∨ 3 ≤ length (vByes v))) as [Hd|Hd].
  { rewrite giveBye_enough by done.
    assert (Nat.min (S r - b0) (length q0) = Nat.min (r - b0) (length q0))
      as -> by lia. done. }
  destruct (drop (Nat.min (r - b0) (length q0)) q0) as [|idx rest] eqn:Hdrop.
  { apply app_eq_nil in Hq as [Hn H0]. rewrite giveBye_nothing by done.
    assert (length q0 ≤ Nat.min (r - b0) (length q0)) as Hlen.
    { apply drop_nil_inv in Hdrop. lia. }
    assert (Nat.min (S r - b0) (length q0) = Nat.min (r - b0) (length q0))
      as -> by lia.
    by rewrite Hdrop, Hn, H0. }
  assert (q0 !! Nat.min (r - b0) (length q0) = Some idx) as Hidx.
  { rewrite <- (Nat.add_0_r (Nat.min _ _)), <- lookup_drop. by rewrite Hdrop. }
  assert (Nat.min (S r - b0) (length q0) = S (Nat.min (r - b0) (length q0)))
    as Hn.
  { apply lookup_lt_Some in Hidx. lia. }
  rewrite Hn, (take_S_r _ _ _ Hidx).
  assert (drop (S (Nat.min (r - b0) (length q0))) q0 = rest) as ->.
  { rewrite (drop_S _ _ _ Hidx) in Hdrop. by injection Hdrop. }
  unfold markByes. rewrite foldl_app. fold (markByes t (take (Nat.min (r - b0) (length q0)) q0)).
  rewrite <- Ht.
  destruct (vEmptiesNon0 v) as [|i1 rest1] eqn:Hnon0.
  - simpl in Hq.
    rewrite (giveBye_some _ _ _ idx rest) by (unfold maxByesPerTeam; rewrite ?Hnon0; auto; lia).
    rewrite Hnon0. simpl. rewrite length_app. simpl. split; [done|].
    split; [done|lia].
  - simpl in Hq. injection Hq as -> Hrest.
    rewrite (giveBye_some _ _ _ idx rest1) by (unfold maxByesPerTeam; rewrite ?Hnon0; auto; lia).
    rewrite Hnon0. simpl. rewrite length_app. simpl. split; [done|].
    split; [done|lia].
Qed.

Lemma byeTeam_closed_form avoidWeek0 (t : Team.t) :
  byeTeam avoidWeek0 t
  = markByes t (take (byesToGive (Team.weeks t)) (emptyOrder (Team.weeks t))).
Proof.
  assert (AfterRound t (countByes (Team.weeks t)) (emptyOrder (Team.weeks t))
            0 (viewOf t)) as H0.
  { unfold AfterRound. simpl. rewrite viewOf_eq. simpl.
    rewrite length_positionsFrom. unfold countByes. split; [done|].
    split; [by rewrite drop_0|lia]. }
  apply (giveBye_round avoidWeek0) in H0; [|unfold maxByesPerTeam; lia].
  apply (giveBye_round avoidWeek0) in H0; [|unfold maxByesPerTeam; lia].
  apply (giveBye_round avoidWeek0) in H0; [|unfold maxByesPerTeam; lia].
  destruct H0 as (Ht & _). exact Ht.
Qed.

(** X7.  [assignByes] gives every team the byes it lacks of three, in
    its empty weeks taken by index with week 0 last, until it has three
    or no empty week is left; nothing else changes.  The flag plays no
    part: the result is the same with [avoidWeek0] set and not set. *)
Theorem assignByes_closed_form (l : list Team.t) (avoidWeek0 : bool) :
  assignByes l avoidWeek0
  = map (λ t, markByes t (take (byesToGive (Team.weeks t))
                               (emptyOrder (Team.weeks t)))) l
  ∧ assignByes l true = assignByes l false.
Proof.
  split.
  - rewrite assignByes_map. apply map_ext. intros t. apply byeTeam_closed_form.
  - rewrite !assignByes_map. apply map_ext. intros t.
    by rewrite !byeTeam_closed_form.
Qed.
End ByeWeeks.

(** * The validator *)

(** The object [validateParsedTeams] returns. *)
Record Checked := mkChecked { errors : list string; warnings : list string }.

(** Cells the validator counts as scheduled games: conference games and
    locked games. *)
Definition isScheduled (w : Slot.t) : bool :=
  match w with
  | Slot.confHome | Slot.confAway | Slot.lockedOOC _ _ => true
  | _ => false
  end.

Definition countScheduled (ws : list Slot.t) : nat :=
  length (filter (λ w, isScheduled w = true) ws).

Section Validator.
Context `{host : Host}.

(** The body of the first loop: [errors] and [byName]. *)
Definition noteName (acc : list string * gmap string Team.t) (t : Team.t)
  : list string * gmap string Team.t :=
  let key := normalizeKey (Team.name t) in
  match acc.2 !! key with
  | Some _ => (acc.1 ++ ["Duplicate team name detected: " +:+ Team.name t], acc.2)
  | None => (acc.1, <[key := t]> acc.2)
  end.

(** The body of the loop over the weeks of [t] in the second loop:
    [scheduled] and [errors]. *)
Definition checkSlot (t : Team.t) (acc : nat * list string) (w : Slot.t)
  : nat * list string :=
  let scheduled := if isScheduled w then S acc.1 else acc.1 in
  match w with
  | Slot.lockedOOC o _ =>
      let errs :=
        if bool_decide (o = "") || bool_decide (trim o = "")
        then acc.2 ++ [Team.name t +:+ ": has an OOC opponent with empty name"]
        else acc.2 in
      let errs :=
        if bool_decide (normalizeKey o = normalizeKey (Team.name t))
        then errs ++ [Team.name t +:+ ": cannot play itself"]
        else errs in
      (scheduled, errs)
  | _ => (scheduled, acc.2)
  end.

Definition checkTeam (errs : list string) (t : Team.t) : list string :=
  let r := foldl (checkSlot t) (0, errs) (Team.weeks t) in
  if 12 <? r.1
  then r.2 ++ [Team.name t +:+ ": exceeds 12 total scheduled games ("
               +:+ pretty r.1 +:+ ")"]
  else r.2.

(** The body of the loop over the weeks of [t] in the third loop:
    [errors] and [warnings]. *)
Definition checkOpponent (byName : gmap string Team.t) (t : Team.t)
    (acc : list string * list string) (w : Slot.t)
  : list string * list string :=
  match w with
  | Slot.lockedOOC o _ =>
      match byName !! normalizeKey o with
      | Some opp =>
          if bool_decide (Team.conference opp = Team.conference t)
          then (acc.1 ++ [Team.name t +:+ ": existing OOC opponent "
                          +:+ Team.name opp +:+ " is from same conference ("
                          +:+ Team.conference t +:+ ")"], acc.2)
          else acc
      | None =>
          (acc.1, acc.2 ++ [Team.name t +:+ ": opponent '" +:+ o
                            +:+ "' not found in team list"])
      end
  | _ => acc
  end.

Definition validateParsedTeams (teams : list Team.t) : Checked :=
  let named := foldl noteName ([], ∅) teams in
  let errs := foldl checkTeam named.1 teams in
  let r := foldl (λ acc t, foldl (checkOpponent named.2 t) acc (Team.weeks t))
                 (errs, []) teams in
  mkChecked r.1 r.2.
End Validator.

(** ** What the validator accepts *)

Section Accepting.
Context `{host : Host}.

Definition teamKey (t : Team.t) : string := normalizeKey (Team.name t).

(** The team lists without fault: keys are unique; no team has more
    than twelve conference and locked games; and a locked opponent has
    a name that is not blank, is not the team itself, and is not a team
    of the list in the same conference. *)
Record Acceptable (teams : list Team.t) : Prop := {
  acc_unique : NoDup (map teamKey teams);
  acc_games : ∀ t, t ∈ teams → countScheduled (Team.weeks t) ≤ 12;
  acc_named : ∀ t o aw, t ∈ teams → Slot.lockedOOC o aw ∈ Team.weeks t →
                        o ≠ "" ∧ trim o ≠ "";
  acc_other : ∀ t o aw, t ∈ teams → Slot.lockedOOC o aw ∈ Team.weeks t →
                        normalizeKey o ≠ teamKey t;
  acc_conference : ∀ t o aw t', t ∈ teams →
                     Slot.lockedOOC o aw ∈ Team.weeks t →
                     t' ∈ teams → teamKey t' = normalizeKey o →
                     Team.conference t' ≠ Team.conference t
}.

Lemma concat_map_nil {A B} (f : A → list B) (l : list A) :
  concat (map f l) = [] ↔ ∀ x, x ∈ l → f x = [].
Proof.
  induction l as [|x l IH]; simpl.
  { split; [|done]. intros _ x Hx. by apply elem_of_nil in Hx. }
  split.
  - intros Hnil. apply app_eq_nil in Hnil as [Hx Hl].
    intros y Hy. apply elem_of_cons in Hy as [->|Hy]; [done|].
    by apply IH.
  - intros Hall. rewrite (Hall x) by left. simpl.
    apply IH. intros y Hy. apply Hall. by right.
Qed.

(** *** The first loop *)

Fixpoint dupErrors (m : gmap string Team.t) (ts : list Team.t) : list string :=
  match ts with
  | [] => []
  | t :: ts' =>
      match m !! teamKey t with
      | Some _ => ("Duplicate team name detected: " +:+ Team.name t) :: dupErrors m ts'
      | None => dupErrors (<[teamKey t := t]> m) ts'
      end
  end.

Fixpoint namesAfter (m : gmap string Team.t) (ts : list Team.t)
  : gmap string Team.t :=
  match ts with
  | [] => m
  | t :: ts' =>
      match m !! teamKey t with
      | Some _ => namesAfter m ts'
      | None => namesAfter (<[teamKey t := t]> m) ts'
      end
  end.

Lemma foldl_noteName (errs : list string) (m : gmap string Team.t)
    (ts : list Team.t) :
  foldl noteName (errs, m) ts = (errs ++ dupErrors m ts, namesAfter m ts).
Proof.
  revert errs m. induction ts as [|t ts IH]; intros errs m; simpl.
  { by rewrite app_nil_r. }
  unfold noteName at 2. simpl. fold (teamKey t).
  destruct (m !! teamKey t); rewrite IH; [|done].
  by rewrite <- app_assoc.
Qed.

Lemma dupErrors_nil (m : gmap string Team.t) (ts : list Team.t) :
  dupErrors m ts = [] ↔
  NoDup (map teamKey ts) ∧ ∀ t, t ∈ ts → m !! teamKey t = None.
Proof.
  revert m. induction ts as [|t ts IH]; intros m; simpl.
  { split; [|done]. intros _. split; [constructor|].
    intros t Ht. by apply elem_of_nil in Ht. }
  destruct (m !! teamKey t) eqn:Hm.
  - split; [discriminate|]. intros [_ Hnone].
    rewrite Hnone in Hm by left. discriminate.
  - rewrite IH, NoDup_cons. split.
    + intros [Hnd Hfree]. split; [split; [|done]|].
      * intros Hin. apply list_elem_of_fmap in Hin as (t' & Hk & Ht').
        specialize (Hfree t' Ht'). rewrite <- Hk in Hfree.
        by rewrite lookup_insert_eq in Hfree.
      * intros t' Ht'. apply elem_of_cons in Ht' as [->|Ht']; [done|].
        specialize (Hfree t' Ht').
        apply lookup_insert_None in Hfree. tauto.
    + intros [[Hnin Hnd] Hfree]. split; [done|].
      intros t' Ht'. apply lookup_insert_None. split.
      * apply Hfree. by right.
      * intros Hk. apply Hnin. apply list_elem_of_fmap. by exists t'.
Qed.

Lemma namesAfter_lookup (m : gmap string Team.t) (ts : list Team.t)
    (k : string) (t : Team.t) :
  dupErrors m ts = [] →
  namesAfter m ts !! k = Some t ↔
  m !! k = Some t ∨ (t ∈ ts ∧ teamKey t = k).
Proof.
  revert m. induction ts as [|t0 ts IH]; intros m; simpl.
  { intros _. split; [by left|]. intros [?|[Ht _]]; [done|].
    by apply elem_of_nil in Ht. }
  destruct (m !! teamKey t0) eqn:Hm; [discriminate|].
  intros Hnil. rewrite (IH _ Hnil).
  rewrite lookup_insert_Some, elem_of_cons. split.
  - intros [[[<- <-]|[_ ?]]|[? ?]]; [right; by split; [left|] | by left | ].
    right. split; [by right|done].
  - intros [Hk|[[->|Ht] Hk]].
    + left. right. split; [|done]. intros <-. congruence.
    + left. by left.
    + by right.
Qed.

(** *** The second loop *)

Definition slotErrors (t : Team.t) (w : Slot.t) : list string :=
  match w with
  | Slot.lockedOOC o _ =>
      (if bool_decide (o = "") || bool_decide (trim o = "")
       then [Team.name t +:+ ": has an OOC opponent with empty name"] else [])
      ++ (if bool_decide (normalizeKey o = normalizeKey (Team.name t))
          then [Team.name t +:+ ": cannot play itself"] else [])
  | _ => []
  end.

Definition teamErrors (t : Team.t) : list string :=
  concat (map (slotErrors t) (Team.weeks t))
  ++ (if 12 <? countScheduled (Team.weeks t)
      then [Team.name t +:+ ": exceeds 12 total scheduled games ("
            +:+ pretty (countScheduled (Team.weeks t)) +:+ ")"]
      else []).

Lemma foldl_checkSlot (t : Team.t) (n : nat) (errs : list string)
    (ws : list Slot.t) :
  foldl (checkSlot t) (n, errs) ws
  = (n + countScheduled ws, errs ++ concat (map (slotErrors t) ws)).
Proof.
  revert n errs. induction ws as [|w ws IH]; intros n errs; simpl.
  { unfold countScheduled. simpl. by rewrite Nat.add_0_r, app_nil_r. }
  unfold countScheduled in *. rewrite filter_cons.
  destruct w; simpl; rewrite IH; simpl; try (f_equal; lia).
  repeat case_bool_decide; simpl in *;
    repeat (destruct (bool_decide _)); simpl;
    rewrite <- ?app_assoc; simpl; f_equal; lia.
Qed.

Lemma checkTeam_eq (errs : list string) (t : Team.t) :
  checkTeam errs t = errs ++ teamErrors t.
Proof.
  unfold checkTeam, teamErrors. cbv zeta. rewrite foldl_checkSlot. simpl.
  destruct (12 <? _); [by rewrite <- app_assoc | by rewrite app_nil_r].
Qed.

Lemma foldl_checkTeam (errs : list string) (ts : list Team.t) :
  foldl checkTeam errs ts = errs ++ concat (map teamErrors ts).
Proof.
  revert errs. induction ts as [|t ts IH]; intros errs; simpl.
  { by rewrite app_nil_r. }
  by rewrite IH, checkTeam_eq, <- app_assoc.
Qed.

(** *** The third loop *)

Definition oppErrors (byName : gmap string Team.t) (t : Team.t) (w : Slot.t)
  : list string :=
  match w with
  | Slot.lockedOOC o _ =>
      match byName !! normalizeKey o with
      | Some opp =>
          if bool_decide (Team.conference opp = Team.conference t)
          then [Team.name t +:+ ": existing OOC opponent "
                +:+ Team.name opp +:+ " is from same conference ("
                +:+ Team.conference t +:+ ")"]
          else []
      | None => []
      end
  | _ => []
  end.

Definition oppWarnings (byName : gmap string Team.t) (t : Team.t) (w : Slot.t)
  : list string :=
  match w with
  | Slot.lockedOOC o _ =>
      match byName !! normalizeKey o with
      | Some _ => []
      | None => [Team.name t +:+ ": opponent '" +:+ o
                 +:+ "' not found in team list"]
      end
  | _ => []
  end.

Lemma foldl_checkOpponent byName (t : Team.t) (acc : list string * list string)
    (ws : list Slot.t) :
  foldl (checkOpponent byName t) acc ws
  = (acc.1 ++ concat (map (oppErrors byName t) ws),
     acc.2 ++ concat (map (oppWarnings byName t) ws)).
Proof.
  revert acc. induction ws as [|w ws IH]; intros [e wn]; simpl.
  { by rewrite !app_nil_r. }
  rewrite IH. destruct w; simpl; try done.
  destruct (byName !! normalizeKey opponent); simpl.
  - case_bool_decide; simpl; by rewrite <- ?app_assoc.
  - by rewrite <- app_assoc.
Qed.

Lemma foldl_checkOpponents byName (acc : list string * list string)
    (ts : list Team.t) :
  foldl (λ acc t, foldl (checkOpponent byName t) acc (Team.weeks t)) acc ts
  = (acc.1 ++ concat (map (λ t, concat (map (oppErrors byName t) (Team.weeks t))) ts),
     acc.2 ++ concat (map (λ t, concat (map (oppWarnings byName t) (Team.weeks t))) ts)).
Proof.
  revert acc. induction ts as [|t ts IH]; intros [e wn]; simpl.
  { by rewrite !app_nil_r. }
  rewrite IH, foldl_checkOpponent. simpl. by rewrite <- !app_assoc.
Qed.

(** The errors, loop by loop. *)
Lemma validateParsedTeams_errors (teams : list Team.t) :
  errors (validateParsedTeams teams)
  = dupErrors ∅ teams
    ++ concat (map teamErrors teams)
    ++ concat (map (λ t, concat (map (oppErrors (namesAfter ∅ teams) t)
                                     (Team.weeks t))) teams).
Proof.
  unfold validateParsedTeams. cbv zeta.
  rewrite foldl_noteName, foldl_checkOpponents, foldl_checkTeam. simpl.
  by rewrite <- app_assoc.
Qed.
End Accepting.

Section Accepted.
Context `{host : Host}.

Lemma slotErrors_nil (t : Team.t) (w : Slot.t) :
  slotErrors t w = [] ↔
  ∀ o aw, w = Slot.lockedOOC o aw →
          (o ≠ "" ∧ trim o ≠ "") ∧ normalizeKey o ≠ teamKey t.
Proof.
  unfold teamKey. destruct w as [| |o aw| | |o aw]; simpl;
    try (split; [intros _ ? ? ?; discriminate | done]).
  split.
  - intros Hnil o' aw' [= <- <-]. apply app_eq_nil in Hnil as [H1 H2].
    destruct (bool_decide (o = "")) eqn:E1; [discriminate|].
    destruct (bool_decide (trim o = "")) eqn:E2; [discriminate|].
    destruct (bool_decide (normalizeKey o = _)) eqn:E3; [discriminate|].
    apply bool_decide_eq_false in E1, E2, E3. done.
  - intros Hall. destruct (Hall o aw eq_refl) as [[H1 H2] H3].
    by rewrite !bool_decide_eq_false_2.
Qed.

Lemma oppErrors_nil byName (t : Team.t) (w : Slot.t) :
  oppErrors byName t w = [] ↔
  ∀ o aw opp, w = Slot.lockedOOC o aw → byName !! normalizeKey o = Some opp →
              Team.conference opp ≠ Team.conference t.
Proof.
  destruct w as [| |o aw| | |o aw]; simpl;
    try (split; [intros _ ? ? ? ?; discriminate | done]).
  destruct (byName !! normalizeKey o) as [opp|] eqn:Hopp.
  - case_bool_decide as Hc.
    + split; [discriminate|]. intros Hall.
      by destruct (Hall o aw opp eq_refl Hopp).
    + split; [|done]. intros _ o' aw' opp' [= <- <-]. congruence.
  - split; [|done]. intros _ o' aw' opp' [= <- <-]. congruence.
Qed.

Lemma errors_nil_iff (teams : list Team.t) :
  errors (validateParsedTeams teams) = [] ↔ Acceptable teams.
Proof.
  rewrite validateParsedTeams_errors. split.
  - intros Hnil. apply app_eq_nil in Hnil as [Hdup Hnil].
    apply app_eq_nil in Hnil as [Hteam Hopp].
    pose proof (proj1 (dupErrors_nil _ _) Hdup) as [Hnd _].
    rewrite concat_map_nil in Hteam. rewrite concat_map_nil in Hopp.
    split.
    + done.
    + intros t Ht. specialize (Hteam t Ht). unfold teamErrors in Hteam.
      apply app_eq_nil in Hteam as [_ Hgames].
      destruct (12 <? _) eqn:E; [discriminate|]. apply Nat.ltb_ge in E. done.
    + intros t o aw Ht Hw. specialize (Hteam t Ht). unfold teamErrors in Hteam.
      apply app_eq_nil in Hteam as [Hslots _].
      rewrite concat_map_nil in Hslots.
      by destruct (proj1 (slotErrors_nil t _) (Hslots _ Hw) o aw eq_refl).
    + intros t o aw Ht Hw. specialize (Hteam t Ht). unfold teamErrors in Hteam.
      apply app_eq_nil in Hteam as [Hslots _].
      rewrite concat_map_nil in Hslots.
      by destruct (proj1 (slotErrors_nil t _) (Hslots _ Hw) o aw eq_refl).
    + intros t o aw t' Ht Hw Ht' Hk. specialize (Hopp t Ht). simpl in Hopp.
      rewrite concat_map_nil in Hopp.
      apply (proj1 (oppErrors_nil _ t _) (Hopp _ Hw) o aw t' eq_refl).
      apply (namesAfter_lookup _ _ _ _ Hdup). right. done.
  - intros [Hnd Hgames Hnamed Hother Hconf].
    assert (dupErrors ∅ teams = []) as Hdup.
    { apply dupErrors_nil. split; [done|]. intros t _. apply lookup_empty. }
    rewrite Hdup. simpl. apply app_nil. split.
    + apply concat_map_nil. intros t Ht. unfold teamErrors.
      apply app_nil. split.
      * apply concat_map_nil. intros w Hw. apply slotErrors_nil.
        intros o aw ->. split; [by apply (Hnamed t o aw)|by apply (Hother t o aw)].
      * specialize (Hgames t Ht).
        by rewrite (proj2 (Nat.ltb_ge _ _)).
    + apply concat_map_nil. intros t Ht. apply concat_map_nil. intros w Hw.
      apply oppErrors_nil. intros o aw opp -> Hopp.
      apply (namesAfter_lookup _ _ _ _ Hdup) in Hopp as [Hopp|[Hin Hk]].
      { by rewrite lookup_empty in Hopp. }
      by apply (Hconf t o aw opp).
Qed.

(** X8.  [validateParsedTeams] reports no error exactly for the team
    lists with unique keys in which no team has more than twelve
    conference and locked games and every locked opponent has a name
    that is not blank, is not the team's own, and does not belong to a
    team of the same conference. *)
Theorem validator_accepts_exactly (teams : list Team.t) :
  errors (validateParsedTeams teams) = [] ↔ Acceptable teams.
Proof. apply errors_nil_iff. Qed.

(** The teams [parseCSVToTeams] builds hold no [oocGame] cell. *)
Definition noOocGames (ts : list Team.t) : Prop :=
  ∀ t c, t ∈ ts → c ∈ Team.weeks t → Slot.isOocGame c = false.

Lemma countGames_countScheduled (ws : list Slot.t) :
  (∀ c, c ∈ ws → Slot.isOocGame c = false) →
  countGames ws = countScheduled ws.
Proof.
  unfold countGames, countScheduled.
  induction ws as [|w ws IH]; intros Hno; [done|].
  rewrite !filter_cons.
  assert (Slot.isOocGame w = false) as Hw by (apply Hno; left).
  assert (length (filter (λ w, Slot.isGame w = true) ws)
          = length (filter (λ w, isScheduled w = true) ws)) as IH'
    by (apply IH; intros c Hc; apply Hno; by right).
  destruct w; simpl in *; try discriminate; by rewrite ?IH'.
Qed.

(** X9.  For a parsed team list that the validator accepts, every team
    ends a successful run with at most twelve games, and two teams the
    run joins have different keys. *)
Theorem validated_input_stays_within_cap (ts out : list Team.t)
    (avoidWeek0 : bool) :
  errors (validateParsedTeams ts) = [] → noOocGames ts →
  Result.teams (tryGenerateSchedule ts avoidWeek0) = Some out →
  NoDup (map teamKey ts)
  ∧ Forall (λ t, countGames (Team.weeks t) ≤ 12) out
  ∧ Forall (λ s, (TeamState.totalGames s <= 12)%Z) (finalState ts avoidWeek0).
Proof.
  intros Hok Hno. apply errors_nil_iff in Hok as [Hnd Hgames _ _ _].
  assert (withinCap ts) as Hcap.
  { apply Forall_forall. intros t Ht.
    rewrite countGames_countScheduled by (intros c Hc; by apply (Hno t)).
    by apply Hgames. }
  rewrite tryGenerateSchedule_cases.
  destruct (_ && _); [discriminate|]. simpl. intros [= <-].
  split; [done|].
  destruct (cap_of_inv ts _ Hcap (run_teams _ _ _ (run_inv ts avoidWeek0))).
  done.
Qed.
End Accepted.

Lemma validated_input_stays_within_cap_witness :
  NoDup (map (@teamKey asciiHost) twoTeams)
  ∧ Forall (λ t, countGames (Team.weeks t) ≤ 12)
      [Team.mk "Beta" "X" (Num.ofZ 1) (<[1 := Slot.oocGame " alpha " true]> openWeeks);
       Team.mk " alpha " "Y" (Num.ofZ 1) (<[1 := Slot.oocGame "Beta" false]> openWeeks)]
  ∧ Forall (λ s, (TeamState.totalGames s <= 12)%Z)
           (@finalState asciiHost twoTeams true).
Proof.
  apply (@validated_input_stays_within_cap asciiHost twoTeams _ true).
  - vm_compute. reflexivity.
  - intros t c Ht Hc. unfold twoTeams in Ht.
    repeat (apply elem_of_cons in Ht as [->|Ht]);
      [| |by apply elem_of_nil in Ht];
      simpl in Hc; apply elem_of_replicate in Hc as [-> _]; reflexivity.
  - vm_compute. reflexivity.
Defined.

(** * The per-team count of unscheduled games *)

Definition isOoc (w : Slot.t) : bool :=
  match w with
  | Slot.oocGame _ _ | Slot.lockedOOC _ _ => true
  | _ => false
  end.

(** [unscheduledForTeam(t)], the number shown beside a team. *)
Definition unscheduledForTeam (t : Team.t) : Num.t :=
  let scheduledOOC :=
    foldl (λ n w, if isOoc w then (n + 1)%Z else n) 0%Z (Team.weeks t) in
  let remaining :=
    Num.sub (Num.orElse (Team.oocNeeded t) Num.zero) (Num.ofZ scheduledOOC) in
  if Num.ltb Num.zero remaining then remaining else Num.zero.

Definition countOoc (ws : list Slot.t) : nat :=
  length (filter (λ w, isOoc w = true) ws).

Lemma foldl_count_isOoc (ws : list Slot.t) (n : Z) :
  foldl (λ n w, if isOoc w then (n + 1)%Z else n) n ws
  = (n + Z.of_nat (countOoc ws))%Z.
Proof.
  unfold countOoc. revert n. induction ws as [|w ws IH]; intros n; simpl.
  { lia. }
  rewrite IH, filter_cons. destruct (isOoc w); simpl; lia.
Qed.

Lemma countOoc_le (ws : list Slot.t) : countOoc ws ≤ length ws.
Proof. apply length_filter. Qed.

Lemma unscheduledForTeam_eq (t : Team.t) :
  Num.isCount (Team.oocNeeded t) = true →
  (Z.of_nat (length (Team.weeks t)) <= maxArrayLength)%Z →
  unscheduledForTeam t
  = Num.ofZ (Z.max 0 (demandZ t - Z.of_nat (countOoc (Team.weeks t)))).
Proof.
  intros Hc Hlen. pose proof (countOoc_le (Team.weeks t)) as Hooc.
  apply isCount_range in Hc as [Hn Hneeded]. fold (demandZ t) in Hn, Hneeded.
  unfold unscheduledForTeam. cbv zeta. rewrite foldl_count_isOoc, Hneeded.
  unfold Num.limit, maxArrayLength in *.
  rewrite orElse_ofZ by (unfold Num.limit; lia).
  rewrite sub_ofZ by (unfold Num.limit; lia).
  rewrite ltb_zero_ofZ by (unfold Num.limit; lia).
  destruct (Z.ltb_spec 0 (demandZ t - (0 + Z.of_nat (countOoc (Team.weeks t)))));
    [f_equal; lia|].
  change Num.zero with (Num.ofZ 0). f_equal. lia.
Qed.

(** Cells that change only as the matcher changes them. *)
Lemma countOoc_new (inp out : list Slot.t) :
  length out = length inp →
  (∀ i c, inp !! i = Some c →
          out !! i = Some c
          ∨ (Slot.isOpen c = true ∧ ∃ o aw, out !! i = Some (Slot.oocGame o aw))) →
  countOoc out = countOoc inp + countNew inp out.
Proof.
  unfold countOoc. revert out.
  induction inp as [|c inp IH]; intros [|c' out] Hlen Hcell; try done.
  simpl in Hlen. rewrite !filter_cons. cbn [countNew].
  assert (length (filter (λ w, isOoc w = true) out)
          = length (filter (λ w, isOoc w = true) inp) + countNew inp out) as IH'.
  { apply IH; [lia|]. intros i x Hx. apply (Hcell (S i) x Hx). }
  destruct (Hcell 0 c eq_refl) as [[= ->] | (Hopen & o & aw & [= ->])].
  - destruct c; simpl; lia.
  - destruct c; simpl in *; try discriminate; lia.
Qed.

(** Cells that change only as the bye pass changes them. *)
Lemma countOoc_byes (inp out : list Slot.t) :
  length out = length inp →
  (∀ i c, inp !! i = Some c →
          out !! i = Some c ∨ (c = Slot.empty ∧ out !! i = Some Slot.bye)) →
  countOoc out = countOoc inp.
Proof.
  unfold countOoc. revert out.
  induction inp as [|c inp IH]; intros [|c' out] Hlen Hcell; try done.
  simpl in Hlen. rewrite !filter_cons.
  assert (length (filter (λ w, isOoc w = true) out)
          = length (filter (λ w, isOoc w = true) inp)) as IH'.
  { apply IH; [lia|]. intros i x Hx. apply (Hcell (S i) x Hx). }
  destruct (Hcell 0 c eq_refl) as [[= ->] | [-> [= ->]]].
  - destruct c; simpl; lia.
  - simpl. lia.
Qed.

Lemma countOoc_countLocked (ws : list Slot.t) :
  (∀ c, c ∈ ws → Slot.isOocGame c = false) → countOoc ws = countLocked ws.
Proof.
  unfold countOoc, countLocked.
  induction ws as [|w ws IH]; intros Hno; [done|].
  rewrite !filter_cons.
  assert (Slot.isOocGame w = false) as Hw by (apply Hno; left).
  assert (length (filter (λ w, isOoc w = true) ws)
          = length (filter (λ c, match c with Slot.lockedOOC _ _ => true
                                         | _ => false end = true) ws)) as IH'
    by (apply IH; intros c Hc; apply Hno; by right).
  destruct w; simpl in *; try discriminate; by rewrite ?IH'.
Qed.

Section Unscheduled.
Context `{host : Host}.

Lemma unscheduledForTeam_final (t : Team.t) (s : TeamState.t) (avoidWeek0 : bool) :
  Num.isCount (Team.oocNeeded t) = true →
  (Z.of_nat (length (Team.weeks t)) <= maxArrayLength)%Z →
  (∀ c, c ∈ Team.weeks t → Slot.isOocGame c = false) →
  TeamInv t s → Counted t s →
  unscheduledForTeam (byeTeam avoidWeek0 (TeamState.ref s))
  = TeamState.oocRemaining s.
Proof.
  intros Hc Hlen Hno Hinv [Hcount Hnew].
  pose proof (byeTeam_inv avoidWeek0 (TeamState.ref s)) as Hbye.
  rewrite unscheduledForTeam_eq;
    rewrite ?(byes_needed _ _ Hbye), ?(inv_ref_needed _ _ Hinv),
            ?(byes_length _ _ Hbye), ?(inv_length _ _ Hinv); try done.
  unfold demandZ.
  rewrite (byes_needed _ _ Hbye), (inv_ref_needed _ _ Hinv). fold (demandZ t).
  rewrite (countOoc_byes (Team.weeks (TeamState.ref s)))
    by (apply Hbye || apply (byes_cell _ _ Hbye)).
  rewrite (countOoc_new (Team.weeks t)); [|apply Hinv|];
    [|intros i c Hc'; destruct (inv_cell _ _ Hinv i c Hc') as [?|(? & _ & ?)]; auto].
  rewrite (countOoc_countLocked _ Hno).
  destruct (teamState_remainingZ t Hc Hlen) as [_ Hstart].
  apply isCount_range in Hcount as [[Hnn _] Hrem]. fold (remainingZ s) in *.
  rewrite Hrem. f_equal. lia.
Qed.

(** What the page shows beside the teams after a generation is what
    the states still need at the end of the run. *)
Lemma unscheduled_after_byes (ts : list Team.t) (avoidWeek0 : bool) :
  wholeDemand ts → noOocGames ts →
  map unscheduledForTeam
      (assignByes (map TeamState.ref (finalState ts avoidWeek0)) avoidWeek0)
  = map TeamState.oocRemaining (finalState ts avoidWeek0).
Proof.
  intros Hwhole Hno. rewrite assignByes_map, !map_map.
  pose proof (run_teams _ _ _ (run_inv ts avoidWeek0)) as Hteams.
  pose proof (run_counted _ _ _ (final_counted ts avoidWeek0 Hwhole)) as Hcounted.
  destruct Hwhole as [Hall _].
  assert (∀ t, t ∈ ts → ∀ c, c ∈ Team.weeks t → Slot.isOocGame c = false) as Hno'
    by (intros t Ht c Hc; by apply (Hno t)).
  clear Hno. revert Hcounted Hall.
  induction Hteams as [|t s ts' st Hinv _ IH]; intros Hcounted Hall; [done|].
  apply Forall2_cons in Hcounted as [Hc Hcounted].
  apply Forall_cons in Hall as [[Hcount Hlen] Hall].
  cbn [map]. rewrite IH by (done || (intros t' Ht'; apply Hno'; by right)).
  rewrite (unscheduledForTeam_final t) by (done || (apply Hno'; left)).
  done.
Qed.

(** X10.  After a generation of a parsed team list (one without
    [oocGame] cells) with whole-number demands, the numbers
    [unscheduledForTeam] shows for the teams are whole numbers, and
    they add up to the [unscheduled] of the result. *)
Theorem unscheduled_per_team_adds_up (ts : list Team.t) (avoidWeek0 : bool)
    (u : Num.t) :
  wholeDemand ts → noOocGames ts →
  Result.unscheduled (tryGenerateSchedule ts avoidWeek0) = Some u →
  let shown := map unscheduledForTeam (onGenerate ts avoidWeek0).2 in
  Forall (λ x, Num.isCount x = true) shown
  ∧ u = Num.ofZ (sumZ (map Num.toZ shown)).
Proof.
  intros Hwhole Hno Hu. cbv zeta. unfold onGenerate.
  destruct ts as [|t0 ts0] eqn:Hts.
  { destruct avoidWeek0; vm_compute in Hu; injection Hu as <-; by split. }
  rewrite <- Hts in *.
  rewrite tryGenerateSchedule_cases in Hu |- *.
  destruct (_ && _); [discriminate|]. simpl in Hu |- *. injection Hu as <-.
  rewrite unscheduled_after_byes by done.
  destruct (summary_exact ts avoidWeek0 Hwhole) as (_ & -> & _).
  pose proof (run_counted _ _ _ (final_counted ts avoidWeek0 Hwhole)) as Hcounted.
  split.
  - apply Forall_fmap. by apply (counted_counts ts).
  - unfold leftZ. by rewrite map_map.
Qed.
End Unscheduled.

Lemma unscheduled_per_team_adds_up_witness :
  let shown := map unscheduledForTeam (@onGenerate asciiHost oddTeams true).2 in
  Forall (λ x, Num.isCount x = true) shown
  ∧ Num.ofZ 1 = Num.ofZ (sumZ (map Num.toZ shown)).
Proof.
  apply (@unscheduled_per_team_adds_up asciiHost oddTeams true (Num.ofZ 1)).
  - split; [repeat constructor|]; vm_compute; done.
  - intros t c Ht Hc. unfold oddTeams in Ht.
    repeat (apply elem_of_cons in Ht as [->|Ht]);
      [| | |by apply elem_of_nil in Ht];
      simpl in Hc; apply elem_of_replicate in Hc as [-> _]; reflexivity.
  - vm_compute. reflexivity.
Defined.

(** * Reading and writing week cells *)

(** [/^bye$/i.test(raw)]: the three letters in either case. *)
Definition isByeWord (raw : string) : bool := bool_decide (asciiLower raw = "bye").

(** [raw.startsWith('@')] *)
Definition startsWithAt (raw : string) : bool :=
  match raw with
  | String c _ => bool_decide (c = "@"%char)
  | EmptyString => false
  end.

(** [raw.slice(1)] *)
Definition slice1 (raw : string) : string :=
  match raw with
  | String _ rest => rest
  | EmptyString => EmptyString
  end.

(** The cell [teamsToCSV] writes for a week: the function given to
    [t.weeks.map]. *)
Definition weekVal (w : Slot.t) : string :=
  match w with
  | Slot.confHome => "h"
  | Slot.confAway => "a"
  | Slot.bye => "BYE"
  | Slot.oocGame o aw | Slot.lockedOOC o aw => (if aw then "@" else "") +:+ o
  | Slot.empty => ""
  end.

(** [normalizeRow(row, targetLength)] *)
Definition normalizeRow (row : list string) (targetLength : nat) : list string :=
  let copy := row ++ replicate (targetLength - length row) "" in
  take targetLength copy.

Section Cells2.
Context `{host : Host}.

(** The week cell [parseCSVToTeams] builds from the text of a column:
    the body of its loop over the fourteen weeks. *)
Definition parseWeek (cell : string) : Slot.t :=
  let raw := trim cell in
  if bool_decide (raw = "h") then Slot.confHome
  else if bool_decide (raw = "a") then Slot.confAway
  else if isByeWord raw then Slot.bye
  else if bool_decide (String.length raw = 0) then Slot.empty
  else if startsWithAt raw then Slot.lockedOOC (slice1 raw) true
  else Slot.lockedOOC raw false.

(** A game read back from a file is a locked game. *)
Definition locked (w : Slot.t) : Slot.t :=
  match w with
  | Slot.oocGame o aw => Slot.lockedOOC o aw
  | _ => w
  end.

(** An opponent name that a cell can hold without an [@] and be read
    back as a name. *)
Definition plainOpponent (o : string) : Prop :=
  o ≠ "" ∧ o ≠ "h" ∧ o ≠ "a" ∧ isByeWord o = false ∧ startsWithAt o = false.

Lemma length_zero_empty (s : string) : String.length s = 0 ↔ s = "".
Proof. destruct s; simpl; split; done. Qed.

(** X11.  Reading a cell and writing it again gives the trimmed text of
    the cell, with any spelling of "bye" written [BYE].  Writing a week
    and reading it again gives the week back, a game as a locked game,
    provided the text written is free of surrounding blanks and a home
    opponent's name is not empty, [h], [a], a spelling of "bye", or a
    name that starts with [@]. *)
Theorem week_cells_round_trip :
  (∀ cell, weekVal (parseWeek cell)
           = if isByeWord (trim cell) then "BYE" else trim cell)
  ∧ (∀ w, trim (weekVal w) = weekVal w →
          (∀ o, w = Slot.oocGame o false ∨ w = Slot.lockedOOC o false →
                plainOpponent o) →
          parseWeek (weekVal w) = locked w).
Proof.
  split.
  - intros cell. unfold parseWeek. cbv zeta.
    set (raw := trim cell).
    destruct (isByeWord raw) eqn:Hbye.
    { case_bool_decide as Hh.
      { rewrite Hh in Hbye. vm_compute in Hbye. discriminate. }
      case_bool_decide as Ha; [|done].
      rewrite Ha in Hbye. vm_compute in Hbye. discriminate. }
    repeat case_bool_decide; try done.
    + simpl. symmetry. by apply length_zero_empty.
    + destruct raw as [|c rest]; [done|]. simpl. case_bool_decide; [|done].
      by subst c.
  - intros w Htrim Hplain. unfold parseWeek. cbv zeta. rewrite Htrim.
    destruct w as [| |o aw| | |o aw]; try done.
    + destruct aw; [done|].
      destruct (Hplain o (or_intror eq_refl)) as (H1 & H2 & H3 & H4 & H5).
      change (weekVal _) with o. rewrite H4, H5.
      rewrite !bool_decide_eq_false_2; try done.
      by rewrite length_zero_empty.
    + destruct aw; [done|].
      destruct (Hplain o (or_introl eq_refl)) as (H1 & H2 & H3 & H4 & H5).
      change (weekVal _) with o. rewrite H4, H5.
      rewrite !bool_decide_eq_false_2; try done.
      by rewrite length_zero_empty.
Qed.
End Cells2.

(** X12.  [normalizeRow] returns exactly [targetLength] columns: the
    columns of the row in order, cut off after [targetLength], and
    empty columns where the row has none. *)
Theorem normalizeRow_columns (row : list string) (targetLength : nat) :
  length (normalizeRow row targetLength) = targetLength
  ∧ ∀ i, i < targetLength →
         normalizeRow row targetLength !! i = Some (default "" (row !! i)).
Proof.
  unfold normalizeRow. cbv zeta. split.
  - rewrite length_take, length_app, length_replicate. lia.
  - intros i Hi. rewrite lookup_take_lt by done.
    destruct (row !! i) as [x|] eqn:Hx.
    + by rewrite (lookup_app_l_Some _ _ _ _ Hx).
    + apply lookup_ge_None in Hx. rewrite lookup_app_r by done.
      apply lookup_replicate. split; [done|lia].
Qed.

(** * Undoing a placement *)

(** The field updates of [undoGameAtWeek]. *)
Definition decTotalGames (s : TeamState.t) : TeamState.t :=
  TeamState.mk (TeamState.ref s) (TeamState.name s) (TeamState.key s)
    (TeamState.conference s) (TeamState.totalGames s - 1)
    (TeamState.homeGames s) (TeamState.awayGames s) (TeamState.playedOpp s)
    (TeamState.availableWeeks s) (TeamState.oocRemaining s).

Definition decHomeGames (s : TeamState.t) : TeamState.t :=
  TeamState.mk (TeamState.ref s) (TeamState.name s) (TeamState.key s)
    (TeamState.conference s) (TeamState.totalGames s)
    (TeamState.homeGames s - 1) (TeamState.awayGames s) (TeamState.playedOpp s)
    (TeamState.availableWeeks s) (TeamState.oocRemaining s).

Definition decAwayGames (s : TeamState.t) : TeamState.t :=
  TeamState.mk (TeamState.ref s) (TeamState.name s) (TeamState.key s)
    (TeamState.conference s) (TeamState.totalGames s)
    (TeamState.homeGames s) (TeamState.awayGames s - 1) (TeamState.playedOpp s)
    (TeamState.availableWeeks s) (TeamState.oocRemaining s).

(** [s.oocRemaining++] *)
Definition incOocRemaining (s : TeamState.t) : TeamState.t :=
  TeamState.mk (TeamState.ref s) (TeamState.name s) (TeamState.key s)
    (TeamState.conference s) (TeamState.totalGames s)
    (TeamState.homeGames s) (TeamState.awayGames s) (TeamState.playedOpp s)
    (TeamState.availableWeeks s) (Num.add (TeamState.oocRemaining s) Num.one).

Definition deletePlayedOpp (k : string) (s : TeamState.t) : TeamState.t :=
  TeamState.mk (TeamState.ref s) (TeamState.name s) (TeamState.key s)
    (TeamState.conference s) (TeamState.totalGames s)
    (TeamState.homeGames s) (TeamState.awayGames s)
    (TeamState.playedOpp s ∖ {[k]})
    (TeamState.availableWeeks s) (TeamState.oocRemaining s).

(** [if (!s.availableWeeks.includes(week)) s.availableWeeks.push(week)] *)
Definition pushWeek (week : nat) (s : TeamState.t) : TeamState.t :=
  TeamState.mk (TeamState.ref s) (TeamState.name s) (TeamState.key s)
    (TeamState.conference s) (TeamState.totalGames s)
    (TeamState.homeGames s) (TeamState.awayGames s) (TeamState.playedOpp s)
    (if bool_decide (week ∈ TeamState.availableWeeks s)
     then TeamState.availableWeeks s
     else TeamState.availableWeeks s ++ [week])
    (TeamState.oocRemaining s).

(** [cell && cell.away === v]: the cell is there, it is a game with an
    [away] field, and the field is [v]. *)
Definition awayIs (v : bool) (cell : option Slot.t) : bool :=
  match cell with
  | Some (Slot.oocGame _ aw) | Some (Slot.lockedOOC _ aw) => bool_decide (aw = v)
  | _ => false
  end.

(** [undoGameAtWeek(a, b, week)], one store update per statement.  As
    in [placeGameAtWeek], a week past the end of an array is left alone
    where JavaScript would extend the array. *)
Definition undoGameAtWeek (st : list TeamState.t) (a b : Ref) (week : nat)
  : list TeamState.t :=
  let ar := Team.weeks (TeamState.ref (st !!! a)) !! week in
  let br := Team.weeks (TeamState.ref (st !!! b)) !! week in
  let bKey := TeamState.key (st !!! b) in
  let aKey := TeamState.key (st !!! a) in
  let st := alter (TeamState.setRefWeek week Slot.empty) a st in
  let st := alter (TeamState.setRefWeek week Slot.empty) b st in
  let st := alter decTotalGames a st in
  let st := alter decTotalGames b st in
  let st := if awayIs false ar then alter decHomeGames a st else st in
  let st := if awayIs true br then alter decAwayGames b st else st in
  let st := alter incOocRemaining a st in
  let st := alter incOocRemaining b st in
  let st := alter (deletePlayedOpp bKey) a st in
  let st := alter (deletePlayedOpp aKey) b st in
  let st := alter (pushWeek week) a st in
  alter (pushWeek week) b st.

(** What [undoGameAtWeek] leaves of a participant after
    [placeGameAtWeek]: everything as before the placement, except that
    the cell is [empty], the week is last in [availableWeeks], and the
    counters [homeGames] and [awayGames] are as given. *)
Definition undone (week : nat) (home away : Z) (s : TeamState.t) : TeamState.t :=
  TeamState.mk (Team.setWeek week Slot.empty (TeamState.ref s))
    (TeamState.name s) (TeamState.key s) (TeamState.conference s)
    (TeamState.totalGames s) home away (TeamState.playedOpp s)
    (filter (λ w, w ≠ week) (TeamState.availableWeeks s) ++ [week])
    (TeamState.oocRemaining s).

Lemma undoGameAtWeek_length (st : list TeamState.t) a b w :
  length (undoGameAtWeek st a b w) = length st.
Proof.
  unfold undoGameAtWeek. cbv zeta.
  destruct (awayIs false _), (awayIs true _); by rewrite !length_alter.
Qed.

Lemma undoGameAtWeek_other (st : list TeamState.t) a b w i :
  i ≠ a → i ≠ b → undoGameAtWeek st a b w !! i = st !! i.
Proof.
  intros Ha Hb. unfold undoGameAtWeek. cbv zeta.
  destruct (awayIs false _), (awayIs true _);
    by rewrite !list_lookup_alter_ne by done.
Qed.

Lemma state_eq (s s' : TeamState.t) :
  TeamState.ref s = TeamState.ref s' → TeamState.name s = TeamState.name s' →
  TeamState.key s = TeamState.key s' →
  TeamState.conference s = TeamState.conference s' →
  TeamState.totalGames s = TeamState.totalGames s' →
  TeamState.homeGames s = TeamState.homeGames s' →
  TeamState.awayGames s = TeamState.awayGames s' →
  TeamState.playedOpp s = TeamState.playedOpp s' →
  TeamState.availableWeeks s = TeamState.availableWeeks s' →
  TeamState.oocRemaining s = TeamState.oocRemaining s' →
  s = s'.
Proof. destruct s, s'; simpl; intros; by subst. Qed.

Lemma filter_idemp_ne (w : nat) (l : list nat) :
  w ∉ filter (λ x, x ≠ w) l.
Proof. rewrite list_elem_of_filter. tauto. Qed.

(** [x--] and then [x++] on a count that is not zero. *)
Lemma count_pred_succ (x : Num.t) :
  Num.isCount x = true → Num.leb x Num.zero = false →
  Num.add (Num.sub x Num.one) Num.one = x.
Proof.
  intros Hx Hpos. apply isCount_spec in Hx as (n & Hn & ->).
  unfold Num.limit in Hn.
  rewrite leb_ofZ_zero in Hpos by (unfold Num.limit; lia).
  apply Z.leb_gt in Hpos. unfold Num.one.
  rewrite sub_ofZ, add_ofZ by (unfold Num.limit; lia).
  f_equal. lia.
Qed.

Ltac read_store :=
  repeat first [ rewrite list_lookup_alter_eq
               | rewrite list_lookup_alter_ne by congruence ].

(** X13.  [undoGameAtWeek] after [placeGameAtWeek], for a placement the
    matcher could make between two teams that still need a whole number
    of games: no other team is touched; both teams get back their
    [totalGames], [oocRemaining] and [playedOpp]; their cells of the
    week are [empty] and the week is available again, at the end of
    [availableWeeks].  The counters [homeGames] and [awayGames] come
    back only when the first team was the home side: otherwise the
    first team keeps one away game and the second one home game too
    many. *)
Theorem undo_after_place (st : list TeamState.t) (a b w : nat)
    (sa sb : TeamState.t) :
  ValidPlacement st a b w → st !! a = Some sa → st !! b = Some sb →
  Num.isCount (TeamState.oocRemaining sa) = true →
  Num.isCount (TeamState.oocRemaining sb) = true →
  w < length (Team.weeks (TeamState.ref sa)) →
  w < length (Team.weeks (TeamState.ref sb)) →
  let st' := undoGameAtWeek (placeGameAtWeek st a b w) a b w in
  let firstIsHome := homeIsFirst st a b in
  length st' = length st
  ∧ (∀ i, i ≠ a → i ≠ b → st' !! i = st !! i)
  ∧ st' !! a
    = Some (undone w (TeamState.homeGames sa)
              (if firstIsHome then TeamState.awayGames sa
               else TeamState.awayGames sa + 1)%Z sa)
  ∧ st' !! b
    = Some (undone w (if firstIsHome then TeamState.homeGames sb
                      else TeamState.homeGames sb + 1)%Z
              (TeamState.awayGames sb) sb).
Proof.
  intros Hvalid Ha Hb Hca Hcb Hwa Hwb. cbv zeta.
  pose proof Hvalid as (Hab & _ & _ & _ & _ & Hcan).
  apply canScheduleBetween_true in Hcan as (_ & _ & Hra & Hrb & _ & _ & Hpa & Hpb).
  rewrite (list_lookup_total_correct _ _ _ Ha) in Hpa, Hpb, Hra.
  rewrite (list_lookup_total_correct _ _ _ Hb) in Hpa, Hpb, Hrb.
  pose proof (placeGameAtWeek_first st a b w sa sb Hab Ha Hb) as Ha'.
  pose proof (placeGameAtWeek_second st a b w sa sb Hab Ha Hb) as Hb'.
  set (st1 := placeGameAtWeek st a b w) in *.
  set (h := homeIsFirst st a b) in *.
  split; [rewrite undoGameAtWeek_length; apply placeGameAtWeek_length|].
  split.
  { intros i Hia Hib. rewrite undoGameAtWeek_other by done.
    by apply placeGameAtWeek_other. }
  unfold undoGameAtWeek. cbv zeta.
  rewrite (list_lookup_total_correct _ _ _ Ha'),
          (list_lookup_total_correct _ _ _ Hb').
  rewrite !played_weeks, !list_lookup_insert_eq by done.
  cbn [awayIs]. unfold played at 1 2. cbn [TeamState.key].
  assert (b ≠ a) as Hba by done.
  destruct h; cbn [negb]; rewrite ?bool_decide_eq_true_2 by done;
    rewrite ?bool_decide_eq_false_2 by done; cbn [bool_decide]; split;
    read_store; rewrite ?Ha', ?Hb'; simpl; f_equal; apply state_eq; simpl;
    try done; try lia; try (by apply count_pred_succ);
    try (rewrite bool_decide_eq_false_2 by apply filter_idemp_ne; done);
    try (destruct (TeamState.ref sa); unfold Team.setWeek; simpl;
         by rewrite list_insert_insert_eq);
    try (destruct (TeamState.ref sb); unfold Team.setWeek; simpl;
         by rewrite list_insert_insert_eq);
    try (apply set_eq; intros x; rewrite elem_of_difference, elem_of_union,
           elem_of_singleton; split; [tauto|]; intros Hx; split; [tauto|];
         intros ->; tauto).
Qed.

Lemma undo_after_place_witness :
  let st := @computeState asciiHost twoTeams in
  let st' := undoGameAtWeek (placeGameAtWeek st 0 1 1) 0 1 1 in
  let firstIsHome := homeIsFirst st 0 1 in
  length st' = length st
  ∧ (∀ i, i ≠ 0 → i ≠ 1 → st' !! i = st !! i)
  ∧ st' !! 0
    = Some (undone 1 (TeamState.homeGames (st !!! 0%nat))
              (if firstIsHome then TeamState.awayGames (st !!! 0%nat)
               else TeamState.awayGames (st !!! 0%nat) + 1)%Z (st !!! 0%nat))
  ∧ st' !! 1
    = Some (undone 1 (if firstIsHome then TeamState.homeGames (st !!! 1%nat)
                      else TeamState.homeGames (st !!! 1%nat) + 1)%Z
              (TeamState.awayGames (st !!! 1%nat)) (st !!! 1%nat)).
Proof.
  apply (undo_after_place (@computeState asciiHost twoTeams) 0 1 1).
  - split; [done|]. split; [by eexists|]. split; [by eexists|].
    split; [refine (bool_decide_unpack _ _); vm_compute; exact I|].
    split; [refine (bool_decide_unpack _ _); vm_compute; exact I|].
    vm_compute. reflexivity.
  - reflexivity.
  - reflexivity.
  - vm_compute. reflexivity.
  - vm_compute. reflexivity.
  - vm_compute. lia.
  - vm_compute. lia.
Defined.

(** Beyond the whole numbers binary64 counts, [x--] and then [x++] need
    not give [x] back: from [2^53 + 2] they lead to [2^53]. *)
Example undo_beyond_whole_numbers :
  let st := @computeState asciiHost bigTeams in
  let st' := undoGameAtWeek (placeGameAtWeek st 0 1 1) 0 1 1 in
  TeamState.oocRemaining (st !!! 0%nat) = Num.ofZ 9007199254740994
  ∧ TeamState.oocRemaining (st' !!! 0) = Num.ofZ 9007199254740992.
Proof. vm_compute. done. Qed.

(** After placing and undoing the game of [twoTeams], whose home side is
    the second team, the first team counts an away game and the second
    a home game that are no longer on the schedule. *)
Example undo_leaves_counters :
  let st := @computeState asciiHost twoTeams in
  let st' := undoGameAtWeek (placeGameAtWeek st 0 1 1) 0 1 1 in
  TeamState.awayGames (st !!! 0%nat) = 0%Z ∧ TeamState.awayGames (st' !!! 0) = 1%Z
  ∧ TeamState.homeGames (st !!! 1%nat) = 0%Z ∧ TeamState.homeGames (st' !!! 1) = 1%Z
  ∧ map TeamState.ref st' = map TeamState.ref st.
Proof. vm_compute. done. Qed.

(** * Choosing the team with the fewest options *)

(** [s.availableWeeks.filter(w => preferWeeksNoZero ? w !== 0 : true).length] *)
Definition weeksScore (preferWeeksNoZero : bool) (s : TeamState.t) : nat :=
  length (filter (λ w, (if preferWeeksNoZero then negb (w =? 0) else true) = true)
                 (TeamState.availableWeeks s)).

(** The body of the loop of [chooseNextTeam]: [best] and [bestScore],
    where no score yet stands for [Infinity]. *)
Definition considerTeam (st : list TeamState.t) (preferWeeksNoZero : bool)
    (acc : option Ref * option nat) (i : Ref) : option Ref * option nat :=
  let s := st !!! i in
  if Num.leb (TeamState.oocRemaining s) Num.zero then acc
  else
    let score := weeksScore preferWeeksNoZero s in
    let better := match acc.2 with
                  | None => true
                  | Some bestScore => score <? bestScore
                  end in
    if better then (Some i, Some score) else acc.

(** [chooseNextTeam(state, preferWeeksNoZero)]; [null] is [None]. *)
Definition chooseNextTeam (st : list TeamState.t) (preferWeeksNoZero : bool)
  : option Ref :=
  (foldl (considerTeam st preferWeeksNoZero) (None, None) (seq 0 (length st))).1.

(** What [best] and [bestScore] are after the teams before [k]. *)
Definition BestSoFar (st : list TeamState.t) (prefer : bool) (k : nat)
    (acc : option Ref * option nat) : Prop :=
  match acc.1 with
  | None =>
      acc.2 = None
      ∧ ∀ j, j < k → Num.leb (TeamState.oocRemaining (st !!! j)) Num.zero = true
  | Some i =>
      acc.2 = Some (weeksScore prefer (st !!! i))
      ∧ i < k
      ∧ Num.leb (TeamState.oocRemaining (st !!! i)) Num.zero = false
      ∧ ∀ j, j < k →
             Num.leb (TeamState.oocRemaining (st !!! j)) Num.zero = false →
             weeksScore prefer (st !!! i) ≤ weeksScore prefer (st !!! j)
             ∧ (weeksScore prefer (st !!! j) = weeksScore prefer (st !!! i) → i ≤ j)
  end.

Lemma considerTeam_best st prefer k acc :
  BestSoFar st prefer k acc →
  BestSoFar st prefer (S k) (considerTeam st prefer acc k).
Proof.
  unfold BestSoFar, considerTeam. cbv zeta.
  destruct acc as [[i|] sc]; simpl.
  - intros (-> & Hik & Hri & Hbest).
    destruct (Num.leb (TeamState.oocRemaining (st !!! k)) Num.zero) eqn:Hrk;
      simpl.
    + split; [done|]. split; [lia|]. split; [done|].
      intros j Hj Hrj. destruct (decide (j = k)) as [->|]; [congruence|].
      apply Hbest; [lia|done].
    + destruct (Nat.ltb_spec (weeksScore prefer (st !!! k))
                  (weeksScore prefer (st !!! i))) as [Hlt|Hge]; simpl.
      * split; [done|]. split; [lia|]. split; [done|].
        intros j Hj Hrj. destruct (decide (j = k)) as [->|]; [lia|].
        destruct (Hbest j) as [? ?]; [lia|done|]. lia.
      * split; [done|]. split; [lia|]. split; [done|].
        intros j Hj Hrj. destruct (decide (j = k)) as [->|]; [lia|].
        apply Hbest; [lia|done].
  - intros (-> & Hnone).
    destruct (Num.leb (TeamState.oocRemaining (st !!! k)) Num.zero) eqn:Hrk;
      simpl.
    + split; [done|]. intros j Hj. destruct (decide (j = k)) as [->|]; [done|].
      apply Hnone. lia.
    + split; [done|]. split; [lia|]. split; [done|].
      intros j Hj Hrj. destruct (decide (j = k)) as [->|]; [lia|].
      rewrite Hnone in Hrj by lia. discriminate.
Qed.

Lemma considerTeams_best st prefer k n acc :
  BestSoFar st prefer k acc →
  BestSoFar st prefer (k + n) (foldl (considerTeam st prefer) acc (seq k n)).
Proof.
  revert k acc. induction n as [|n IH]; intros k acc Hacc; simpl.
  { by rewrite Nat.add_0_r. }
  replace (k + S n) with (S k + n) by lia.
  by apply IH, considerTeam_best.
Qed.

(** X14.  [chooseNextTeam] returns nothing exactly when no team still
    needs a game, that is when [oocRemaining <= 0] holds of every
    team; otherwise it returns a team that still needs one and has the
    fewest available weeks among those (week 0 not counted when
    [preferWeeksNoZero] is set), the first such team of the list. *)
Theorem chooseNextTeam_picks_scarcest (st : list TeamState.t) (prefer : bool) :
  match chooseNextTeam st prefer with
  | None =>
      ∀ j, j < length st →
           Num.leb (TeamState.oocRemaining (st !!! j)) Num.zero = true
  | Some i =>
      i < length st
      ∧ Num.leb (TeamState.oocRemaining (st !!! i)) Num.zero = false
      ∧ ∀ j, j < length st →
             Num.leb (TeamState.oocRemaining (st !!! j)) Num.zero = false →
             weeksScore prefer (st !!! i) ≤ weeksScore prefer (st !!! j)
             ∧ (weeksScore prefer (st !!! j) = weeksScore prefer (st !!! i) → i ≤ j)
  end.
Proof.
  unfold chooseNextTeam.
  assert (BestSoFar st prefer 0 (None, None)) as H0.
  { split; [done|]. intros j Hj. lia. }
  apply (considerTeams_best st prefer 0 (length st)) in H0. simpl in H0.
  unfold BestSoFar in H0.
  destruct (foldl _ _ _).1 as [i|]; tauto.
Qed.

(** * The status shown after a generation *)

(** [status.type] *)
Inductive StatusType := statusInfo | statusSuccess | statusWarning | statusError.

Section StatusLine.
Context `{host : Host}.

(** The [status.type] that [onGenerate] leaves, given the one before
    it: nothing happens without teams; [resetStatus] and the outcome of
    [tryGenerateSchedule] decide otherwise.  A result without
    [unscheduled] would make [result.unscheduled && ...] falsy.  The
    text of [status.message] is left out. *)
Definition statusAfterGenerate (teamsValue : list Team.t) (avoidWeek0 : bool)
    (before : StatusType) : StatusType :=
  match teamsValue with
  | [] => before
  | _ =>
      let result := tryGenerateSchedule teamsValue avoidWeek0 in
      if Result.ok result then
        match Result.unscheduled result with
        | Some u =>
            if Num.truthy u && Num.ltb Num.zero u
            then statusWarning else statusSuccess
        | None => statusSuccess
        end
      else statusError
  end.

Lemma sumZ_zero (l : list Z) :
  Forall (λ z, (0 <= z)%Z) l → sumZ l = 0%Z → Forall (λ z, z = 0%Z) l.
Proof.
  induction 1 as [|z l Hz Hl IH]; [constructor|].
  rewrite sumZ_cons. intros Hsum.
  pose proof (sumZ_nonneg l Hl).
  constructor; [lia|]. apply IH. lia.
Qed.

Lemma sumZ_positive (l : list Z) :
  (0 < sumZ l)%Z → Exists (λ z, (0 < z)%Z) l.
Proof.
  induction l as [|z l IH]; [by rewrite sumZ_nil|].
  rewrite sumZ_cons. intros Hsum.
  destruct (decide (0 < z)%Z); [by left|]. right. apply IH. lia.
Qed.

(** X15.  For a parsed team list with whole-number demands that is not
    empty, the status after a generation tells the outcome: on success
    no team of the new schedule is short of a game by the count of
    [unscheduledForTeam]; on a warning some team is; on an error the
    teams are as they were and no two of them could have been paired in
    any week. *)
Theorem status_tells_outcome (ts : list Team.t) (avoidWeek0 : bool)
    (before : StatusType) :
  wholeDemand ts → noOocGames ts → ts ≠ [] →
  let out := (onGenerate ts avoidWeek0).2 in
  match statusAfterGenerate ts avoidWeek0 before with
  | statusSuccess => Forall (λ t, unscheduledForTeam t = Num.zero) out
  | statusWarning =>
      Exists (λ t, Num.ltb Num.zero (unscheduledForTeam t) = true) out
  | statusError =>
      out = ts ∧ ∀ a b w, w < 14 → ¬ Pairable (computeState ts) a b w
  | statusInfo => False
  end.
Proof.
  intros Hwhole Hno Hne. cbv zeta. unfold statusAfterGenerate, onGenerate.
  destruct ts as [|t0 ts0] eqn:Hts; [done|]. rewrite <- Hts in *. clear Hne.
  pose proof (unscheduled_after_byes ts avoidWeek0 Hwhole Hno) as Hmap.
  pose proof (counted_counts _ _
                (run_counted _ _ _ (final_counted ts avoidWeek0 Hwhole)))
    as Hcounts.
  destruct (summary_exact ts avoidWeek0 Hwhole)
    as (Hbefore & Hafter & Hsched & Hle & Hlim & Hsum).
  rewrite tryGenerateSchedule_cases.
  destruct (_ && _) eqn:Hcond; simpl.
  - split; [done|]. apply andb_true_iff in Hcond as [_ Hzero].
    rewrite Hsched in Hzero. unfold Num.limit in Hlim.
    rewrite eqb_ofZ_zero in Hzero by (unfold Num.limit; lia).
    apply Z.eqb_eq in Hzero.
    apply (nothing_placed_nothing_pairable ts avoidWeek0 Hwhole).
    destruct (placementsOf ts avoidWeek0); [done|simpl in Hzero; lia].
  - clear Hcond. rewrite Hafter. unfold Num.limit in Hlim.
    rewrite truthy_ofZ, ltb_zero_ofZ by (unfold Num.limit; lia).
    set (out := assignByes _ _) in *.
    assert (Forall2 (λ t s, unscheduledForTeam t = Num.ofZ (remainingZ s)
                            ∧ (0 <= remainingZ s < Num.limit)%Z)
              out (finalState ts avoidWeek0)) as Hshown.
    { apply Forall2_same_length_lookup. split.
      - by rewrite <- (length_map unscheduledForTeam), Hmap, length_map.
      - intros i t s Ht Hs.
        assert (map unscheduledForTeam out !! i = Some (unscheduledForTeam t)) as Hi
          by (by rewrite list_lookup_fmap, Ht).
        rewrite Hmap, list_lookup_fmap, Hs in Hi. injection Hi as Hi.
        rewrite Forall_lookup in Hcounts.
        destruct (isCount_range _ (Hcounts i s Hs)) as [? Hx].
        by rewrite <- Hi. }
    unfold leftZ in *.
    destruct (Z.eqb_spec (sumZ (map remainingZ (finalState ts avoidWeek0))) 0)
      as [Hz|Hz]; simpl.
    + apply sumZ_zero in Hz.
      * apply Forall_fmap in Hz.
        eapply Forall2_Forall_l; [exact Hshown|].
        eapply Forall_impl; [exact Hz|]. simpl.
        intros s Hs t [-> _]. by rewrite Hs.
      * apply Forall_fmap. eapply Forall2_Forall_r; [exact Hshown|].
        apply Forall_forall. by intros t _ s [_ [? _]].
    + destruct (Z.ltb_spec 0 (sumZ (map remainingZ (finalState ts avoidWeek0))))
        as [Hp|Hp]; simpl; [|lia].
      apply sumZ_positive, Exists_exists in Hp as (z & Hs & Hps).
      apply list_elem_of_fmap in Hs as (s & -> & Hs).
      apply list_elem_of_lookup in Hs as [i Hs].
      apply Forall2_same_length_lookup in Hshown as [Hlen Hshown].
      destruct (lookup_lt_is_Some_2 out i) as [t Ht];
        [rewrite Hlen; by eapply lookup_lt_Some|].
      destruct (Hshown i t s Ht Hs) as [Heq [_ Hs']].
      apply Exists_exists. exists t. split; [exact (list_elem_of_lookup_2 _ _ _ Ht)|].
      rewrite Heq. unfold Num.limit in Hs'.
      rewrite ltb_zero_ofZ by (unfold Num.limit; lia). by apply Z.ltb_lt.
Qed.
End StatusLine.

Lemma status_tells_outcome_witness :
  Exists (λ t, Num.ltb Num.zero (unscheduledForTeam t) = true)
         (@onGenerate asciiHost oddTeams true).2.
Proof.
  apply (@status_tells_outcome asciiHost oddTeams true statusInfo).
  - split; [repeat constructor|]; vm_compute; done.
  - intros t c Ht Hc. unfold oddTeams in Ht.
    repeat (apply elem_of_cons in Ht as [->|Ht]);
      [| | |by apply elem_of_nil in Ht];
      simpl in Hc; apply elem_of_replicate in Hc as [-> _]; reflexivity.
  - discriminate.
Defined.
